(** * DGR: a master process shares named variables with slave processes

    A shallow embedding of [dgr.c] and the properties of its registry,
    its wire format and its send/receive cycle.

    - C objects are lists of bytes; a pointer into an object is an offset.
    - [int] is a 32-bit two's complement integer, held in [Z]; the only
      place where the source can leave the range is the running total of
      [dgr_serialize], whose wrap-around is written out ([to_int]).
    - A call either returns, ends the process with [exit(1)], has no
      defined behaviour in C, or does not return. *)

From Stdlib Require Import ZArith Lia List Bool.
From Stdlib.Strings Require Import Byte String.
From stdpp Require Import base list.
Import ListNotations.

Local Open Scope Z_scope.

(** ** Outcomes of a call *)

(** What the C standard leaves undefined, as far as [dgr.c] can reach it. *)
Inductive fault : Type :=
| OutOfBounds     (* a read or write outside the object (or outside its initialised part) *)
| NegativeLength  (* a negative length given to [memcpy] or to a variable-length array *)
| NullPointer.    (* [malloc] gave NULL and the block is used *)

Inductive outcome (A : Type) : Type :=
| Done (a : A)        (* the call returns [a] *)
| Exit (code : Z)     (* the process ends through [exit(code)] *)
| Undef (f : fault)   (* behaviour undefined *)
| NoReturn.           (* the call blocks for ever *)

Arguments Done {A} a.
Arguments Exit {A} code.
Arguments Undef {A} f.
Arguments NoReturn {A}.

Definition obind {A B : Type} (m : outcome A) (k : A -> outcome B) : outcome B :=
  match m with
  | Done a => k a
  | Exit c => Exit c
  | Undef f => Undef f
  | NoReturn => NoReturn
  end.

Notation "'let*' x ':=' m 'in' k" := (obind m (fun x => k))
  (at level 10, x name, m at level 100, k at level 200).
Notation "'let*' ' p ':=' m 'in' k" := (obind m (fun x => let 'p := x in k))
  (at level 10, p pattern, m at level 100, k at level 200).

(** ** Machine integers and bytes *)

Definition INT_MIN : Z := - 2 ^ 31.
Definition INT_MAX : Z := 2 ^ 31 - 1.

(** Conversion of an integer value to [int]: reduction modulo 2^32 into the
    signed range. *)
Definition to_int (z : Z) : Z := (z + 2 ^ 31) mod 2 ^ 32 - 2 ^ 31.

Definition sizeof_int : Z := 4.

Definition byte_of_Z (z : Z) : byte :=
  match Byte.of_N (Z.to_N (z mod 256)) with
  | Some b => b
  | None => x00
  end.

Definition Z_of_byte (b : byte) : Z := Z.of_N (Byte.to_N b).

(** The byte order of the host: the wire format carries an [int] as it lies
    in memory. *)
Inductive endianness : Type := LittleEndian | BigEndian.

(** The four bytes of an [int], least significant first. *)
Definition int_bytes (z : Z) : list byte :=
  [ byte_of_Z z; byte_of_Z (Z.shiftr z 8);
    byte_of_Z (Z.shiftr z 16); byte_of_Z (Z.shiftr z 24) ].

Fixpoint bytes_value (bs : list byte) : Z :=
  match bs with
  | [] => 0
  | b :: bs' => Z_of_byte b + 256 * bytes_value bs'
  end.

(** [memcpy(p, &i, sizeof(int))]: the object representation of [i]. *)
Definition store_int (e : endianness) (z : Z) : list byte :=
  match e with
  | LittleEndian => int_bytes z
  | BigEndian => rev (int_bytes z)
  end.

(** [memcpy(&i, p, sizeof(int))]: the [int] whose representation is [bs]. *)
Definition load_int (e : endianness) (bs : list byte) : Z :=
  match e with
  | LittleEndian => to_int (bytes_value bs)
  | BigEndian => to_int (bytes_value (rev bs))
  end.

(** ** Memory objects *)

Definition len {A : Type} (l : list A) : Z := Z.of_nat (length l).

(** [n] bytes read at offset [off] of the object [src]. *)
Definition mem_read (src : list byte) (off n : Z) : outcome (list byte) :=
  if n <? 0 then Undef NegativeLength
  else if (off <? 0) || (len src <? off + n) then Undef OutOfBounds
  else Done (take (Z.to_nat n) (drop (Z.to_nat off) src)).

(** [bytes] written at offset [off] of the object [dst]. *)
Definition mem_write (dst : list byte) (off : Z) (bytes : list byte)
  : outcome (list byte) :=
  if (off <? 0) || (len dst <? off + len bytes) then Undef OutOfBounds
  else Done (take (Z.to_nat off) dst ++ bytes
             ++ drop (Z.to_nat (off + len bytes)) dst).

(** [memcpy(dst + doff, src + soff, n)]. *)
Definition memcpy (dst : list byte) (doff : Z) (src : list byte) (soff n : Z)
  : outcome (list byte) :=
  let* bytes := mem_read src soff n in
  mem_write dst doff bytes.

(** [malloc(n)] with [n] an [int]: a negative [n] becomes a huge [size_t]
    and the allocation fails.  Memory is otherwise taken to suffice, and
    [malloc(0)] gives a block that copies of no bytes can use.  The content
    of a fresh block is indeterminate; every caller in [dgr.c] overwrites
    the whole block before any read, [x00] stands for it here. *)
Definition malloc (n : Z) : outcome (list byte) :=
  if n <? 0 then Undef NullPointer
  else Done (replicate (Z.to_nat n) x00).

(** The content of a C string: the bytes before its terminator. *)
Definition strlen (s : list byte) : Z := len s.

Fixpoint strcmp (a b : list byte) : Z :=
  match a, b with
  | [], [] => 0
  | [], _ :: _ => -1
  | _ :: _, [] => 1
  | x :: a', y :: b' =>
      if Byte.eqb x y then strcmp a' b' else Z_of_byte x - Z_of_byte y
  end.

Definition truthy (z : Z) : bool := negb (z =? 0).

(** ** The registry and the process state *)

(** [dgr_record]: [name] is a [char[1024]] holding a C string, [buffer]
    points to a block from [malloc]. *)
Record dgr_record : Type := mk_record {
  rec_name : list byte;
  rec_size : Z;
  rec_buffer : list byte
}.

Definition NAME_SIZE : Z := 1024.
Definition DGR_MAX_LIST_SIZE : Z := 1024.

(** The socket and the clock, as far as [poll], [recvfrom], [sendto] and
    [time] show them to the process. *)
Record dgr_world : Type := mk_world {
  clock : Z;                                (* milliseconds since the epoch *)
  sock_pending : list (list byte);          (* datagrams queued on the socket, oldest first *)
  sock_arrivals : list (Z * list byte);     (* datagrams still to come: delay in ms after the one before *)
  sock_error : bool;                        (* the socket calls fail with -1 *)
  sock_sent : list (list byte);             (* datagrams sent, oldest first *)
  net_setup_ok : bool;                      (* getaddrinfo, socket and bind succeed *)
  environ : list (list byte * list byte)    (* the environment variables *)
}.

(** The static variables of [dgr.c], with the world around the process.
    [dgr_list] holds the slots [0 .. dgr_list_size - 1] of the array, so
    that [dgr_list_size] is its length; no function reads a slot at or after
    [dgr_list_size], and the array ends after slot [DGR_MAX_LIST_SIZE - 1].
    [dgr_time_lastreceive] is in seconds; [time_t] is wide enough for the
    differences taken. *)
Record dgr_state : Type := mk_state {
  dgr_list : list dgr_record;
  dgr_time_lastreceive : Z;
  dgr_mode : Z;
  dgr_disabled : Z;
  world : dgr_world
}.

Definition dgr_list_size (st : dgr_state) : Z := len (dgr_list st).

Definition set_list (l : list dgr_record) (st : dgr_state) : dgr_state :=
  mk_state l (dgr_time_lastreceive st) (dgr_mode st) (dgr_disabled st) (world st).
Definition set_time_lastreceive (t : Z) (st : dgr_state) : dgr_state :=
  mk_state (dgr_list st) t (dgr_mode st) (dgr_disabled st) (world st).
Definition set_mode (m : Z) (st : dgr_state) : dgr_state :=
  mk_state (dgr_list st) (dgr_time_lastreceive st) m (dgr_disabled st) (world st).
Definition set_disabled (d : Z) (st : dgr_state) : dgr_state :=
  mk_state (dgr_list st) (dgr_time_lastreceive st) (dgr_mode st) d (world st).
Definition set_world (w : dgr_world) (st : dgr_state) : dgr_state :=
  mk_state (dgr_list st) (dgr_time_lastreceive st) (dgr_mode st) (dgr_disabled st) w.

(** The static storage before any call: all zero. *)
Definition initial_state (w : dgr_world) : dgr_state := mk_state [] 0 0 0 w.

(** A procedure of [dgr.c]: from the state to an outcome with the new state. *)
Definition M (A : Type) : Type := dgr_state -> outcome (A * dgr_state).

(** ** The registry *)

Definition dgr_free : M unit := fun st => Done (tt, set_list [] st).

Definition dgr_is_master : M Z := fun st => Done (dgr_mode st, st).

Definition dgr_is_enabled : M Z := fun st =>
  if truthy (dgr_disabled st) then Done (0, st) else Done (1, st).

Fixpoint findIndex_from (l : list dgr_record) (i : Z) (name : list byte) : Z :=
  match l with
  | [] => -1
  | r :: l' =>
      if strcmp name (rec_name r) =? 0 then i
      else findIndex_from l' (i + 1) name
  end.

Definition dgr_findIndex (name : list byte) (st : dgr_state) : Z :=
  findIndex_from (dgr_list st) 0 name.

(** [buffer] is the caller's object, [bufferSize] what the caller says its
    size is.  The result is the return value with the caller's object. *)
Definition dgr_get (name : list byte) (buffer : list byte) (bufferSize : Z)
  : M (Z * list byte) := fun st =>
  if truthy (dgr_disabled st) then Done ((-3, buffer), st)
  else
    let index := dgr_findIndex name st in
    if index =? -1 then Done ((-1, buffer), st)
    else
      match dgr_list st !! Z.to_nat index with
      | None => Undef OutOfBounds
      | Some rec =>
          if bufferSize >=? rec_size rec then
            let* buffer' := memcpy buffer 0 (rec_buffer rec) 0 (rec_size rec) in
            Done ((rec_size rec, buffer'), st)
          else Done ((-2, buffer), st)
      end.

Definition dgr_set (name : list byte) (buffer : list byte) (size : Z)
  : M unit := fun st =>
  if truthy (dgr_disabled st) then Done (tt, st)
  else
    let index := dgr_findIndex name st in
    if index =? -1 then
      if dgr_list_size st >? DGR_MAX_LIST_SIZE then Exit 1
      else if dgr_list_size st >=? DGR_MAX_LIST_SIZE then
        (* record = &dgr_list[dgr_list_size] lies after the array *)
        Undef OutOfBounds
      else if strlen name + 1 >? NAME_SIZE then
        (* sprintf runs over record->name *)
        Undef OutOfBounds
      else
        let* block := malloc size in
        let* block := memcpy block 0 buffer 0 size in
        Done (tt, set_list (dgr_list st ++ [mk_record name size block]) st)
    else
      match dgr_list st !! Z.to_nat index with
      | None => Undef OutOfBounds
      | Some record =>
          let* record :=
            (if negb (rec_size record =? size) then
               let* block := malloc size in
               Done (mk_record (rec_name record) size block)
             else Done record) in
          let* block := memcpy (rec_buffer record) 0 buffer 0 size in
          Done (tt, set_list
                      (<[Z.to_nat index :=
                           mk_record (rec_name record) (rec_size record) block]>
                         (dgr_list st)) st)
      end.

Definition dgr_setget (name : list byte) (buffer : list byte) (bufferSize : Z)
  : M (list byte) := fun st =>
  if truthy (dgr_disabled st) then Done (buffer, st)
  else if truthy (dgr_mode st) then
    let* '(_, st) := dgr_set name buffer bufferSize st in
    Done (buffer, st)
  else
    let* '((ret, buffer), st) := dgr_get name buffer bufferSize st in
    Done (buffer, st).

(** ** The wire format *)

Section Host.

Variable byte_order : endianness.

Fixpoint space_needed_from (l : list dgr_record) (spaceNeeded : Z) : Z :=
  match l with
  | [] => spaceNeeded
  | r :: l' =>
      space_needed_from l'
        (to_int (spaceNeeded
                 + (strlen (rec_name r) + 1 + sizeof_int + rec_size r)))
  end.

Fixpoint serialize_from (l : list dgr_record) (serialized : list byte) (ptr : Z)
  : outcome (list byte) :=
  match l with
  | [] => Done serialized
  | r :: l' =>
      let* serialized := mem_write serialized ptr (rec_name r ++ [x00]) in
      let bytesPrinted := strlen (rec_name r) in
      let ptr := ptr + (bytesPrinted + 1) in
      let* serialized :=
        mem_write serialized ptr (store_int byte_order (rec_size r)) in
      let ptr := ptr + sizeof_int in
      let* serialized :=
        memcpy serialized ptr (rec_buffer r) 0 (rec_size r) in
      let ptr := ptr + rec_size r in
      serialize_from l' serialized ptr
  end.

(** The result is [*size] with the block returned. *)
Definition dgr_serialize : M (Z * list byte) := fun st =>
  let spaceNeeded := space_needed_from (dgr_list st) 0 in
  let* serialized := malloc spaceNeeded in
  let* serialized := serialize_from (dgr_list st) serialized 0 in
  Done ((spaceNeeded, serialized), st).

(** The inner loop of [dgr_unserialize]: [rest] is the object from [ptr]
    on, [c] the index into [name].  The result is the name read. *)
Fixpoint read_name (rest : list byte) (c : Z) (name : list byte)
  : outcome (list byte) :=
  match rest with
  | [] => Undef OutOfBounds                          (* *ptr *)
  | ch :: rest' =>
      if Byte.eqb ch x00 then
        if c <? NAME_SIZE then Done name             (* name[c++] = 0 *)
        else Undef OutOfBounds
      else if c <? NAME_SIZE then                    (* name[c++] = *ptr *)
        read_name rest' (c + 1) (name ++ [ch])
      else Undef OutOfBounds
  end.

(** One record read at [ptr]: its name, its size field, its data and the
    pointer after it.  [serialized] is the object [ptr] points into, as far
    as it is initialised. *)
Definition read_record (serialized : list byte) (ptr : Z)
  : outcome (list byte * Z * list byte * Z) :=
  let* name := read_name (drop (Z.to_nat ptr) serialized) 0 [] in
  let ptr := ptr + strlen name + 1 in
  let* bytes := mem_read serialized ptr sizeof_int in
  let size := load_int byte_order bytes in
  let ptr := ptr + sizeof_int in
  (* char data[size]; a length of 0 is taken as gcc takes it: an empty array *)
  if size <? 0 then Undef NegativeLength
  else
    let* data := mem_read serialized ptr size in
    let ptr := ptr + size in
    Done (name, size, data, ptr).

(** The loop of [dgr_unserialize].  Every turn moves [ptr] on by five bytes
    at least, so that [size - ptr] turns are enough ([fuel]). *)
Fixpoint unserialize_loop (fuel : nat) (size : Z) (serialized : list byte)
  (ptr : Z) : M unit := fun st =>
  if ptr <? size then
    match fuel with
    | O => NoReturn
    | S fuel' =>
        let* '(name, size', data, ptr) := read_record serialized ptr in
        let* '(_, st) := dgr_set name data size' st in
        unserialize_loop fuel' size serialized ptr st
    end
  else Done (tt, st).

Definition dgr_unserialize (size : Z) (serialized : list byte) : M unit :=
  unserialize_loop (Z.to_nat size) size serialized 0.

(** ** The socket and the clock *)

Definition time_now (st : dgr_state) : Z := clock (world st) / 1000.

Fixpoint lookup_env (var : list byte) (env : list (list byte * list byte))
  : option (list byte) :=
  match env with
  | [] => None
  | (k, v) :: env' => if strcmp var k =? 0 then Some v else lookup_env var env'
  end.

Definition getenv (var : string) (st : dgr_state) : option (list byte) :=
  lookup_env (list_byte_of_string var) (environ (world st)).

Definition set_clock (t : Z) (w : dgr_world) : dgr_world :=
  mk_world t (sock_pending w) (sock_arrivals w) (sock_error w) (sock_sent w)
    (net_setup_ok w) (environ w).
Definition set_pending (q : list (list byte)) (w : dgr_world) : dgr_world :=
  mk_world (clock w) q (sock_arrivals w) (sock_error w) (sock_sent w)
    (net_setup_ok w) (environ w).
Definition set_arrivals (a : list (Z * list byte)) (w : dgr_world) : dgr_world :=
  mk_world (clock w) (sock_pending w) a (sock_error w) (sock_sent w)
    (net_setup_ok w) (environ w).
Definition set_sent (s : list (list byte)) (w : dgr_world) : dgr_world :=
  mk_world (clock w) (sock_pending w) (sock_arrivals w) (sock_error w) s
    (net_setup_ok w) (environ w).

(** [poll(&fds, 1, timeout)] on the socket: -1 on error, 1 when a datagram
    can be read, 0 when none came within [timeout] milliseconds.  A call
    with [timeout = 0] takes no time. *)
Definition poll (timeout : Z) : M Z := fun st =>
  let w := world st in
  if sock_error w then Done (-1, st)
  else
    match sock_pending w with
    | _ :: _ => Done (1, st)
    | [] =>
        if timeout =? 0 then Done (0, st)
        else
          match sock_arrivals w with
          | [] =>
              if timeout <? 0 then NoReturn
              else Done (0, set_world (set_clock (clock w + timeout) w) st)
          | (d, p) :: rest =>
              if (timeout <? 0) || (d <=? timeout) then
                Done (1, set_world
                           (set_arrivals rest
                              (set_pending [p] (set_clock (clock w + d) w))) st)
              else
                Done (0, set_world
                           (set_arrivals ((d - timeout, p) :: rest)
                              (set_clock (clock w + timeout) w)) st)
          end
    end.

(** [recvfrom(dgr_socket, serialized, length, 0, ...)]: the oldest datagram
    is taken from the socket and its first [length] bytes are written at the
    start of [serialized]; the call waits when there is none. *)
Definition recvfrom (serialized : list byte) (length : Z)
  : M (Z * list byte) := fun st =>
  let w := world st in
  if sock_error w then Done ((-1, serialized), st)
  else
    let deliver (p : list byte) (w : dgr_world) :=
      let numbytes := Z.min (len p) length in
      Done ((numbytes,
             take (Z.to_nat numbytes) p ++ drop (Z.to_nat numbytes) serialized),
            set_world w st) in
    match sock_pending w with
    | p :: q => deliver p (set_pending q w)
    | [] =>
        match sock_arrivals w with
        | [] => NoReturn
        | (d, p) :: rest =>
            deliver p (set_arrivals rest (set_clock (clock w + d) w))
        end
    end.

Definition MAX_DATAGRAM : Z := 65507.

(** [sendto(dgr_socket, buf, bufSize, 0, ...)]: a datagram goes out whole or
    not at all (EMSGSIZE). *)
Definition sendto (buf : list byte) (bufSize : Z) : M Z := fun st =>
  let w := world st in
  if sock_error w || (bufSize >? MAX_DATAGRAM) then Done (-1, st)
  else
    let* bytes := mem_read buf 0 bufSize in
    Done (bufSize, set_world (set_sent (sock_sent w ++ [bytes]) w) st).

(** ** The send/receive cycle *)

Definition dgr_send : M unit := fun st =>
  if truthy (dgr_disabled st) then Done (tt, st)
  else
    let* '((bufSize, buf), st) := dgr_serialize st in
    if (bufSize =? 0) || (dgr_list_size st =? 0) then Done (tt, st)
    else
      let* '(numbytes, st) := sendto buf bufSize st in
      if numbytes =? -1 then Exit 1
      else if negb (numbytes =? bufSize) then Exit 1
      else Done (tt, st).

Definition RECV_BUFFER_SIZE : Z := 1024 * 1024.

(** The [while(1)] loop of [dgr_receive]; every turn takes one datagram, so
    that one turn more than there are datagrams is enough ([fuel]). *)
Fixpoint receive_loop (fuel : nat) (serialized : list byte)
  : M (Z * list byte) := fun st =>
  match fuel with
  | O => NoReturn
  | S fuel' =>
      let* '((numbytes, serialized), st) :=
        recvfrom serialized RECV_BUFFER_SIZE st in
      if numbytes =? -1 then Exit 1
      else
        let* '(retval, st) := poll 0 st in
        if retval =? 0 then Done ((numbytes, serialized), st)
        else receive_loop fuel' serialized st
  end.

Definition dgr_receive (timeout : Z) : M unit := fun st =>
  if truthy (dgr_disabled st) then Done (tt, st)
  else
    let seconds := 15 in
    if negb (dgr_time_lastreceive st =? 0)
       && (time_now st - dgr_time_lastreceive st >=? seconds)
    then Exit 1
    else
      let* '(retval, st) := poll timeout st in
      if retval =? -1 then Exit 1
      else if retval =? 0 then
        if timeout >? 0 then Exit 1 else Done (tt, st)
      else
        (* char serialized[1024*1024]: nothing of it is initialised yet *)
        let* '((numbytes, serialized), st) :=
          receive_loop (S (length (sock_pending (world st)))) [] st in
        let st := set_time_lastreceive (time_now st) st in
        dgr_unserialize numbytes serialized st.

Definition dgr_update : M unit := fun st =>
  if truthy (dgr_mode st) then dgr_send st
  else if dgr_time_lastreceive st =? 0 then dgr_receive 10000 st
  else dgr_receive 0 st.

(** ** Start-up *)

(** A NULL [ipAddr] is printed as glibc prints it. *)
Definition dgr_init_master : M unit := fun st =>
  let ipAddr := getenv "DGR_MASTER_DEST_IP" st in
  let port := getenv "DGR_MASTER_DEST_PORT" st in
  let st :=
    match ipAddr with
    | None => set_disabled 1 st
    | Some ip =>
        if strcmp ip (list_byte_of_string "0.0.0.0") =? 0
        then set_disabled 1 st
        else set_disabled 0 st
    end in
  match port with
  | None => Exit 1
  | Some _ => if net_setup_ok (world st) then Done (tt, st) else Exit 1
  end.

Definition dgr_init_slave : M unit := fun st =>
  match getenv "DGR_SLAVE_LISTEN_PORT" st with
  | None => Exit 1
  | Some _ =>
      let st := set_time_lastreceive 0 st in
      if net_setup_ok (world st) then Done (tt, st) else Exit 1
  end.

Definition dgr_init : M unit := fun st =>
  let master := getenv "DGR_MODE" st in
  let st := set_disabled 1 st in
  let* '(_, st) :=
    match master with
    | Some m =>
        if strcmp m (list_byte_of_string "master") =? 0 then
          dgr_init_master (set_disabled 0 (set_mode 1 st))
        else if strcmp m (list_byte_of_string "slave") =? 0 then
          dgr_init_slave (set_disabled 0 (set_mode 0 st))
        else Done (tt, st)
    | None => Done (tt, st)
    end in
  if dgr_list_size st >? 0 then dgr_free st else Done (tt, st).

End Host.

(** ** Notions used to state the properties *)

(** The first record of the list with the given name: the record that
    [dgr_findIndex] points to. *)
Fixpoint find_record (name : list byte) (l : list dgr_record)
  : option dgr_record :=
  match l with
  | [] => None
  | r :: l' =>
      if strcmp name (rec_name r) =? 0 then Some r else find_record name l'
  end.

(** The content of a C string has no terminator in it. *)
Definition c_string (s : list byte) : bool :=
  forallb (fun b => negb (Byte.eqb b x00)) s.

(** A record as the data model has it: the name fits [char[1024]] with its
    terminator and the buffer has [size] bytes. *)
Definition wf_record (r : dgr_record) : bool :=
  c_string (rec_name r)
  && (strlen (rec_name r) + 1 <=? NAME_SIZE)
  && (rec_size r =? len (rec_buffer r)).

Fixpoint names_distinct (l : list dgr_record) : bool :=
  match l with
  | [] => true
  | r :: l' =>
      match find_record (rec_name r) l' with
      | None => names_distinct l'
      | Some _ => false
      end
  end.

(** A registry as the data model has it: well-formed records, one record
    per name at most, no more records than the array has slots. *)
Definition wf_registry (l : list dgr_record) : bool :=
  forallb wf_record l && names_distinct l && (len l <=? DGR_MAX_LIST_SIZE).

(** The wire format in the words of the specification: the name's bytes, one
    terminator byte, the size as a 4-byte native-endian signed integer, then
    the data bytes; a packet is its records one after the other. *)
Definition wire_record (e : endianness) (r : dgr_record) : list byte :=
  rec_name r ++ [x00] ++ store_int e (rec_size r) ++ rec_buffer r.

Definition wire_packet (e : endianness) (l : list dgr_record) : list byte :=
  concat (map (wire_record e) l).

(** The (name, size, data) triples of a packet, read as [dgr_unserialize]
    reads them but without the registry. *)
Fixpoint parse_loop (e : endianness) (fuel : nat) (size : Z)
  (serialized : list byte) (ptr : Z) : outcome (list dgr_record) :=
  if ptr <? size then
    match fuel with
    | O => NoReturn
    | S fuel' =>
        let* '(name, size', data, ptr) := read_record e serialized ptr in
        let* rest := parse_loop e fuel' size serialized ptr in
        Done (mk_record name size' data :: rest)
    end
  else Done [].

Definition parse_packet (e : endianness) (size : Z) (serialized : list byte)
  : outcome (list dgr_record) :=
  parse_loop e (Z.to_nat size) size serialized 0.

(** [dgr_set] called on each triple in turn. *)
Fixpoint apply_records (l : list dgr_record) : M unit := fun st =>
  match l with
  | [] => Done (tt, st)
  | r :: l' =>
      let* '(_, st) := dgr_set (rec_name r) (rec_buffer r) (rec_size r) st in
      apply_records l' st
  end.

(** The last triple of a packet with the given name. *)
Fixpoint last_binding (name : list byte) (l : list dgr_record)
  : option dgr_record :=
  match l with
  | [] => None
  | r :: l' =>
      match last_binding name l' with
      | Some r' => Some r'
      | None => if strcmp name (rec_name r) =? 0 then Some r else None
      end
  end.

(** The registry after [set]: the first record with the name is replaced,
    or the record is added at the end. *)
Fixpoint registry_set (name : list byte) (r' : dgr_record)
  (l : list dgr_record) : list dgr_record :=
  match l with
  | [] => [r']
  | r :: l' =>
      if strcmp name (rec_name r) =? 0 then r' :: l'
      else r :: registry_set name r' l'
  end.

(** The registry after the triples of a packet were set in turn. *)
Definition registry_merge (kvs l : list dgr_record) : list dgr_record :=
  fold_left (fun l r => registry_set (rec_name r) r l) kvs l.

(** ** Sessions used as examples *)

(** A socket with nothing queued and nothing to come. *)
Definition idle_world : dgr_world := mk_world 0 [] [] false [] true [].

Definition bytes_of (s : string) : list byte := list_byte_of_string s.

(** A master sets "score" to the [int] 10 and serializes; a slave
    unserializes the bytes and gets "score" into a buffer of four bytes.
    The result is the packet with its length, and what [dgr_get] returns
    with the buffer. *)
Definition example_score (e : endianness)
  : outcome (Z * list byte * (Z * list byte)) :=
  let* '(_, master) :=
    dgr_set (bytes_of "score") (store_int e 10) 4 (initial_state idle_world) in
  let* '((size, serialized), _) := dgr_serialize e master in
  let* '(_, slave) :=
    dgr_unserialize e size serialized (initial_state idle_world) in
  let* '((ret, buf4), _) :=
    dgr_get (bytes_of "score") [x00; x00; x00; x00] 4 slave in
  Done (size, serialized, (ret, buf4)).

(** The packet {A: "ab"} and then the packet {B: "xy"} are unserialized by
    one session; the result is its registry. *)
Definition example_merge (e : endianness) : outcome (list dgr_record) :=
  let pA := wire_packet e [mk_record (bytes_of "A") 2 (bytes_of "ab")] in
  let pB := wire_packet e [mk_record (bytes_of "B") 2 (bytes_of "xy")] in
  let* '(_, st) := dgr_unserialize e (len pA) pA (initial_state idle_world) in
  let* '(_, st) := dgr_unserialize e (len pB) pB st in
  Done (dgr_list st).

(** A datagram that ends after the size field of its only record. *)
Definition truncated_packet (e : endianness) (size : Z) : list byte :=
  bytes_of "a" ++ [x00] ++ store_int e size.

(** "x" is set to four bytes and then to two; the result is what [dgr_get]
    returns into a buffer of four zero bytes, with that buffer. *)
Definition example_resize : outcome (Z * list byte) :=
  let* '(_, st) :=
    dgr_set (bytes_of "x") [x01; x02; x03; x04] 4 (initial_state idle_world) in
  let* '(_, st) := dgr_set (bytes_of "x") [x09; x08] 2 st in
  let* '(res, _) := dgr_get (bytes_of "x") [x00; x00; x00; x00] 4 st in
  Done res.

(** A name of two bytes for each number below 128 * 255. *)
Definition var_name (n : nat) : list byte :=
  [byte_of_Z (1 + Z.of_nat n / 128); byte_of_Z (1 + Z.of_nat n mod 128)].

(** [n] variables of one byte each are set, under the names
    [var_name 0 .. var_name (n - 1)]. *)
Fixpoint set_many (n : nat) : M unit := fun st =>
  match n with
  | O => Done (tt, st)
  | S n' =>
      let* '(_, st) := set_many n' st in
      dgr_set (var_name n') [x01] 1 st
  end.

(** The session after 1024 variables were set. *)
Definition full_session : dgr_state :=
  match set_many 1024 (initial_state idle_world) with
  | Done (_, st) => st
  | _ => initial_state idle_world
  end.

(** No datagram comes within [timeout] milliseconds. *)
Definition nothing_arrives_within (timeout : Z) (w : dgr_world) : bool :=
  match sock_arrivals w with
  | [] => true
  | (d, _) :: _ => timeout <? d
  end.

(** The receive buffer after the datagram [p] was received into it. *)
Definition received_into (serialized p : list byte) : list byte :=
  let numbytes := Z.to_nat (Z.min (len p) RECV_BUFFER_SIZE) in
  take numbytes p ++ drop numbytes serialized.

(** A packet with the one-byte variables A and B, both [v]. *)
Definition packet_AB (e : endianness) (v : byte) : list byte :=
  wire_packet e [mk_record (bytes_of "A") 1 [v]; mk_record (bytes_of "B") 1 [v]].

(** A slave that received before has the packets {A=1,B=1}, {A=2,B=2} and
    {A=3,B=3} queued, and updates; the result is its registry. *)
Definition example_freshness (e : endianness) : outcome (list dgr_record) :=
  let w := mk_world 20000 [packet_AB e x01; packet_AB e x02; packet_AB e x03]
             [] false [] true [] in
  let* '(_, st) := dgr_update e (mk_state [] 10 0 0 w) in
  Done (dgr_list st).

(** A slave has the packet {b: "zz"} and then a datagram queued that names
    "a", says two bytes of data follow and ends there; it updates.  The
    result is its registry. *)
Definition example_stale (e : endianness) : outcome (list dgr_record) :=
  let w := mk_world 0 [wire_packet e [mk_record (bytes_of "b") 2 (bytes_of "zz")];
                       truncated_packet e 2] [] false [] true [] in
  let* '(_, st) := dgr_update e (initial_state w) in
  Done (dgr_list st).

(** A world with the packet of "score", the [int] 10, queued and no
    environment variable set. *)
Definition score_world (e : endianness) : dgr_world :=
  mk_world 0 [wire_packet e [mk_record (bytes_of "score") 4 (store_int e 10)]]
    [] false [] true [].

(** [dgr_update] and then [dgr_setget] of "score" into four zero bytes, on a
    process on which [dgr_init] was not called ([init = false]) or was called
    ([init = true]).  The result is the buffer with the datagrams left on
    the socket. *)
Definition example_session (e : endianness) (init : bool)
  : outcome (list byte * list (list byte)) :=
  let* '(_, st) :=
    (if init then dgr_init (initial_state (score_world e))
     else Done (tt, initial_state (score_world e))) in
  let* '(_, st) := dgr_update e st in
  let* '(buffer, st) :=
    dgr_setget (bytes_of "score") [x00; x00; x00; x00] 4 st in
  Done (buffer, sock_pending (world st)).

(** DGR_MODE is set to "master" or to "slave". *)
Definition mode_is_valid (st : dgr_state) : bool :=
  match getenv "DGR_MODE" st with
  | Some m =>
      (strcmp m (list_byte_of_string "master") =? 0)
      || (strcmp m (list_byte_of_string "slave") =? 0)
  | None => false
  end.

(** The sessions of a process on which [dgr_init] was not called: the
    static variables are as at the start, then [dgr_setget] and [dgr_update]
    are called and the world changes as it likes. *)
Inductive uninitialised (e : endianness) : dgr_state -> Prop :=
| uninit_start (w : dgr_world) :
    uninitialised e (initial_state w)
| uninit_world (st : dgr_state) (w : dgr_world) :
    uninitialised e st -> uninitialised e (set_world w st)
| uninit_setget (st st' : dgr_state) (name buffer buffer' : list byte)
    (bufferSize : Z) :
    uninitialised e st ->
    dgr_setget name buffer bufferSize st = Done (buffer', st') ->
    uninitialised e st'
| uninit_update (st st' : dgr_state) :
    uninitialised e st ->
    dgr_update e st = Done (tt, st') ->
    uninitialised e st'.

(** A master with two variables. *)
Definition example_master : dgr_state :=
  mk_state [mk_record (bytes_of "score") 4 (store_int LittleEndian 10);
            mk_record (bytes_of "name") 3 (bytes_of "abc")]
    0 1 0 idle_world.

(** A slave that received at second 10, at second 20, with three packets
    queued. *)
Definition example_slave : dgr_state :=
  mk_state [] 10 0 0
    (mk_world 20000
       [packet_AB LittleEndian x01; packet_AB LittleEndian x02;
        packet_AB LittleEndian x03] [] false [] true []).

(** A slave that received at second 10, at second 30, with a packet
    queued. *)
Definition example_late_slave : dgr_state :=
  mk_state [] 10 0 0
    (mk_world 30000 [packet_AB LittleEndian x01] [] false [] true []).

(** A session with "x" of four bytes. *)
Definition example_x : dgr_state :=
  mk_state [mk_record (bytes_of "x") 4 [x01; x02; x03; x04]] 0 0 0 idle_world.

(** The sessions a process can be in: the static variables are as at the
    start, then [dgr_init], [dgr_setget] (with a C string as the name) and
    [dgr_update] are called and the world changes as it likes. *)
Inductive reachable (e : endianness) : dgr_state -> Prop :=
| reach_start (w : dgr_world) :
    reachable e (initial_state w)
| reach_world (st : dgr_state) (w : dgr_world) :
    reachable e st -> reachable e (set_world w st)
| reach_init (st st' : dgr_state) :
    reachable e st ->
    dgr_init st = Done (tt, st') ->
    reachable e st'
| reach_setget (st st' : dgr_state) (name buffer buffer' : list byte)
    (bufferSize : Z) :
    reachable e st ->
    c_string name = true ->
    dgr_setget name buffer bufferSize st = Done (buffer', st') ->
    reachable e st'
| reach_update (st st' : dgr_state) :
    reachable e st ->
    dgr_update e st = Done (tt, st') ->
    reachable e st'.

(** A process that was not initialised, after it received the packet of
    "score". *)
Definition example_received : dgr_state :=
  match dgr_update LittleEndian (initial_state (score_world LittleEndian)) with
  | Done (_, st) => st
  | _ => initial_state idle_world
  end.

(** Every slot of [l] is a slot of [l'] with the same name. *)
Definition keeps_slots (l l' : list dgr_record) : Prop :=
  forall (i : nat) (r : dgr_record),
    l !! i = Some r ->
    exists r', l' !! i = Some r' /\ rec_name r' = rec_name r.

(** ** More sessions used as examples *)

(** A name of 1024 bytes. *)
Definition example_long_name : list byte := replicate 1024 "a"%byte.

(** The master with two variables on a socket that fails. *)
Definition example_broken_master : dgr_state :=
  mk_state (dgr_list example_master) 0 1 0
    (mk_world 0 [] [] true [] true []).

(** A slave that received at second 10, at second 20, with a packet and
    after it an empty datagram queued. *)
Definition example_pinged_slave : dgr_state :=
  mk_state [mk_record (bytes_of "x") 4 [x01; x02; x03; x04]] 10 0 0
    (mk_world 20000 [packet_AB LittleEndian x01; []] [] false [] true []).

(** A slave that never received; a packet arrives after half a second. *)
Definition example_waiting_slave : dgr_state :=
  initial_state
    (mk_world 0 [] [(500, packet_AB LittleEndian x03)] false [] true []).

(** A slave that never received, with the packet of [example_master]
    queued. *)
Definition example_synced_slave : dgr_state :=
  initial_state
    (mk_world 0 [wire_packet LittleEndian (dgr_list example_master)]
       [] false [] true []).

(** A slave that holds ab = "12" and received at second 10, at second 20,
    with the packet {xb: "zz"} queued and after it a datagram of the one
    byte 'a'. *)
Definition example_over_read : dgr_state :=
  mk_state [mk_record (bytes_of "ab") 2 (bytes_of "12")] 10 0 0
    (mk_world 20000
       [wire_packet LittleEndian [mk_record (bytes_of "xb") 2 (bytes_of "zz")];
        bytes_of "a"] [] false [] true []).

(** A slave that holds A = 1 and received at second 10, at second 20, with
    the packet {A=3,B=3} queued. *)
Definition example_slave_with_A : dgr_state :=
  mk_state [mk_record (bytes_of "A") 1 [x01]] 10 0 0
    (mk_world 20000 [packet_AB LittleEndian x03] [] false [] true []).

(** A process started with DGR_MODE=master and a destination. *)
Definition example_master_start : dgr_state :=
  initial_state
    (mk_world 0 [] [] false [] true
       [(bytes_of "DGR_MODE", bytes_of "master");
        (bytes_of "DGR_MASTER_DEST_IP", bytes_of "10.0.0.255");
        (bytes_of "DGR_MASTER_DEST_PORT", bytes_of "5700")]).

(** That process after [dgr_init]: an enabled master without a record. *)
Definition example_started_master : dgr_state :=
  mk_state [] 0 1 0 (world example_master_start).

(** A process started with DGR_MODE=slave and a port, after it received
    something at second 10. *)
Definition example_slave_start : dgr_state :=
  mk_state [mk_record (bytes_of "x") 4 [x01; x02; x03; x04]] 10 0 0
    (mk_world 0 [] [] false [] true
       [(bytes_of "DGR_MODE", bytes_of "slave");
        (bytes_of "DGR_SLAVE_LISTEN_PORT", bytes_of "5700")]).

(** * Properties *)

(** ** Bytes and integers *)

Lemma Z_of_byte_range (b : byte) : 0 <= Z_of_byte b < 256.
Proof.
  unfold Z_of_byte. pose proof (Byte.to_N_bounded b). lia.
Qed.

Lemma Z_of_byte_of_Z (z : Z) : Z_of_byte (byte_of_Z z) = z mod 256.
Proof.
  unfold Z_of_byte, byte_of_Z.
  assert (Hr : 0 <= z mod 256 < 256) by (apply Z.mod_pos_bound; lia).
  destruct (Byte.of_N (Z.to_N (z mod 256))) as [b|] eqn:E.
  - apply Byte.to_of_N in E. rewrite E. lia.
  - apply Byte.of_N_None_iff in E. lia.
Qed.

Lemma byte_of_Z_of_byte (b : byte) : byte_of_Z (Z_of_byte b) = b.
Proof.
  unfold byte_of_Z, Z_of_byte.
  pose proof (Byte.to_N_bounded b) as Hb.
  rewrite Z.mod_small by lia.
  rewrite N2Z.id, Byte.of_to_N. reflexivity.
Qed.

Lemma Z_of_byte_inj (x y : byte) : Z_of_byte x = Z_of_byte y -> x = y.
Proof.
  intros H. rewrite <- (byte_of_Z_of_byte x), <- (byte_of_Z_of_byte y).
  now rewrite H.
Qed.

Lemma byte_eqb_eq (x y : byte) : Byte.eqb x y = true <-> x = y.
Proof.
  split; [apply Byte.byte_dec_bl | apply Byte.byte_dec_lb].
Qed.

Lemma byte_eqb_neq (x y : byte) : Byte.eqb x y = false <-> x <> y.
Proof.
  split.
  - apply Byte.eqb_false.
  - intros H. destruct (Byte.eqb x y) eqn:E; [|reflexivity].
    apply byte_eqb_eq in E. contradiction.
Qed.

Lemma to_int_id (z : Z) : INT_MIN <= z <= INT_MAX -> to_int z = z.
Proof.
  unfold INT_MIN, INT_MAX, to_int. intros H.
  rewrite Z.mod_small; lia.
Qed.

Lemma to_int_mod (z : Z) : to_int (z mod 2 ^ 32) = to_int z.
Proof.
  unfold to_int.
  rewrite Zplus_mod_idemp_l. reflexivity.
Qed.

Lemma bytes_value_int_bytes (z : Z) : bytes_value (int_bytes z) = z mod 2 ^ 32.
Proof.
  unfold int_bytes. cbn [bytes_value].
  rewrite !Z_of_byte_of_Z, !Z.shiftr_div_pow2 by lia.
  change (2 ^ 8) with 256. change (2 ^ 16) with 65536.
  change (2 ^ 24) with 16777216. change (2 ^ 32) with 4294967296.
  pose proof (Z.div_mod z 256 ltac:(lia)) as H0.
  pose proof (Z.div_mod (z / 256) 256 ltac:(lia)) as H1.
  pose proof (Z.div_mod (z / 65536) 256 ltac:(lia)) as H2.
  pose proof (Z.div_mod (z / 16777216) 256 ltac:(lia)) as H3.
  pose proof (Z.div_mod z 4294967296 ltac:(lia)) as H4.
  rewrite Z.div_div in H1 by lia. change (256 * 256) with 65536 in H1.
  replace (z / 65536 / 256) with (z / 16777216) in H2
    by (rewrite Z.div_div by lia; reflexivity).
  replace (z / 16777216 / 256) with (z / 4294967296) in H3
    by (rewrite Z.div_div by lia; reflexivity).
  lia.
Qed.

Lemma length_store_int (e : endianness) (z : Z) :
  length (store_int e z) = 4%nat.
Proof. destruct e; reflexivity. Qed.

Lemma len_store_int (e : endianness) (z : Z) : len (store_int e z) = sizeof_int.
Proof. unfold len. rewrite length_store_int. reflexivity. Qed.

Lemma load_store_int (e : endianness) (z : Z) :
  INT_MIN <= z <= INT_MAX -> load_int e (store_int e z) = z.
Proof.
  intros H. destruct e; unfold load_int, store_int.
  - rewrite bytes_value_int_bytes, to_int_mod. now apply to_int_id.
  - rewrite rev_involutive, bytes_value_int_bytes, to_int_mod.
    now apply to_int_id.
Qed.

Lemma strcmp_eq (a b : list byte) : strcmp a b = 0 <-> a = b.
Proof.
  revert b. induction a as [|x a IH]; intros [|y b]; cbn; try (split; [lia|discriminate]).
  - split; reflexivity.
  - destruct (Byte.eqb x y) eqn:E.
    + apply byte_eqb_eq in E. subst y. rewrite IH. split; congruence.
    + apply byte_eqb_neq in E. split.
      * intros H. exfalso. apply E. apply Z_of_byte_inj. lia.
      * congruence.
Qed.

Lemma strcmp_refl (a : list byte) : (strcmp a a =? 0) = true.
Proof. apply Z.eqb_eq, strcmp_eq. reflexivity. Qed.

Lemma strcmp_neq (a b : list byte) : a <> b -> (strcmp a b =? 0) = false.
Proof. intros H. apply Z.eqb_neq. now rewrite strcmp_eq. Qed.

(** ** Memory *)

Lemma len_app {A : Type} (l1 l2 : list A) : len (l1 ++ l2) = len l1 + len l2.
Proof. unfold len. rewrite length_app. lia. Qed.

Lemma len_nonneg {A : Type} (l : list A) : 0 <= len l.
Proof. unfold len. lia. Qed.

Lemma len_cons {A : Type} (x : A) (l : list A) : len (x :: l) = 1 + len l.
Proof. unfold len. cbn [length]. lia. Qed.

Lemma to_nat_len {A : Type} (l : list A) : Z.to_nat (len l) = length l.
Proof. unfold len. lia. Qed.

Lemma mem_read_app (pre bytes post : list byte) :
  mem_read (pre ++ bytes ++ post) (len pre) (len bytes) = Done bytes.
Proof.
  unfold mem_read.
  pose proof (len_nonneg pre). pose proof (len_nonneg bytes).
  pose proof (len_nonneg post).
  destruct (Z.ltb_spec (len bytes) 0); [lia|].
  destruct (Z.ltb_spec (len pre) 0); [lia|].
  rewrite !len_app.
  destruct (Z.ltb_spec (len pre + (len bytes + len post)) (len pre + len bytes));
    [lia|].
  cbn [orb]. rewrite !to_nat_len.
  rewrite drop_app_length, take_app_length. reflexivity.
Qed.

Lemma mem_read_Done (src : list byte) (off n : Z) (bytes : list byte) :
  mem_read src off n = Done bytes ->
  0 <= n /\ 0 <= off /\ off + n <= len src /\ len bytes = n /\
  bytes = take (Z.to_nat n) (drop (Z.to_nat off) src).
Proof.
  unfold mem_read.
  destruct (Z.ltb_spec n 0); [discriminate|].
  destruct (Z.ltb_spec off 0); [discriminate|].
  destruct (Z.ltb_spec (len src) (off + n)); [discriminate|].
  cbn [orb]. intros [= <-]. repeat split; try lia.
  unfold len in *. rewrite length_take, length_drop. lia.
Qed.

Lemma mem_read_mono (src more : list byte) (off n : Z) (bytes : list byte) :
  mem_read src off n = Done bytes ->
  mem_read (src ++ more) off n = Done bytes.
Proof.
  intros H. destruct (mem_read_Done _ _ _ _ H) as (Hn & Hoff & Hle & _ & ->).
  unfold mem_read. rewrite len_app. pose proof (len_nonneg more).
  destruct (Z.ltb_spec n 0); [lia|].
  destruct (Z.ltb_spec off 0); [lia|].
  destruct (Z.ltb_spec (len src + len more) (off + n)); [lia|].
  cbn [orb]. f_equal.
  rewrite drop_app_le by (unfold len in *; lia).
  rewrite take_app_le; [reflexivity|].
  rewrite length_drop. unfold len in *. lia.
Qed.

Lemma mem_read_whole (src : list byte) (n : Z) :
  0 <= n <= len src -> mem_read src 0 n = Done (take (Z.to_nat n) src).
Proof.
  intros H. unfold mem_read.
  destruct (Z.ltb_spec n 0); [lia|].
  destruct (Z.ltb_spec (len src) (0 + n)); [lia|].
  reflexivity.
Qed.

Lemma mem_write_app (pre blk bytes : list byte) :
  len bytes <= len blk ->
  mem_write (pre ++ blk) (len pre) bytes
  = Done (pre ++ bytes ++ drop (length bytes) blk).
Proof.
  intros H. unfold mem_write. rewrite len_app.
  pose proof (len_nonneg pre).
  destruct (Z.ltb_spec (len pre) 0); [lia|].
  destruct (Z.ltb_spec (len pre + len blk) (len pre + len bytes)); [lia|].
  cbn [orb]. f_equal.
  rewrite to_nat_len, take_app_length. f_equal. f_equal.
  replace (Z.to_nat (len pre + len bytes)) with (length pre + length bytes)%nat
    by (unfold len; lia).
  rewrite drop_app_add'; reflexivity.
Qed.

Lemma mem_write_whole (dst bytes : list byte) :
  len bytes = len dst -> mem_write dst 0 bytes = Done bytes.
Proof.
  intros H. pose proof (mem_write_app [] dst bytes ltac:(lia)) as Hw.
  cbn [app] in Hw. change (len []) with 0 in Hw. rewrite Hw.
  rewrite drop_ge by (unfold len in *; lia).
  now rewrite app_nil_r.
Qed.

(** A block from [malloc(n)] filled by [memcpy] from [src] holds the first
    [n] bytes of [src] and nothing else. *)
Lemma malloc_memcpy (src : list byte) (n : Z) :
  0 <= n <= len src ->
  (let* block := malloc n in memcpy block 0 src 0 n)
  = Done (take (Z.to_nat n) src).
Proof.
  intros H. unfold malloc.
  destruct (Z.ltb_spec n 0); [lia|]. cbn [obind].
  unfold memcpy. rewrite mem_read_whole by assumption. cbn [obind].
  apply mem_write_whole.
  unfold len in *. rewrite length_take, length_replicate. lia.
Qed.

(** ** The registry *)

Lemma truthy_0 : truthy 0 = false.
Proof. reflexivity. Qed.

Lemma find_record_name (name : list byte) (l : list dgr_record) (r : dgr_record) :
  find_record name l = Some r -> rec_name r = name.
Proof.
  induction l as [|r0 l IH]; cbn; [discriminate|].
  destruct (Z.eqb_spec (strcmp name (rec_name r0)) 0) as [E|E].
  - intros [= <-]. symmetry. now apply strcmp_eq.
  - exact IH.
Qed.

Lemma find_record_In (name : list byte) (l : list dgr_record) (r : dgr_record) :
  find_record name l = Some r -> In r l.
Proof.
  induction l as [|r0 l IH]; cbn; [discriminate|].
  destruct (strcmp name (rec_name r0) =? 0).
  - intros [= <-]. now left.
  - intros H. right. now apply IH.
Qed.

Lemma find_record_None (name : list byte) (l : list dgr_record) :
  find_record name l = None <-> ~ In name (map rec_name l).
Proof.
  induction l as [|r0 l IH]; cbn.
  - tauto.
  - destruct (Z.eqb_spec (strcmp name (rec_name r0)) 0) as [E|E].
    + apply strcmp_eq in E. split; [discriminate|]. intros H. exfalso. auto.
    + rewrite strcmp_eq in E. rewrite IH. split; [|tauto].
      intros H [H1|H1]; [congruence|tauto].
Qed.

Lemma findIndex_from_None (name : list byte) (l : list dgr_record) (i : Z) :
  find_record name l = None ->
  findIndex_from l i name = -1
  /\ forall r', registry_set name r' l = l ++ [r'].
Proof.
  revert i. induction l as [|r0 l IH]; intros i; cbn.
  - auto.
  - destruct (strcmp name (rec_name r0) =? 0); [discriminate|].
    intros H. destruct (IH (i + 1) H) as [H1 H2]. split; [exact H1|].
    intros r'. now rewrite H2.
Qed.

Lemma findIndex_from_Some (name : list byte) (l : list dgr_record) (i : Z)
  (r : dgr_record) :
  find_record name l = Some r ->
  exists k : nat,
    findIndex_from l i name = i + Z.of_nat k
    /\ l !! k = Some r
    /\ forall r', <[k := r']> l = registry_set name r' l.
Proof.
  revert i. induction l as [|r0 l IH]; intros i; cbn; [discriminate|].
  destruct (strcmp name (rec_name r0) =? 0).
  - intros [= <-]. exists 0%nat. repeat split. lia.
  - intros H. destruct (IH (i + 1) H) as (k & H1 & H2 & H3).
    exists (S k). repeat split; [lia|exact H2|].
    intros r'. cbn. now rewrite H3.
Qed.

Lemma dgr_findIndex_None (name : list byte) (st : dgr_state) :
  find_record name (dgr_list st) = None -> dgr_findIndex name st = -1.
Proof. intros H. now apply findIndex_from_None. Qed.

Lemma dgr_findIndex_Some (name : list byte) (st : dgr_state) (r : dgr_record) :
  find_record name (dgr_list st) = Some r ->
  exists k : nat,
    dgr_findIndex name st = Z.of_nat k
    /\ dgr_list st !! k = Some r
    /\ forall r', <[k := r']> (dgr_list st) = registry_set name r' (dgr_list st).
Proof.
  intros H. destruct (findIndex_from_Some _ _ 0 _ H) as (k & H1 & H2 & H3).
  exists k. repeat split; [|exact H2|exact H3].
  unfold dgr_findIndex. rewrite H1. lia.
Qed.

(** [dgr_get] on an enabled session, in terms of the record found. *)
Lemma dgr_get_spec (name buffer : list byte) (bufferSize : Z) (st : dgr_state) :
  dgr_disabled st = 0 ->
  dgr_get name buffer bufferSize st
  = match find_record name (dgr_list st) with
    | None => Done ((-1, buffer), st)
    | Some r =>
        if bufferSize >=? rec_size r then
          let* buffer' := memcpy buffer 0 (rec_buffer r) 0 (rec_size r) in
          Done ((rec_size r, buffer'), st)
        else Done ((-2, buffer), st)
    end.
Proof.
  intros Hen. unfold dgr_get. rewrite Hen, truthy_0.
  destruct (find_record name (dgr_list st)) as [r|] eqn:E.
  - destruct (dgr_findIndex_Some _ _ _ E) as (k & -> & Hk & _).
    destruct (Z.eqb_spec (Z.of_nat k) (-1)); [lia|].
    rewrite Nat2Z.id, Hk. reflexivity.
  - rewrite (dgr_findIndex_None _ _ E). reflexivity.
Qed.

(** [dgr_set] of a name the registry does not have yet. *)
Lemma dgr_set_new (name buffer : list byte) (size : Z) (st : dgr_state) :
  dgr_disabled st = 0 ->
  find_record name (dgr_list st) = None ->
  dgr_list_size st < DGR_MAX_LIST_SIZE ->
  strlen name + 1 <= NAME_SIZE ->
  0 <= size <= len buffer ->
  dgr_set name buffer size st
  = Done (tt, set_list (dgr_list st
                        ++ [mk_record name size (take (Z.to_nat size) buffer)]) st).
Proof.
  intros Hen Hf Hsz Hname Hsize. unfold dgr_set. rewrite Hen, truthy_0.
  rewrite (dgr_findIndex_None _ _ Hf). cbn [Z.eqb Pos.eqb].
  destruct (Z.gtb_spec (dgr_list_size st) DGR_MAX_LIST_SIZE); [lia|].
  destruct (Z.geb_spec (dgr_list_size st) DGR_MAX_LIST_SIZE); [lia|].
  destruct (Z.gtb_spec (strlen name + 1) NAME_SIZE); [lia|].
  pose proof (malloc_memcpy buffer size Hsize) as Hm.
  destruct (malloc size) as [block| | |]; cbn [obind] in Hm |- *;
    try discriminate.
  rewrite Hm. reflexivity.
Qed.

(** [dgr_set] of a name the registry has: the record is replaced.  When the
    size stays, the old block is written over and has to have that size. *)
Lemma dgr_set_known (name buffer : list byte) (size : Z) (st : dgr_state)
  (r : dgr_record) :
  dgr_disabled st = 0 ->
  find_record name (dgr_list st) = Some r ->
  (rec_size r = size -> len (rec_buffer r) = size) ->
  0 <= size <= len buffer ->
  dgr_set name buffer size st
  = Done (tt, set_list
                (registry_set name
                   (mk_record name size (take (Z.to_nat size) buffer))
                   (dgr_list st)) st).
Proof.
  intros Hen Hf Hold Hsize. unfold dgr_set. rewrite Hen, truthy_0.
  destruct (dgr_findIndex_Some _ _ _ Hf) as (k & -> & Hk & Hins).
  destruct (Z.eqb_spec (Z.of_nat k) (-1)); [lia|].
  rewrite Nat2Z.id, Hk. rewrite (find_record_name _ _ _ Hf).
  destruct (Z.eqb_spec (rec_size r) size) as [E|E]; cbn [negb].
  - cbn [obind]. unfold memcpy.
    rewrite mem_read_whole by assumption. cbn [obind].
    rewrite mem_write_whole.
    + cbn [obind]. rewrite (find_record_name _ _ _ Hf), E, Hins. reflexivity.
    + rewrite (Hold E). unfold len in *. rewrite length_take. lia.
  - pose proof (malloc_memcpy buffer size Hsize) as Hm.
    destruct (malloc size) as [block| | |]; cbn [obind] in Hm |- *;
      try discriminate.
    cbn [rec_buffer rec_name rec_size]. rewrite Hm. cbn [obind].
    rewrite Hins. reflexivity.
Qed.

Lemma find_record_set_same (name : list byte) (r' : dgr_record)
  (l : list dgr_record) :
  rec_name r' = name ->
  find_record name (registry_set name r' l) = Some r'.
Proof.
  intros Hn. induction l as [|r l IH]; cbn.
  - now rewrite Hn, strcmp_refl.
  - destruct (strcmp name (rec_name r) =? 0) eqn:E; cbn.
    + now rewrite Hn, strcmp_refl.
    + now rewrite E.
Qed.

Lemma find_record_set_other (name name' : list byte) (r' : dgr_record)
  (l : list dgr_record) :
  rec_name r' = name -> name' <> name ->
  find_record name' (registry_set name r' l) = find_record name' l.
Proof.
  intros Hn Hne. induction l as [|r l IH]; cbn.
  - now rewrite Hn, strcmp_neq.
  - destruct (Z.eqb_spec (strcmp name (rec_name r)) 0) as [E|E]; cbn.
    + apply strcmp_eq in E. rewrite Hn, <- E, strcmp_neq by assumption.
      reflexivity.
    + now rewrite IH.
Qed.

Lemma lookup_set_other (name : list byte) (r' r : dgr_record)
  (l : list dgr_record) (i : nat) :
  l !! i = Some r -> rec_name r <> name ->
  registry_set name r' l !! i = Some r.
Proof.
  revert i. induction l as [|r0 l IH]; intros i; [discriminate|].
  cbn [registry_set].
  destruct (Z.eqb_spec (strcmp name (rec_name r0)) 0) as [E|E].
  - apply strcmp_eq in E. destruct i as [|i]; cbn.
    + intros [= ->]. congruence.
    + auto.
  - destruct i as [|i]; cbn; [auto|]. apply IH.
Qed.

Lemma length_registry_set (name : list byte) (r' : dgr_record)
  (l : list dgr_record) :
  length (registry_set name r' l)
  = match find_record name l with
    | Some _ => length l
    | None => S (length l)
    end.
Proof.
  induction l as [|r l IH]; cbn; [reflexivity|].
  destruct (strcmp name (rec_name r) =? 0); cbn; [reflexivity|].
  rewrite IH. now destruct (find_record name l).
Qed.

Lemma c_string_spec (s : list byte) : c_string s = true <-> ~ In x00 s.
Proof.
  unfold c_string. induction s as [|b s IH]; cbn; [tauto|].
  rewrite andb_true_iff, IH, negb_true_iff, byte_eqb_neq.
  split; [intros [H1 H2] [H|H]; congruence || tauto|].
  intros H. split; [intros ->|]; tauto.
Qed.

Lemma wf_record_spec (r : dgr_record) :
  wf_record r = true <->
  ~ In x00 (rec_name r)
  /\ strlen (rec_name r) + 1 <= NAME_SIZE
  /\ rec_size r = len (rec_buffer r).
Proof.
  unfold wf_record.
  rewrite !andb_true_iff, c_string_spec, Z.leb_le, Z.eqb_eq. tauto.
Qed.

Lemma names_distinct_spec (l : list dgr_record) :
  names_distinct l = true <-> List.NoDup (map rec_name l).
Proof.
  induction l as [|r l IH]; cbn.
  - split; [constructor|reflexivity].
  - destruct (find_record (rec_name r) l) as [r0|] eqn:E.
    + split; [discriminate|]. intros H. inversion H as [|? ? Hn _]; subst.
      exfalso. apply Hn. rewrite <- (find_record_name _ _ _ E).
      apply in_map. eapply find_record_In, E.
    + rewrite IH. apply find_record_None in E.
      split; [now constructor|]. intros H. now inversion H.
Qed.

Lemma wf_registry_spec (l : list dgr_record) :
  wf_registry l = true <->
  (forall r, In r l -> wf_record r = true)
  /\ List.NoDup (map rec_name l)
  /\ len l <= DGR_MAX_LIST_SIZE.
Proof.
  unfold wf_registry.
  rewrite !andb_true_iff, List.forallb_forall, names_distinct_spec, Z.leb_le.
  tauto.
Qed.

Lemma names_distinct_set (name : list byte) (r' : dgr_record)
  (l : list dgr_record) :
  rec_name r' = name ->
  names_distinct l = true -> names_distinct (registry_set name r' l) = true.
Proof.
  intros Hn. induction l as [|r l IH]; cbn; [auto|].
  destruct (find_record (rec_name r) l) eqn:Ef; [discriminate|]. intros Hd.
  destruct (Z.eqb_spec (strcmp name (rec_name r)) 0) as [E|E]; cbn.
  - apply strcmp_eq in E. now rewrite Hn, E, Ef.
  - rewrite strcmp_eq in E.
    rewrite find_record_set_other, Ef by congruence. auto.
Qed.

Lemma In_registry_set (name : list byte) (r' r : dgr_record)
  (l : list dgr_record) :
  In r (registry_set name r' l) -> r = r' \/ In r l.
Proof.
  induction l as [|r0 l IH]; cbn.
  - intros [H|[]]. now left.
  - destruct (strcmp name (rec_name r0) =? 0); cbn; intuition.
Qed.

(** [set] keeps the registry as the data model has it. *)
Lemma wf_registry_set (name : list byte) (r' : dgr_record)
  (l : list dgr_record) :
  rec_name r' = name -> wf_record r' = true ->
  wf_registry l = true ->
  (find_record name l = None -> len l < DGR_MAX_LIST_SIZE) ->
  wf_registry (registry_set name r' l) = true.
Proof.
  intros Hn Hr Hl Hcap. apply wf_registry_spec in Hl as (Hall & Hnd & Hlen).
  apply wf_registry_spec. split; [|split].
  - intros r Hin. apply In_registry_set in Hin as [->|Hin]; auto.
  - apply names_distinct_spec, names_distinct_set; [exact Hn|].
    now apply names_distinct_spec.
  - unfold len in *. rewrite length_registry_set.
    destruct (find_record name l); [lia|]. specialize (Hcap eq_refl). lia.
Qed.

(** ** Merging the triples of a packet *)

Lemma find_record_merge (name : list byte) (kvs l : list dgr_record) :
  find_record name (registry_merge kvs l)
  = match last_binding name kvs with
    | Some r => Some r
    | None => find_record name l
    end.
Proof.
  unfold registry_merge. revert l.
  induction kvs as [|r kvs IH]; intros l; cbn; [reflexivity|].
  rewrite IH. destruct (last_binding name kvs); [reflexivity|].
  destruct (Z.eqb_spec (strcmp name (rec_name r)) 0) as [E|E].
  - apply strcmp_eq in E. subst name. now apply find_record_set_same.
  - rewrite strcmp_eq in E. now apply find_record_set_other.
Qed.

Lemma lookup_merge_other (kvs l : list dgr_record) (i : nat) (r : dgr_record) :
  l !! i = Some r -> ~ In (rec_name r) (map rec_name kvs) ->
  registry_merge kvs l !! i = Some r.
Proof.
  unfold registry_merge. revert l.
  induction kvs as [|r0 kvs IH]; intros l; cbn; [auto|].
  intros Hl Hn. apply IH; [|tauto].
  apply lookup_set_other; [exact Hl|]. intros E. apply Hn. now left.
Qed.

Lemma length_registry_merge (kvs l : list dgr_record) :
  (length (registry_merge kvs l) <= length l + length kvs)%nat.
Proof.
  unfold registry_merge. revert l.
  induction kvs as [|r kvs IH]; intros l; cbn; [lia|].
  specialize (IH (registry_set (rec_name r) r l)).
  rewrite length_registry_set in IH.
  destruct (find_record (rec_name r) l); lia.
Qed.

(** Records with names of their own, set in turn, are added in that order. *)
Lemma registry_merge_fresh (kvs l : list dgr_record) :
  List.NoDup (map rec_name (l ++ kvs)) -> registry_merge kvs l = l ++ kvs.
Proof.
  unfold registry_merge. revert l.
  induction kvs as [|r kvs IH]; intros l Hnd; cbn.
  - now rewrite app_nil_r.
  - assert (Hf : find_record (rec_name r) l = None).
    { apply find_record_None. intros Hin.
      rewrite map_app in Hnd. cbn in Hnd.
      apply List.NoDup_remove_2 in Hnd. apply Hnd.
      apply in_or_app. now left. }
    destruct (findIndex_from_None _ _ 0 Hf) as [_ ->].
    rewrite IH; rewrite <- app_assoc; [reflexivity|exact Hnd].
Qed.

(** [dgr_set] called on each well-formed triple in turn gives the merged
    registry, as long as the array has room. *)
Lemma apply_records_merge (kvs : list dgr_record) (st : dgr_state) :
  dgr_disabled st = 0 ->
  wf_registry (dgr_list st) = true ->
  forallb wf_record kvs = true ->
  len (dgr_list st) + len kvs <= DGR_MAX_LIST_SIZE ->
  apply_records kvs st
  = Done (tt, set_list (registry_merge kvs (dgr_list st)) st)
  /\ wf_registry (registry_merge kvs (dgr_list st)) = true.
Proof.
  revert st. induction kvs as [|r kvs IH]; intros st Hen Hwf Hkvs Hcap.
  - cbn. split; [|exact Hwf]. now destruct st.
  - cbn [forallb] in Hkvs. apply andb_true_iff in Hkvs as [Hr Hkvs].
    pose proof Hr as Hr'. apply wf_record_spec in Hr' as (Hc & Hnl & Hsz).
    rewrite len_cons in Hcap. pose proof (len_nonneg kvs) as Hk.
    assert (Hset : dgr_set (rec_name r) (rec_buffer r) (rec_size r) st
                   = Done (tt, set_list (registry_set (rec_name r) r (dgr_list st)) st)).
    { assert (Htake : mk_record (rec_name r) (rec_size r)
                        (take (Z.to_nat (rec_size r)) (rec_buffer r)) = r).
      { rewrite Hsz, to_nat_len, firstn_all. rewrite <- Hsz. now destruct r. }
      pose proof (len_nonneg (rec_buffer r)).
      destruct (find_record (rec_name r) (dgr_list st)) as [r0|] eqn:Ef.
      - rewrite (dgr_set_known _ _ _ _ r0), Htake; try easy; try lia.
        intros E. apply wf_registry_spec in Hwf as (Hall & _).
        specialize (Hall r0 (find_record_In _ _ _ Ef)).
        apply wf_record_spec in Hall. lia.
      - rewrite dgr_set_new, Htake; try easy; try (unfold dgr_list_size; lia).
        now destruct (findIndex_from_None _ _ 0 Ef) as [_ ->]. }
    cbn [apply_records]. rewrite Hset. cbn [obind].
    assert (Hwf' : wf_registry (registry_set (rec_name r) r (dgr_list st)) = true).
    { apply wf_registry_set; try easy. intros _. lia. }
    assert (Hcap' : len (registry_set (rec_name r) r (dgr_list st)) + len kvs
                    <= DGR_MAX_LIST_SIZE).
    { unfold len in *. rewrite length_registry_set.
      destruct (find_record (rec_name r) (dgr_list st)); lia. }
    destruct (IH (set_list (registry_set (rec_name r) r (dgr_list st)) st)
                Hen Hwf' Hkvs Hcap') as [IH1 IH2].
    rewrite IH1. cbn. split; [reflexivity|exact IH2].
Qed.

(** ** The registry stays well-formed *)

Lemma dgr_set_Done_size (name buffer : list byte) (size : Z)
  (st st' : dgr_state) :
  dgr_disabled st = 0 ->
  dgr_set name buffer size st = Done (tt, st') ->
  0 <= size <= len buffer.
Proof.
  intros Hen. unfold dgr_set, memcpy. rewrite Hen, truthy_0.
  destruct (mem_read buffer 0 size) as [bytes| | |] eqn:Er.
  - intros _. apply mem_read_Done in Er. lia.
  - repeat (match goal with
            | |- context [if ?b then _ else _] => destruct b
            | |- context [match ?o with Some _ => _ | None => _ end] =>
                destruct o
            | |- context [malloc ?n] => destruct (malloc n)
            end; cbn [obind negb]); discriminate.
  - repeat (match goal with
            | |- context [if ?b then _ else _] => destruct b
            | |- context [match ?o with Some _ => _ | None => _ end] =>
                destruct o
            | |- context [malloc ?n] => destruct (malloc n)
            end; cbn [obind negb]); discriminate.
  - repeat (match goal with
            | |- context [if ?b then _ else _] => destruct b
            | |- context [match ?o with Some _ => _ | None => _ end] =>
                destruct o
            | |- context [malloc ?n] => destruct (malloc n)
            end; cbn [obind negb]); discriminate.
Qed.

(** Whenever [dgr_set] returns, a well-formed registry is well-formed
    after it; the other variables are not written. *)
Lemma dgr_set_keeps_wf (name buffer : list byte) (size : Z)
  (st st' : dgr_state) :
  dgr_set name buffer size st = Done (tt, st') ->
  c_string name = true ->
  wf_registry (dgr_list st) = true ->
  wf_registry (dgr_list st') = true /\ st' = set_list (dgr_list st') st.
Proof.
  intros Hd Hc Hwf.
  destruct (Z.eq_dec (dgr_disabled st) 0) as [Hen|Hdis].
  - pose proof (dgr_set_Done_size _ _ _ _ _ Hen Hd) as Hsize.
    assert (Hr' : strlen name + 1 <= NAME_SIZE ->
                  wf_record (mk_record name size (take (Z.to_nat size) buffer))
                  = true).
    { intros Hn. apply wf_record_spec. cbn [rec_name rec_size rec_buffer].
      split; [now apply c_string_spec|]. split; [exact Hn|].
      unfold len in *. rewrite length_take. lia. }
    destruct (find_record name (dgr_list st)) as [r|] eqn:Ef.
    + pose proof Hwf as Hwf'. apply wf_registry_spec in Hwf' as (Hall & _).
      specialize (Hall r (find_record_In _ _ _ Ef)).
      apply wf_record_spec in Hall as (_ & Hn & Hsz).
      rewrite (find_record_name _ _ _ Ef) in Hn.
      rewrite (dgr_set_known _ _ _ _ r) in Hd; try assumption; [|lia].
      injection Hd as <-. cbn [dgr_list set_list]. split; [|reflexivity].
      apply wf_registry_set; auto. intros E. congruence.
    + assert (Hg : dgr_list_size st < DGR_MAX_LIST_SIZE
                   /\ strlen name + 1 <= NAME_SIZE).
      { unfold dgr_set in Hd. rewrite Hen, truthy_0 in Hd.
        rewrite (dgr_findIndex_None _ _ Ef) in Hd. cbn [Z.eqb Pos.eqb] in Hd.
        destruct (Z.gtb_spec (dgr_list_size st) DGR_MAX_LIST_SIZE);
          [discriminate|].
        destruct (Z.geb_spec (dgr_list_size st) DGR_MAX_LIST_SIZE);
          [discriminate|].
        destruct (Z.gtb_spec (strlen name + 1) NAME_SIZE); [discriminate|].
        lia. }
      destruct Hg as [Hcap Hn].
      rewrite dgr_set_new in Hd by assumption.
      injection Hd as <-. cbn [dgr_list set_list]. split; [|reflexivity].
      destruct (findIndex_from_None _ _ 0 Ef) as [_ Hset].
      rewrite <- Hset. apply wf_registry_set; auto.
  - unfold dgr_set in Hd.
    assert (Ht : truthy (dgr_disabled st) = true)
      by (unfold truthy; now destruct (Z.eqb_spec (dgr_disabled st) 0)).
    rewrite Ht in Hd. injection Hd as <-. split; [exact Hwf|now destruct st].
Qed.

Lemma apply_records_keeps_wf (kvs : list dgr_record) (st st' : dgr_state) :
  apply_records kvs st = Done (tt, st') ->
  forallb wf_record kvs = true ->
  wf_registry (dgr_list st) = true ->
  wf_registry (dgr_list st') = true.
Proof.
  revert st. induction kvs as [|r kvs IH]; intros st; cbn [apply_records].
  - now intros [= <-].
  - destruct (dgr_set _ _ _ st) as [[[] st1]| | |] eqn:Es; cbn [obind];
      try discriminate.
    intros Ha Hk Hwf. cbn [forallb] in Hk. apply andb_true_iff in Hk as [Hr Hk].
    apply (IH st1 Ha Hk).
    apply (dgr_set_keeps_wf _ _ _ _ _ Es); [|exact Hwf].
    apply wf_record_spec in Hr as (Hc & _). now apply c_string_spec.
Qed.

(** ** The wire format *)

Section Codec.

Variable byte_order : endianness.

Lemma len_wire_record (r : dgr_record) :
  len (wire_record byte_order r)
  = strlen (rec_name r) + 1 + sizeof_int + len (rec_buffer r).
Proof.
  unfold wire_record, strlen. rewrite !len_app, len_store_int.
  change (len [x00]) with 1. lia.
Qed.

Lemma wire_packet_cons (r : dgr_record) (l : list dgr_record) :
  wire_packet byte_order (r :: l)
  = wire_record byte_order r ++ wire_packet byte_order l.
Proof. reflexivity. Qed.

Lemma space_needed_from_wire (l : list dgr_record) (spaceNeeded : Z) :
  forallb wf_record l = true ->
  0 <= spaceNeeded ->
  spaceNeeded + len (wire_packet byte_order l) <= INT_MAX ->
  space_needed_from l spaceNeeded
  = spaceNeeded + len (wire_packet byte_order l).
Proof.
  revert spaceNeeded. induction l as [|r l IH]; intros acc Hwf Hacc Hmax.
  - cbn. change (len []) with 0. lia.
  - cbn [forallb] in Hwf. apply andb_true_iff in Hwf as [Hr Hl].
    apply wf_record_spec in Hr as (_ & _ & Hsz).
    rewrite wire_packet_cons, len_app, len_wire_record in Hmax |- *.
    pose proof (len_nonneg (rec_name r)). pose proof (len_nonneg (rec_buffer r)).
    pose proof (len_nonneg (wire_packet byte_order l)).
    unfold strlen, sizeof_int in *. cbn [space_needed_from].
    unfold strlen, sizeof_int.
    rewrite to_int_id by (unfold INT_MIN, INT_MAX in *; lia).
    rewrite IH by (try assumption; lia). lia.
Qed.

Lemma serialize_from_wire (l : list dgr_record) (pre block : list byte) :
  forallb wf_record l = true ->
  len block = len (wire_packet byte_order l) ->
  serialize_from byte_order l (pre ++ block) (len pre)
  = Done (pre ++ wire_packet byte_order l).
Proof.
  revert pre block. induction l as [|r l IH]; intros pre block Hwf Hlen.
  - cbn in Hlen |- *. change (len []) with 0 in Hlen.
    destruct block; [reflexivity|]. rewrite len_cons in Hlen.
    pose proof (len_nonneg block). lia.
  - cbn [forallb] in Hwf. apply andb_true_iff in Hwf as [Hr Hl].
    apply wf_record_spec in Hr as (_ & _ & Hsz).
    rewrite wire_packet_cons, len_app, len_wire_record in Hlen.
    pose proof (len_nonneg (rec_name r)). pose proof (len_nonneg (rec_buffer r)).
    pose proof (len_nonneg (wire_packet byte_order l)).
    unfold strlen, sizeof_int in *. cbn [serialize_from].
    (* the name and its terminator *)
    rewrite mem_write_app
      by (rewrite len_app; change (len [x00]) with 1; lia).
    cbn [obind]. set (b1 := drop _ block).
    assert (Hb1 : len b1 = 4 + len (rec_buffer r)
                           + len (wire_packet byte_order l)).
    { subst b1. unfold len in *. rewrite length_drop, length_app in *.
      cbn [length] in *. lia. }
    replace (len pre + (strlen (rec_name r) + 1))
      with (len (pre ++ rec_name r ++ [x00]))
      by (rewrite !len_app; change (len [x00]) with 1; unfold strlen; lia).
    rewrite (app_assoc pre (rec_name r ++ [x00]) b1).
    (* the size field *)
    rewrite mem_write_app by (rewrite len_store_int; unfold sizeof_int; lia).
    cbn [obind]. set (b2 := drop _ b1).
    assert (Hb2 : len b2 = len (rec_buffer r) + len (wire_packet byte_order l)).
    { subst b2. unfold len in *. rewrite length_drop, length_store_int. lia. }
    replace (len (pre ++ rec_name r ++ [x00]) + sizeof_int)
      with (len ((pre ++ rec_name r ++ [x00])
                 ++ store_int byte_order (rec_size r)))
      by (rewrite (len_app _ (store_int _ _)), len_store_int; reflexivity).
    rewrite (app_assoc _ (store_int byte_order (rec_size r)) b2).
    (* the data *)
    unfold memcpy. rewrite mem_read_whole by lia. cbn [obind].
    rewrite Hsz, to_nat_len, firstn_all.
    rewrite mem_write_app by lia. cbn [obind]. set (b3 := drop _ b2).
    assert (Hb3 : len b3 = len (wire_packet byte_order l)).
    { subst b3. unfold len in *. rewrite length_drop. lia. }
    rewrite <- (len_app _ (rec_buffer r)).
    rewrite (app_assoc _ (rec_buffer r) b3).
    rewrite IH by assumption.
    f_equal. rewrite wire_packet_cons. unfold wire_record.
    rewrite Hsz. now rewrite <- !app_assoc.
Qed.

(** [dgr_serialize] gives the wire format of the specification, for a
    registry of well-formed records whose packet has a length that an
    [int] can hold. *)
Lemma dgr_serialize_wire (st : dgr_state) :
  forallb wf_record (dgr_list st) = true ->
  len (wire_packet byte_order (dgr_list st)) <= INT_MAX ->
  dgr_serialize byte_order st
  = Done ((len (wire_packet byte_order (dgr_list st)),
           wire_packet byte_order (dgr_list st)), st).
Proof.
  intros Hwf Hmax. unfold dgr_serialize.
  pose proof (len_nonneg (wire_packet byte_order (dgr_list st))) as Hn.
  rewrite space_needed_from_wire by (try assumption; lia).
  rewrite Z.add_0_l. unfold malloc.
  destruct (Z.ltb_spec (len (wire_packet byte_order (dgr_list st))) 0); [lia|].
  cbn [obind].
  pose proof (serialize_from_wire (dgr_list st) []
                (replicate (Z.to_nat (len (wire_packet byte_order (dgr_list st)))) x00)
                Hwf) as Hs.
  cbn [app] in Hs. change (len []) with 0 in Hs. rewrite Hs; [reflexivity|].
  unfold len. rewrite length_replicate. lia.
Qed.

Lemma to_int_range (z : Z) : INT_MIN <= to_int z <= INT_MAX.
Proof.
  unfold to_int, INT_MIN, INT_MAX.
  pose proof (Z.mod_pos_bound (z + 2 ^ 31) (2 ^ 32) ltac:(lia)). lia.
Qed.

Lemma space_needed_from_range (l : list dgr_record) (spaceNeeded : Z) :
  INT_MIN <= spaceNeeded <= INT_MAX ->
  INT_MIN <= space_needed_from l spaceNeeded <= INT_MAX.
Proof.
  revert spaceNeeded. induction l as [|r l IH]; intros acc Hacc; cbn.
  - exact Hacc.
  - apply IH, to_int_range.
Qed.

Lemma mem_write_Done (dst bytes dst' : list byte) (off : Z) :
  mem_write dst off bytes = Done dst' ->
  0 <= off /\ off + len bytes <= len dst /\ len dst' = len dst.
Proof.
  unfold mem_write.
  destruct (Z.ltb_spec off 0); [discriminate|].
  destruct (Z.ltb_spec (len dst) (off + len bytes)); [discriminate|].
  cbn [orb]. intros [= <-]. pose proof (len_nonneg bytes).
  repeat split; try lia.
  rewrite !len_app. unfold len in *.
  rewrite length_take, length_drop. lia.
Qed.

(** When the second loop of [dgr_serialize] returns, the block was large
    enough for the packet. *)
Lemma serialize_from_Done (l : list dgr_record) (serialized out : list byte)
  (ptr : Z) :
  forallb wf_record l = true ->
  ptr <= len serialized ->
  serialize_from byte_order l serialized ptr = Done out ->
  ptr + len (wire_packet byte_order l) <= len serialized.
Proof.
  revert serialized ptr. induction l as [|r l IH]; intros serialized ptr Hwf Hptr.
  - cbn. change (len []) with 0. lia.
  - cbn [forallb] in Hwf. apply andb_true_iff in Hwf as [Hr Hl].
    apply wf_record_spec in Hr as (_ & _ & Hsz).
    rewrite wire_packet_cons, len_app, len_wire_record.
    unfold strlen, sizeof_int. cbn [serialize_from].
    destruct (mem_write serialized ptr (rec_name r ++ [x00]))
      as [s1| | |] eqn:E1; cbn [obind]; try discriminate.
    apply mem_write_Done in E1 as (_ & H1 & L1).
    rewrite len_app in H1. change (len [x00]) with 1 in H1.
    destruct (mem_write s1 _ (store_int byte_order (rec_size r)))
      as [s2| | |] eqn:E2; cbn [obind]; try discriminate.
    apply mem_write_Done in E2 as (_ & H2 & L2). rewrite len_store_int in H2.
    unfold memcpy.
    destruct (mem_read (rec_buffer r) 0 (rec_size r)) as [bytes| | |] eqn:E3;
      cbn [obind]; try discriminate.
    apply mem_read_Done in E3 as (_ & _ & _ & L3 & _).
    destruct (mem_write s2 _ bytes) as [s3| | |] eqn:E4; cbn [obind];
      try discriminate.
    apply mem_write_Done in E4 as (_ & H4 & L4).
    intros Hd. apply IH in Hd; [|exact Hl|].
    + unfold strlen, sizeof_int in *. lia.
    + unfold strlen, sizeof_int in *. lia.
Qed.

(** [dgr_serialize] returns only when the length of the packet is in the
    range of [int]. *)
Lemma dgr_serialize_Done (st st' : dgr_state) (size : Z)
  (serialized : list byte) :
  forallb wf_record (dgr_list st) = true ->
  dgr_serialize byte_order st = Done ((size, serialized), st') ->
  len (wire_packet byte_order (dgr_list st)) <= INT_MAX.
Proof.
  intros Hwf. unfold dgr_serialize, malloc.
  pose proof (space_needed_from_range (dgr_list st) 0
                ltac:(unfold INT_MIN, INT_MAX; lia)) as Hr.
  destruct (Z.ltb_spec (space_needed_from (dgr_list st) 0) 0);
    [discriminate|]. cbn [obind].
  destruct (serialize_from _ _ _ 0) as [out| | |] eqn:Es; cbn [obind];
    try discriminate.
  intros _. apply serialize_from_Done in Es; [|exact Hwf|].
  - unfold len in Es at 2. rewrite length_replicate in Es. lia.
  - unfold len. lia.
Qed.

Lemma read_name_wire (name rest acc : list byte) (c : Z) :
  c_string name = true ->
  c + len name < NAME_SIZE ->
  read_name (name ++ x00 :: rest) c acc = Done (acc ++ name).
Proof.
  revert c acc. induction name as [|ch name IH]; intros c acc Hc Hlen; cbn.
  - change (len []) with 0 in Hlen.
    destruct (Z.ltb_spec c NAME_SIZE); [|lia]. now rewrite app_nil_r.
  - unfold c_string in Hc. cbn in Hc. apply andb_true_iff in Hc as [Hch Hc].
    apply negb_true_iff in Hch. rewrite Hch.
    rewrite len_cons in Hlen. pose proof (len_nonneg name).
    destruct (Z.ltb_spec c NAME_SIZE); [|lia].
    rewrite IH by (try assumption; lia).
    now rewrite <- app_assoc.
Qed.

(** What [read_name] returns is a C string that fits [char name[1024]]. *)
Lemma read_name_Done (rest acc name : list byte) (c : Z) :
  read_name rest c acc = Done name ->
  exists chars rest',
    name = acc ++ chars /\ rest = chars ++ x00 :: rest'
    /\ c_string chars = true /\ c + len chars < NAME_SIZE.
Proof.
  revert c acc. induction rest as [|ch rest IH]; intros c acc; cbn;
    [discriminate|].
  destruct (Byte.eqb ch x00) eqn:E.
  - apply byte_eqb_eq in E. subst ch.
    destruct (Z.ltb_spec c NAME_SIZE); [|discriminate]. intros [= <-].
    exists [], rest. rewrite app_nil_r. change (len []) with 0.
    repeat split. lia.
  - destruct (Z.ltb_spec c NAME_SIZE); [|discriminate]. intros Hrd.
    destruct (IH _ _ Hrd) as (chars & rest' & -> & -> & Hc & Hlen).
    exists (ch :: chars), rest'. rewrite <- app_assoc, len_cons.
    repeat split; [|lia]. unfold c_string in *. cbn. now rewrite E, Hc.
Qed.

Lemma read_name_mono (rest more acc name : list byte) (c : Z) :
  read_name rest c acc = Done name ->
  read_name (rest ++ more) c acc = Done name.
Proof.
  intros H. destruct (read_name_Done _ _ _ _ H) as (chars & rest' & -> & -> & Hc & Hlen).
  rewrite <- app_assoc. cbn [app]. now apply read_name_wire.
Qed.

(** A record read is a well-formed triple, and the pointer has moved over
    what was read. *)
Lemma read_record_Done (serialized : list byte) (ptr : Z)
  (name data : list byte) (size ptr' : Z) :
  0 <= ptr ->
  read_record byte_order serialized ptr = Done (name, size, data, ptr') ->
  wf_record (mk_record name size data) = true
  /\ ptr' = ptr + strlen name + 1 + sizeof_int + size
  /\ 0 <= size /\ ptr' <= len serialized.
Proof.
  intros Hptr. unfold read_record.
  destruct (read_name (drop (Z.to_nat ptr) serialized) 0 []) as [nm| | |] eqn:En;
    cbn [obind]; try discriminate.
  destruct (mem_read serialized (ptr + strlen nm + 1) sizeof_int)
    as [bytes| | |] eqn:Eb; cbn [obind]; try discriminate.
  destruct (Z.ltb_spec (load_int byte_order bytes) 0); [discriminate|].
  destruct (mem_read serialized (ptr + strlen nm + 1 + sizeof_int)
              (load_int byte_order bytes)) as [dt| | |] eqn:Ed;
    cbn [obind]; try discriminate.
  intros [= <- <- <- <-].
  destruct (read_name_Done _ _ _ _ En) as (chars & rest' & Hnm & _ & Hc & Hlen).
  cbn [app] in Hnm. subst nm.
  destruct (mem_read_Done _ _ _ _ Ed) as (_ & _ & Hle & Hdl & _).
  repeat split; try lia.
  apply wf_record_spec. cbn [rec_name rec_size rec_buffer].
  split; [now apply c_string_spec|]. unfold strlen. lia.
Qed.

Lemma read_record_mono (serialized more : list byte) (ptr : Z)
  (x : list byte * Z * list byte * Z) :
  0 <= ptr ->
  read_record byte_order serialized ptr = Done x ->
  read_record byte_order (serialized ++ more) ptr = Done x.
Proof.
  intros Hptr. unfold read_record.
  destruct (read_name (drop (Z.to_nat ptr) serialized) 0 []) as [nm| | |] eqn:En;
    cbn [obind]; try discriminate.
  assert (Hle : (Z.to_nat ptr <= length serialized)%nat).
  { destruct (Nat.le_gt_cases (Z.to_nat ptr) (length serialized)) as [|Hgt];
      [assumption|].
    rewrite drop_ge in En by lia. discriminate. }
  rewrite drop_app_le by assumption.
  rewrite (read_name_mono _ more _ _ _ En). cbn [obind].
  destruct (mem_read serialized (ptr + strlen nm + 1) sizeof_int)
    as [bytes| | |] eqn:Eb; cbn [obind]; try discriminate.
  rewrite (mem_read_mono _ more _ _ _ Eb). cbn [obind].
  destruct (Z.ltb_spec (load_int byte_order bytes) 0); [discriminate|].
  destruct (mem_read serialized (ptr + strlen nm + 1 + sizeof_int)
              (load_int byte_order bytes)) as [dt| | |] eqn:Ed;
    cbn [obind]; try discriminate.
  rewrite (mem_read_mono _ more _ _ _ Ed). cbn [obind]. auto.
Qed.

Lemma read_record_wire (pre post : list byte) (r : dgr_record) :
  wf_record r = true ->
  rec_size r <= INT_MAX ->
  read_record byte_order (pre ++ wire_record byte_order r ++ post) (len pre)
  = Done (rec_name r, rec_size r, rec_buffer r,
          len pre + len (wire_record byte_order r)).
Proof.
  intros Hwf Hmax. apply wf_record_spec in Hwf as (Hc & Hnl & Hsz).
  apply c_string_spec in Hc.
  pose proof (len_nonneg (rec_buffer r)) as Hb.
  unfold read_record. rewrite to_nat_len, drop_app_length.
  unfold wire_record at 1. rewrite <- !app_assoc. cbn [app].
  rewrite read_name_wire by (try assumption; unfold strlen in *; lia).
  cbn [app obind].
  (* the size field *)
  replace (len pre + strlen (rec_name r) + 1)
    with (len (pre ++ rec_name r ++ [x00]))
    by (rewrite !len_app; change (len [x00]) with 1; unfold strlen; lia).
  replace (pre ++ wire_record byte_order r ++ post)
    with ((pre ++ rec_name r ++ [x00])
          ++ store_int byte_order (rec_size r) ++ (rec_buffer r ++ post))
    by (unfold wire_record; now rewrite <- !app_assoc).
  set (pre1 := pre ++ rec_name r ++ [x00]).
  assert (E1 : mem_read
                 (pre1 ++ store_int byte_order (rec_size r)
                       ++ rec_buffer r ++ post) (len pre1) sizeof_int
               = Done (store_int byte_order (rec_size r))).
  { rewrite <- (len_store_int byte_order (rec_size r)). apply mem_read_app. }
  rewrite E1. cbn [obind].
  rewrite load_store_int by (unfold INT_MIN; lia).
  destruct (Z.ltb_spec (rec_size r) 0); [lia|].
  (* the data *)
  assert (E2 : mem_read
                 (pre1 ++ store_int byte_order (rec_size r)
                       ++ rec_buffer r ++ post)
                 (len pre1 + sizeof_int) (rec_size r)
               = Done (rec_buffer r)).
  { rewrite <- (len_store_int byte_order (rec_size r)), <- len_app, app_assoc.
    rewrite Hsz. apply mem_read_app. }
  rewrite E2. cbn [obind].
  f_equal. f_equal. subst pre1.
  rewrite len_wire_record, !len_app.
  change (len [x00]) with 1. unfold strlen. lia.
Qed.

Lemma parse_loop_wire (l : list dgr_record) (pre : list byte) (fuel : nat) :
  forallb wf_record l = true ->
  len pre + len (wire_packet byte_order l) <= INT_MAX ->
  (length (wire_packet byte_order l) <= fuel)%nat ->
  parse_loop byte_order fuel (len pre + len (wire_packet byte_order l))
    (pre ++ wire_packet byte_order l) (len pre)
  = Done l.
Proof.
  revert pre fuel. induction l as [|r l IH]; intros pre fuel Hwf Hmax Hfuel.
  - cbn [wire_packet map concat]. change (len []) with 0.
    rewrite Z.add_0_r.
    destruct fuel; cbn; now rewrite Z.ltb_irrefl.
  - cbn [forallb] in Hwf. apply andb_true_iff in Hwf as [Hr Hl].
    rewrite wire_packet_cons in *. rewrite len_app in *.
    pose proof (len_nonneg pre). pose proof (len_nonneg (wire_packet byte_order l)).
    pose proof (len_wire_record r) as Hlr.
    pose proof (len_nonneg (rec_name r)). pose proof (len_nonneg (rec_buffer r)).
    pose proof Hr as Hr'. apply wf_record_spec in Hr' as (_ & _ & Hsz).
    unfold strlen, sizeof_int in Hlr.
    destruct fuel as [|fuel].
    { rewrite length_app in Hfuel. unfold len in *. lia. }
    cbn [parse_loop].
    destruct (Z.ltb_spec (len pre)
                (len pre + (len (wire_record byte_order r)
                            + len (wire_packet byte_order l)))); [|lia].
    rewrite read_record_wire by (try assumption; lia). cbn [obind].
    rewrite app_assoc, <- (len_app pre).
    replace (len pre + (len (wire_record byte_order r)
                        + len (wire_packet byte_order l)))
      with (len (pre ++ wire_record byte_order r)
            + len (wire_packet byte_order l))
      by (rewrite len_app; lia).
    rewrite IH; [now destruct r|assumption|rewrite len_app; lia|].
    rewrite length_app in Hfuel. unfold len in *. lia.
Qed.

(** [dgr_unserialize] is [dgr_set] called on each triple of the packet. *)
Lemma unserialize_loop_parse (fuel : nat) (size : Z) (serialized : list byte)
  (ptr : Z) (kvs : list dgr_record) (st : dgr_state) :
  parse_loop byte_order fuel size serialized ptr = Done kvs ->
  unserialize_loop byte_order fuel size serialized ptr st
  = apply_records kvs st.
Proof.
  revert ptr kvs st. induction fuel as [|fuel IH]; intros ptr kvs st; cbn.
  - destruct (ptr <? size); [discriminate|]. now intros [= <-].
  - destruct (ptr <? size); [|now intros [= <-]].
    destruct (read_record byte_order serialized ptr)
      as [[[[name size'] data] ptr']| | |]; cbn [obind]; try discriminate.
    destruct (parse_loop byte_order fuel size serialized ptr')
      as [rest| | |] eqn:Ep; cbn [obind]; try discriminate.
    intros [= <-]. cbn [apply_records rec_name rec_buffer rec_size].
    destruct (dgr_set name data size' st) as [[[] st1]| | |]; cbn [obind];
      try reflexivity.
    now apply IH.
Qed.

Lemma unserialize_loop_Done (fuel : nat) (size : Z) (serialized : list byte)
  (ptr : Z) (st st' : dgr_state) :
  unserialize_loop byte_order fuel size serialized ptr st = Done (tt, st') ->
  exists kvs, parse_loop byte_order fuel size serialized ptr = Done kvs.
Proof.
  revert ptr st. induction fuel as [|fuel IH]; intros ptr st; cbn.
  - destruct (ptr <? size); [discriminate|]. eauto.
  - destruct (ptr <? size); [|eauto].
    destruct (read_record byte_order serialized ptr)
      as [[[[name size'] data] ptr']| | |]; cbn [obind]; try discriminate.
    destruct (dgr_set name data size' st) as [[[] st1]| | |]; cbn [obind];
      try discriminate.
    intros H. destruct (IH _ _ H) as [rest ->]. cbn [obind]. eauto.
Qed.

Lemma parse_loop_wf (fuel : nat) (size : Z) (serialized : list byte)
  (ptr : Z) (kvs : list dgr_record) :
  0 <= ptr ->
  parse_loop byte_order fuel size serialized ptr = Done kvs ->
  forallb wf_record kvs = true.
Proof.
  revert ptr kvs. induction fuel as [|fuel IH]; intros ptr kvs Hptr; cbn.
  - destruct (ptr <? size); [discriminate|]. now intros [= <-].
  - destruct (ptr <? size); [|now intros [= <-]].
    destruct (read_record byte_order serialized ptr)
      as [[[[name size'] data] ptr']| | |] eqn:Er; cbn [obind];
      try discriminate.
    destruct (read_record_Done _ _ _ _ _ _ Hptr Er) as (Hwf & -> & Hs & _).
    destruct (parse_loop byte_order fuel size serialized _)
      as [rest| | |] eqn:Ep; cbn [obind]; try discriminate.
    intros [= <-]. cbn [forallb]. rewrite Hwf. cbn [andb].
    eapply IH; [|exact Ep].
    pose proof (len_nonneg name). unfold strlen, sizeof_int. lia.
Qed.

(** Bytes after the packet in the same object do not change what is read,
    as long as the packet can be read on its own. *)
Lemma parse_loop_mono (fuel : nat) (size : Z) (serialized more : list byte)
  (ptr : Z) (kvs : list dgr_record) :
  0 <= ptr ->
  parse_loop byte_order fuel size serialized ptr = Done kvs ->
  parse_loop byte_order fuel size (serialized ++ more) ptr = Done kvs.
Proof.
  revert ptr kvs. induction fuel as [|fuel IH]; intros ptr kvs Hptr; cbn.
  - destruct (ptr <? size); [discriminate|]. auto.
  - destruct (ptr <? size); [|auto].
    destruct (read_record byte_order serialized ptr)
      as [[[[name size'] data] ptr']| | |] eqn:Er; cbn [obind];
      try discriminate.
    rewrite (read_record_mono _ more _ _ Hptr Er). cbn [obind].
    destruct (read_record_Done _ _ _ _ _ _ Hptr Er) as (_ & Hp & Hs & _).
    destruct (parse_loop byte_order fuel size serialized ptr')
      as [rest| | |] eqn:Ep; cbn [obind]; try discriminate.
    intros [= <-]. erewrite IH; [reflexivity| |exact Ep].
    pose proof (len_nonneg name). unfold strlen, sizeof_int in Hp. lia.
Qed.

Lemma parse_packet_mono (size : Z) (serialized more : list byte)
  (kvs : list dgr_record) :
  parse_packet byte_order size serialized = Done kvs ->
  parse_packet byte_order size (serialized ++ more) = Done kvs.
Proof. apply parse_loop_mono. lia. Qed.

Lemma dgr_unserialize_parse (size : Z) (serialized : list byte)
  (kvs : list dgr_record) (st : dgr_state) :
  parse_packet byte_order size serialized = Done kvs ->
  dgr_unserialize byte_order size serialized st = apply_records kvs st.
Proof. apply unserialize_loop_parse. Qed.

(** The packet of a registry is read back as the records of the registry. *)
Lemma parse_packet_wire (l : list dgr_record) :
  forallb wf_record l = true ->
  len (wire_packet byte_order l) <= INT_MAX ->
  parse_packet byte_order (len (wire_packet byte_order l))
    (wire_packet byte_order l) = Done l.
Proof.
  intros Hwf Hmax.
  pose proof (parse_loop_wire l [] (Z.to_nat (len (wire_packet byte_order l)))
                Hwf) as H.
  cbn [app] in H. change (len []) with 0 in H. rewrite !Z.add_0_l in H.
  apply H; [assumption|]. unfold len. lia.
Qed.

(** *** The loops return *)

Lemma memcpy_returns (dst src : list byte) (doff soff n : Z) :
  memcpy dst doff src soff n <> NoReturn.
Proof.
  unfold memcpy, mem_read, mem_write.
  repeat (match goal with |- context [if ?b then _ else _] => destruct b end;
          cbn [obind]); discriminate.
Qed.

Lemma dgr_set_returns (name buffer : list byte) (size : Z) (st : dgr_state) :
  dgr_set name buffer size st <> NoReturn.
Proof.
  unfold dgr_set, malloc.
  repeat (match goal with
          | |- context [if ?b then _ else _] => destruct b
          | |- context [match ?o with Some _ => _ | None => _ end] => destruct o
          end; cbn [obind negb]); try discriminate;
  match goal with
  | |- context [memcpy ?a ?b ?c ?d ?e] =>
      pose proof (memcpy_returns a c b d e);
      destruct (memcpy a b c d e); cbn [obind]; congruence
  end.
Qed.

Lemma read_name_returns (rest acc : list byte) (c : Z) :
  read_name rest c acc <> NoReturn.
Proof.
  revert c acc. induction rest as [|ch rest IH]; intros c acc; cbn;
    [discriminate|].
  destruct (Byte.eqb ch x00), (c <? NAME_SIZE); try discriminate. apply IH.
Qed.

Lemma read_record_returns (serialized : list byte) (ptr : Z) :
  read_record byte_order serialized ptr <> NoReturn.
Proof.
  unfold read_record.
  pose proof (read_name_returns (drop (Z.to_nat ptr) serialized) [] 0).
  destruct (read_name _ 0 []); cbn [obind]; try congruence.
  unfold mem_read.
  repeat (match goal with |- context [if ?b then _ else _] => destruct b end;
          cbn [obind]); discriminate.
Qed.

(** [dgr_unserialize] does not run out of turns. *)
Lemma unserialize_loop_returns (fuel : nat) (size : Z) (serialized : list byte)
  (ptr : Z) (st : dgr_state) :
  0 <= ptr -> size - ptr <= Z.of_nat fuel ->
  unserialize_loop byte_order fuel size serialized ptr st <> NoReturn.
Proof.
  revert ptr st. induction fuel as [|fuel IH]; intros ptr st Hptr Hfuel; cbn.
  - destruct (Z.ltb_spec ptr size); [lia|discriminate].
  - destruct (Z.ltb_spec ptr size); [|discriminate].
    pose proof (read_record_returns serialized ptr) as Hr.
    destruct (read_record byte_order serialized ptr)
      as [[[[name size'] data] ptr']| | |] eqn:Er; cbn [obind];
      try congruence.
    destruct (read_record_Done _ _ _ _ _ _ Hptr Er) as (_ & Hp & Hs & _).
    pose proof (dgr_set_returns name data size' st) as Hset.
    destruct (dgr_set name data size' st) as [[[] st1]| | |]; cbn [obind];
      try congruence.
    pose proof (len_nonneg name). unfold strlen, sizeof_int in Hp.
    apply IH; lia.
Qed.

Lemma dgr_unserialize_returns (size : Z) (serialized : list byte)
  (st : dgr_state) :
  dgr_unserialize byte_order size serialized st <> NoReturn.
Proof. apply unserialize_loop_returns; lia. Qed.

(** Whatever the bytes, when [dgr_unserialize] returns, a well-formed
    registry is well-formed after it. *)
Lemma dgr_unserialize_keeps_wf (size : Z) (serialized : list byte)
  (st st' : dgr_state) :
  dgr_unserialize byte_order size serialized st = Done (tt, st') ->
  wf_registry (dgr_list st) = true ->
  wf_registry (dgr_list st') = true.
Proof.
  intros Hd Hwf.
  destruct (unserialize_loop_Done _ _ _ _ _ _ Hd) as [kvs Hp].
  unfold dgr_unserialize in Hd.
  rewrite (unserialize_loop_parse _ _ _ _ _ _ Hp) in Hd.
  apply (apply_records_keeps_wf _ _ _ Hd); [|exact Hwf].
  eapply parse_loop_wf; [|exact Hp]. lia.
Qed.

(** ** Round trip *)

(** C1.  A master has a well-formed registry: names that fit
    [char[1024]], buffers of [size >= 0] bytes, one record per name, no more
    records than slots.  Whenever [dgr_serialize] returns for it, and it
    does when the length of the packet is in the range of [int],
    [dgr_unserialize] of the bytes on an enabled session with an empty
    registry returns and that registry then holds the records of the
    master, with the same names, sizes and data bytes, in the same order;
    nothing else of the session changes. *)
Theorem serialize_unserialize_round_trip (master slave : dgr_state) :
  wf_registry (dgr_list master) = true ->
  dgr_disabled slave = 0 ->
  dgr_list slave = [] ->
  (forall size serialized master',
     dgr_serialize byte_order master = Done ((size, serialized), master') ->
     master' = master
     /\ dgr_unserialize byte_order size serialized slave
        = Done (tt, set_list (dgr_list master) slave))
  /\ (len (wire_packet byte_order (dgr_list master)) <= INT_MAX ->
      exists size serialized,
        dgr_serialize byte_order master = Done ((size, serialized), master)).
Proof.
  intros Hwf Hen Hempty.
  pose proof Hwf as Hwf'. apply wf_registry_spec in Hwf' as (Hall & Hnd & Hlen).
  assert (Hrecs : forallb wf_record (dgr_list master) = true)
    by now apply List.forallb_forall.
  split.
  - intros size serialized master' Hs.
    pose proof (dgr_serialize_Done _ _ _ _ Hrecs Hs) as Hmax.
    rewrite dgr_serialize_wire in Hs by assumption.
    injection Hs as <- <- <-. split; [reflexivity|].
    rewrite (dgr_unserialize_parse _ _ (dgr_list master))
      by now apply parse_packet_wire.
    destruct (apply_records_merge (dgr_list master) slave) as [Happly _];
      try assumption.
    + now rewrite Hempty.
    + rewrite Hempty. change (len []) with 0. lia.
    + rewrite Happly, Hempty, registry_merge_fresh; [reflexivity|].
      exact Hnd.
  - intros Hmax. eexists _, _. now apply dgr_serialize_wire.
Qed.

(** ** The wire format of a registry *)

(** C6.  For a registry of well-formed records, whenever [dgr_serialize]
    returns, and it does when the length of the packet is in the range of
    [int], the bytes are, for the records in registry order, the name's
    bytes, one terminator byte, the size as a 4-byte native-endian signed
    integer and the data bytes ([wire_packet]), [*size] is their number and
    the session is as before.  A registry with only "score", the [int] 10,
    serializes to 14 bytes: "score", 0x00, the [int] 4, the [int] 10; an
    empty session that unserializes them and gets "score" into a buffer of
    four bytes is given 4 and the buffer holds the [int] 10. *)
Theorem serialize_wire_format (st : dgr_state) :
  forallb wf_record (dgr_list st) = true ->
  (forall size serialized st',
     dgr_serialize byte_order st = Done ((size, serialized), st') ->
     serialized = wire_packet byte_order (dgr_list st)
     /\ size = len serialized /\ st' = st)
  /\ (len (wire_packet byte_order (dgr_list st)) <= INT_MAX ->
      dgr_serialize byte_order st
      = Done ((len (wire_packet byte_order (dgr_list st)),
               wire_packet byte_order (dgr_list st)), st))
  /\ example_score byte_order
     = Done (14,
             bytes_of "score" ++ [x00] ++ store_int byte_order 4
                              ++ store_int byte_order 10,
             (4, store_int byte_order 10))
  /\ load_int byte_order (store_int byte_order 10) = 10.
Proof.
  intros Hwf. split; [|split].
  - intros size serialized st' Hs.
    pose proof (dgr_serialize_Done _ _ _ _ Hwf Hs) as Hmax.
    rewrite dgr_serialize_wire in Hs by assumption.
    injection Hs as <- <- <-. repeat split.
  - now apply dgr_serialize_wire.
  - split; destruct byte_order; vm_compute; reflexivity.
Qed.

(** ** A size field larger than the rest of the input *)

(** C2 (what the code does).  [dgr_unserialize] does not compare the size
    field with the bytes that are left.  A datagram of six bytes whose size
    field says 100 makes it read outside the object: no error is reported,
    the behaviour is undefined.  When the object has further bytes after
    the six of the input, a size field of 2 makes it take these two bytes as
    the data, and the call returns with them in the registry. *)
Theorem unserialize_trusts_size_field :
  dgr_unserialize byte_order 6 (truncated_packet byte_order 100)
    (initial_state idle_world)
  = Undef OutOfBounds
  /\ dgr_unserialize byte_order 6 (truncated_packet byte_order 2 ++ bytes_of "zz")
       (initial_state idle_world)
     = Done (tt, set_list [mk_record (bytes_of "a") 2 (bytes_of "zz")]
                   (initial_state idle_world)).
Proof.
  split; destruct byte_order; vm_compute; reflexivity.
Qed.

(** ** Merge, not replace *)

(** A record with another name stays where it is when [dgr_set] returns. *)
Lemma dgr_set_frame (name buffer : list byte) (size : Z) (st st' : dgr_state)
  (i : nat) (r : dgr_record) :
  dgr_set name buffer size st = Done (tt, st') ->
  dgr_list st !! i = Some r -> rec_name r <> name ->
  dgr_list st' !! i = Some r.
Proof.
  unfold dgr_set. destruct (truthy (dgr_disabled st)); [now intros [= <-]|].
  destruct (find_record name (dgr_list st)) as [r0|] eqn:Ef.
  - destruct (dgr_findIndex_Some _ _ _ Ef) as (k & -> & Hk & _).
    destruct (Z.eqb_spec (Z.of_nat k) (-1)); [lia|].
    rewrite Nat2Z.id, Hk.
    destruct (let* record := _ in _) as [[[] st1]| | |] eqn:E; try discriminate.
    intros [= <-] Hi Hne.
    destruct (if negb (rec_size r0 =? size) then _ else _) as [rec1| | |];
      cbn [obind] in E; try discriminate.
    destruct (memcpy _ _ _ _ _) as [block| | |]; cbn [obind] in E;
      try discriminate.
    injection E as <-. cbn [dgr_list set_list].
    rewrite list_lookup_insert_ne; [exact Hi|].
    intros <-. rewrite Hk in Hi. injection Hi as <-.
    apply Hne. eapply find_record_name, Ef.
  - rewrite (dgr_findIndex_None _ _ Ef). cbn [Z.eqb Pos.eqb].
    destruct (dgr_list_size st >? DGR_MAX_LIST_SIZE); [discriminate|].
    destruct (dgr_list_size st >=? DGR_MAX_LIST_SIZE); [discriminate|].
    destruct (strlen name + 1 >? NAME_SIZE); [discriminate|].
    destruct (malloc size) as [b0| | |]; cbn [obind]; try discriminate.
    destruct (memcpy _ _ _ _ _) as [block| | |]; cbn [obind];
      try discriminate.
    intros [= <-] Hi _. cbn [dgr_list set_list].
    now apply lookup_app_l_Some.
Qed.

Lemma apply_records_frame (kvs : list dgr_record) (st st' : dgr_state)
  (i : nat) (r : dgr_record) :
  apply_records kvs st = Done (tt, st') ->
  dgr_list st !! i = Some r -> ~ In (rec_name r) (map rec_name kvs) ->
  dgr_list st' !! i = Some r.
Proof.
  revert st. induction kvs as [|r0 kvs IH]; intros st; cbn.
  - now intros [= <-].
  - destruct (dgr_set _ _ _ st) as [[[] st1]| | |] eqn:Es; cbn [obind];
      try discriminate.
    intros Ha Hi Hn. apply (IH st1 Ha); [|tauto].
    apply (dgr_set_frame _ _ _ _ _ _ _ Es Hi). intros E. apply Hn. now left.
Qed.

(** C9.  [dgr_unserialize] merges.  The packet is the first [size] bytes
    of the object.  When these bytes read as the (name, size, data) triples
    [kvs], with no read beyond them, [dgr_unserialize] calls [dgr_set] on
    each triple in turn, whatever the object holds after the packet;
    whenever it returns, every record whose name is not a name of the
    packet is in its slot as before, with its name, size and data; and on
    an enabled session with a well-formed registry and room for the
    triples it does return, and every name of the packet then has the
    record of its last triple.  The packet of well-formed records reads as
    these records wherever it lies in an object.  The packet {A: "ab"} and
    then the packet {B: "xy"} leave both records, A with "ab".  Bytes that
    do not read as triples within the packet are the case of C2 and C3
    (see [unserialize_over_read]). *)
Theorem unserialize_merges (size : Z) (serialized : list byte)
  (st : dgr_state) :
  (forall kvs,
     parse_packet byte_order size (take (Z.to_nat size) serialized)
     = Done kvs ->
     dgr_unserialize byte_order size serialized st = apply_records kvs st
     /\ (forall st',
           dgr_unserialize byte_order size serialized st = Done (tt, st') ->
           forall i r,
             dgr_list st !! i = Some r ->
             ~ In (rec_name r) (map rec_name kvs) ->
             dgr_list st' !! i = Some r)
     /\ (dgr_disabled st = 0 ->
         wf_registry (dgr_list st) = true ->
         len (dgr_list st) + len kvs <= DGR_MAX_LIST_SIZE ->
         dgr_unserialize byte_order size serialized st
         = Done (tt, set_list (registry_merge kvs (dgr_list st)) st)
         /\ forall name r,
              last_binding name kvs = Some r ->
              find_record name (registry_merge kvs (dgr_list st)) = Some r))
  /\ (forall l more,
        forallb wf_record l = true ->
        len (wire_packet byte_order l) <= INT_MAX ->
        parse_packet byte_order (len (wire_packet byte_order l))
          (take (Z.to_nat (len (wire_packet byte_order l)))
             (wire_packet byte_order l ++ more))
        = Done l)
  /\ example_merge byte_order
     = Done [mk_record (bytes_of "A") 2 (bytes_of "ab");
             mk_record (bytes_of "B") 2 (bytes_of "xy")].
Proof.
  split; [|split].
  - intros kvs Hown.
    pose proof (parse_packet_mono _ _ (drop (Z.to_nat size) serialized) _ Hown)
      as Hp.
    rewrite take_drop in Hp.
    pose proof (dgr_unserialize_parse _ _ _ st Hp) as Hu.
    split; [exact Hu|]. split.
    + intros st' Hd i r. rewrite Hu in Hd. now apply apply_records_frame.
    + intros Hen Hwf Hcap. rewrite Hu.
      destruct (apply_records_merge kvs st Hen Hwf) as [-> _];
        [eapply parse_loop_wf; [|exact Hp]; lia|exact Hcap|].
      split; [reflexivity|]. intros name r Hl.
      now rewrite find_record_merge, Hl.
  - intros l more Hwf Hmax. unfold len at 2. rewrite Nat2Z.id.
    rewrite take_app_length. now apply parse_packet_wire.
  - destruct byte_order; vm_compute; reflexivity.
Qed.

End Codec.

(** ** Get and set *)

(** [dgr_get] of a record that fits the buffer. *)
Lemma dgr_get_copies (name buffer : list byte) (bufferSize : Z)
  (st : dgr_state) (r : dgr_record) :
  dgr_disabled st = 0 ->
  find_record name (dgr_list st) = Some r ->
  rec_size r = len (rec_buffer r) ->
  rec_size r <= bufferSize <= len buffer ->
  dgr_get name buffer bufferSize st
  = Done ((rec_size r,
           rec_buffer r ++ drop (Z.to_nat (rec_size r)) buffer), st).
Proof.
  intros Hen Hf Hsz Hle. rewrite dgr_get_spec, Hf by assumption.
  destruct (Z.geb_spec bufferSize (rec_size r)); [|lia].
  pose proof (len_nonneg (rec_buffer r)).
  unfold memcpy. rewrite mem_read_whole by lia. cbn [obind].
  rewrite Hsz, to_nat_len, firstn_all.
  pose proof (mem_write_app [] buffer (rec_buffer r) ltac:(lia)) as Hw.
  cbn [app] in Hw. change (len []) with 0 in Hw. rewrite Hw. reflexivity.
Qed.

(** C7.  [dgr_get] on an enabled session, with a buffer that has the
    [bufferSize] bytes the caller says it has: a name the registry does not
    have gives -1; a record larger than [bufferSize] gives -2; in both cases
    the buffer is as it was.  Otherwise the [size] bytes of the record are
    written at the start of the buffer, the rest of the buffer stays, and
    [size] is returned.  The session is the same after the call in all
    three cases. *)
Theorem dgr_get_cases (name buffer : list byte) (bufferSize : Z)
  (st : dgr_state) :
  dgr_disabled st = 0 ->
  bufferSize <= len buffer ->
  (~ In name (map rec_name (dgr_list st)) ->
   dgr_get name buffer bufferSize st = Done ((-1, buffer), st))
  /\ (forall r,
        find_record name (dgr_list st) = Some r ->
        bufferSize < rec_size r ->
        dgr_get name buffer bufferSize st = Done ((-2, buffer), st))
  /\ (forall r,
        find_record name (dgr_list st) = Some r ->
        rec_size r = len (rec_buffer r) ->
        rec_size r <= bufferSize ->
        dgr_get name buffer bufferSize st
        = Done ((rec_size r,
                 rec_buffer r ++ drop (Z.to_nat (rec_size r)) buffer), st)).
Proof.
  intros Hen Hcap. split; [|split].
  - intros Hn. apply find_record_None in Hn.
    now rewrite dgr_get_spec, Hn by assumption.
  - intros r Hf Hlt. rewrite dgr_get_spec, Hf by assumption.
    destruct (Z.geb_spec bufferSize (rec_size r)); [lia|]. reflexivity.
  - intros r Hf Hsz Hle. apply dgr_get_copies; try assumption. lia.
Qed.

(** ** The capacity of the registry *)

(** [dgr_set] of a new name on a session whose registry is full. *)
Lemma dgr_set_full (name buffer : list byte) (size : Z) (st : dgr_state) :
  dgr_disabled st = 0 ->
  find_record name (dgr_list st) = None ->
  dgr_list_size st = DGR_MAX_LIST_SIZE ->
  dgr_set name buffer size st = Undef OutOfBounds.
Proof.
  intros Hen Hf Hfull. unfold dgr_set. rewrite Hen, truthy_0.
  rewrite (dgr_findIndex_None _ _ Hf), Hfull. reflexivity.
Qed.

(** With a registry that has no more records than the array has slots,
    [dgr_set] never ends the process: its test for a full registry cannot
    come out true. *)
Lemma dgr_set_never_exits (name buffer : list byte) (size : Z)
  (st : dgr_state) (code : Z) :
  wf_registry (dgr_list st) = true ->
  dgr_set name buffer size st <> Exit code.
Proof.
  intros Hwf. apply wf_registry_spec in Hwf as (_ & _ & Hlen).
  unfold dgr_set, malloc, memcpy, mem_read, mem_write, dgr_list_size.
  destruct (Z.gtb_spec (len (dgr_list st)) DGR_MAX_LIST_SIZE); [lia|].
  repeat (match goal with
          | |- context [if ?b then _ else _] => destruct b
          | |- context [match ?o with Some _ => _ | None => _ end] => destruct o
          end; cbn [obind negb]); discriminate.
Qed.

(** C5 (what the code does).  After 1024 variables were set the registry
    is full.  [dgr_set] of one more name does not end the process: the test
    is [dgr_list_size > DGR_MAX_LIST_SIZE], 1024 is not greater than 1024,
    and the record is written at [dgr_list[1024]], after the array. *)
Theorem dgr_set_at_capacity :
  set_many 1024 (initial_state idle_world) = Done (tt, full_session)
  /\ dgr_list_size full_session = DGR_MAX_LIST_SIZE
  /\ find_record (bytes_of "one more") (dgr_list full_session) = None
  /\ dgr_set (bytes_of "one more") [x01] 1 full_session = Undef OutOfBounds.
Proof.
  split; [|split; [|split]]; vm_compute; reflexivity.
Qed.

(** ** The receive cycle *)

Section Cycle.

Variable byte_order : endianness.

Lemma received_into_whole (serialized p : list byte) :
  len p <= RECV_BUFFER_SIZE ->
  received_into serialized p = p ++ drop (length p) serialized.
Proof.
  intros H. unfold received_into.
  rewrite Z.min_l, to_nat_len, firstn_all by assumption. reflexivity.
Qed.

Lemma poll_ready (timeout : Z) (st : dgr_state) :
  sock_error (world st) = false ->
  sock_pending (world st) <> [] ->
  poll timeout st = Done (1, st).
Proof.
  intros Herr Hq. unfold poll. rewrite Herr.
  now destruct (sock_pending (world st)).
Qed.

Lemma poll_0_empty (st : dgr_state) :
  sock_error (world st) = false ->
  sock_pending (world st) = [] ->
  poll 0 st = Done (0, st).
Proof.
  intros Herr Hq. unfold poll. now rewrite Herr, Hq.
Qed.

(** The loop of [dgr_receive] takes every queued datagram; each is written
    over the one before, and the length is that of the last one. *)
Lemma receive_loop_drain (older : list (list byte)) (newest : list byte)
  (fuel : nat) (serialized : list byte) (st : dgr_state) :
  sock_error (world st) = false ->
  sock_pending (world st) = older ++ [newest] ->
  (length older < fuel)%nat ->
  receive_loop fuel serialized st
  = Done ((Z.min (len newest) RECV_BUFFER_SIZE,
           received_into (fold_left received_into older serialized) newest),
          set_world (set_pending [] (world st)) st).
Proof.
  revert fuel serialized st.
  induction older as [|p older IH]; intros fuel serialized st Herr Hq Hfuel;
    (destruct fuel as [|fuel]; [cbn in Hfuel; lia|]);
    cbn [receive_loop]; unfold recvfrom; rewrite Herr, Hq; cbn [app obind].
  - pose proof (len_nonneg newest).
    destruct (Z.eqb_spec (Z.min (len newest) RECV_BUFFER_SIZE) (-1));
      [unfold RECV_BUFFER_SIZE in *; lia|].
    rewrite poll_0_empty by (cbn; first [assumption | reflexivity]).
    reflexivity.
  - pose proof (len_nonneg p).
    destruct (Z.eqb_spec (Z.min (len p) RECV_BUFFER_SIZE) (-1));
      [unfold RECV_BUFFER_SIZE in *; lia|].
    rewrite poll_ready by (cbn; first [assumption | now destruct older]).
    cbn [obind Z.eqb].
    rewrite IH; [reflexivity|exact Herr|reflexivity|cbn in Hfuel; lia].
Qed.

(** [dgr_receive] with datagrams queued: the last one is unserialized, in a
    buffer that has the rest of the earlier ones after it. *)
Lemma dgr_receive_drain (timeout : Z) (st : dgr_state)
  (older : list (list byte)) (newest : list byte) :
  dgr_disabled st = 0 ->
  sock_error (world st) = false ->
  dgr_time_lastreceive st = 0 \/ time_now st - dgr_time_lastreceive st < 15 ->
  sock_pending (world st) = older ++ [newest] ->
  dgr_receive byte_order timeout st
  = dgr_unserialize byte_order (Z.min (len newest) RECV_BUFFER_SIZE)
      (received_into (fold_left received_into older []) newest)
      (set_time_lastreceive (time_now st)
         (set_world (set_pending [] (world st)) st)).
Proof.
  intros Hen Herr Hlive Hq. unfold dgr_receive. rewrite Hen, truthy_0.
  assert (Hl : negb (dgr_time_lastreceive st =? 0)
               && (time_now st - dgr_time_lastreceive st >=? 15) = false).
  { destruct Hlive as [->|Hlt]; [reflexivity|].
    destruct (Z.geb_spec (time_now st - dgr_time_lastreceive st) 15); [lia|].
    apply andb_false_r. }
  rewrite Hl.
  rewrite poll_ready by (try assumption; rewrite Hq; now destruct older).
  cbn [obind Z.eqb].
  rewrite (receive_loop_drain older newest); try assumption;
    [reflexivity|rewrite Hq, length_app; cbn; lia].
Qed.

(** The newest packet wins.  An enabled slave whose liveness window has
    not run out updates.  With datagrams queued, [dgr_update] empties the queue, sets the time of
    the last receive and unserializes the buffer with the length of the
    last datagram; the buffer starts with the last datagram.  When that
    datagram is a packet of the wire format, the update is [dgr_set] called
    on each triple of it: the datagrams before it have no part in the
    result.  With a well-formed registry that has room, the update returns
    and every name of the packet has the record of the packet.  The packet
    of any registry of well-formed records is such a packet, its triples are
    the records.  With
    nothing queued, after an earlier receive, the update returns and the
    session is as it was.  With {A=1,B=1}, {A=2,B=2}, {A=3,B=3} queued the
    registry is A=3, B=3. *)
Lemma slave_update_newest_wins (st : dgr_state) :
  dgr_mode st = 0 ->
  dgr_disabled st = 0 ->
  sock_error (world st) = false ->
  dgr_time_lastreceive st = 0 \/ time_now st - dgr_time_lastreceive st < 15 ->
  (forall older newest,
     sock_pending (world st) = older ++ [newest] ->
     len newest <= RECV_BUFFER_SIZE ->
     let st1 := set_time_lastreceive (time_now st)
                  (set_world (set_pending [] (world st)) st) in
     dgr_update byte_order st
     = dgr_unserialize byte_order (len newest)
         (newest ++ drop (length newest) (fold_left received_into older [])) st1
     /\ forall kvs,
          parse_packet byte_order (len newest) newest = Done kvs ->
          dgr_update byte_order st = apply_records kvs st1
          /\ (wf_registry (dgr_list st) = true ->
              len (dgr_list st) + len kvs <= DGR_MAX_LIST_SIZE ->
              dgr_update byte_order st
              = Done (tt, set_list (registry_merge kvs (dgr_list st)) st1)
              /\ forall name r,
                   last_binding name kvs = Some r ->
                   find_record name (registry_merge kvs (dgr_list st))
                   = Some r))
  /\ (forall l,
        forallb wf_record l = true ->
        len (wire_packet byte_order l) <= RECV_BUFFER_SIZE ->
        parse_packet byte_order (len (wire_packet byte_order l))
          (wire_packet byte_order l) = Done l)
  /\ (sock_pending (world st) = [] ->
      dgr_time_lastreceive st <> 0 ->
      dgr_update byte_order st = Done (tt, st))
  /\ example_freshness byte_order
     = Done [mk_record (bytes_of "A") 1 [x03]; mk_record (bytes_of "B") 1 [x03]].
Proof.
  intros Hmode Hen Herr Hlive. split; [|split; [|split]].
  - intros older newest Hq Hlen st1.
    assert (Hd : dgr_update byte_order st
                 = dgr_unserialize byte_order (len newest)
                     (newest ++ drop (length newest)
                                  (fold_left received_into older [])) st1).
    { unfold dgr_update. rewrite Hmode, truthy_0.
      assert (Hr : forall timeout,
                 dgr_receive byte_order timeout st
                 = dgr_unserialize byte_order (len newest)
                     (newest ++ drop (length newest)
                                  (fold_left received_into older [])) st1).
      { intros timeout.
        rewrite (dgr_receive_drain timeout st older newest) by assumption.
        now rewrite Z.min_l, received_into_whole by assumption. }
      destruct (dgr_time_lastreceive st =? 0); apply Hr. }
    split; [exact Hd|]. intros kvs Hp.
    assert (Hu : dgr_update byte_order st = apply_records kvs st1).
    { rewrite Hd. apply dgr_unserialize_parse. now apply parse_packet_mono. }
    split; [exact Hu|]. intros Hwf Hcap. rewrite Hu.
    destruct (apply_records_merge kvs st1) as [-> _]; try assumption.
    + eapply parse_loop_wf; [|exact Hp]. lia.
    + split; [reflexivity|]. intros name r Hl.
      now rewrite find_record_merge, Hl.
  - intros l Hwf Hlen. apply parse_packet_wire; [exact Hwf|].
    unfold RECV_BUFFER_SIZE, INT_MAX in *. lia.
  - intros Hq Hlast. unfold dgr_update. rewrite Hmode, truthy_0.
    destruct (Z.eqb_spec (dgr_time_lastreceive st) 0) as [|_]; [contradiction|].
    unfold dgr_receive. rewrite Hen, truthy_0.
    destruct Hlive as [|Hlt]; [contradiction|].
    destruct (Z.geb_spec (time_now st - dgr_time_lastreceive st) 15); [lia|].
    rewrite andb_false_r, poll_0_empty by assumption. reflexivity.
  - destruct byte_order; vm_compute; reflexivity.
Qed.

(** C3 (what the code does).  A slave has two datagrams queued: the
    packet {b: "zz"} of eight bytes, and after it a datagram of six bytes
    that names "a", says that two bytes of data follow, and ends there.
    [dgr_update] takes both into the same buffer; the six bytes of the
    newest lie over the start of the older one, whose last two bytes stay
    behind them.  [dgr_unserialize] is given the length 6, reads the size
    field 2 and takes the two bytes after the input as the data: the
    update returns, and the registry has "a" with "zz", bytes that only the
    older datagram carried. *)
Theorem slave_update_stale_bytes :
  len (wire_packet byte_order [mk_record (bytes_of "b") 2 (bytes_of "zz")]) = 8
  /\ len (truncated_packet byte_order 2) = 6
  /\ example_stale byte_order
     = Done [mk_record (bytes_of "a") 2 (bytes_of "zz")].
Proof.
  split; [|split]; destruct byte_order; vm_compute; reflexivity.
Qed.

(** ** Liveness *)

(** C4.  An enabled slave that received before ([dgr_time_lastreceive] is
    not 0) and updates 15 seconds or more after that receive ends the
    process with [exit(1)], whatever the socket holds: nothing is polled or
    read.  An enabled slave that never received, with nothing queued and
    nothing to come within 10000 ms, ends the process as well. *)
Theorem slave_update_liveness (st : dgr_state) :
  dgr_mode st = 0 ->
  dgr_disabled st = 0 ->
  (dgr_time_lastreceive st <> 0 ->
   15 <= time_now st - dgr_time_lastreceive st ->
   dgr_update byte_order st = Exit 1)
  /\ (dgr_time_lastreceive st = 0 ->
      sock_pending (world st) = [] ->
      nothing_arrives_within 10000 (world st) = true ->
      dgr_update byte_order st = Exit 1).
Proof.
  intros Hmode Hen. unfold dgr_update. rewrite Hmode, truthy_0. split.
  - intros Hlast Hlate.
    destruct (Z.eqb_spec (dgr_time_lastreceive st) 0) as [|_]; [contradiction|].
    unfold dgr_receive. rewrite Hen, truthy_0.
    destruct (Z.eqb_spec (dgr_time_lastreceive st) 0) as [|_]; [contradiction|].
    destruct (Z.geb_spec (time_now st - dgr_time_lastreceive st) 15); [|lia].
    reflexivity.
  - intros Hlast Hq Hnone. rewrite Hlast. cbn [Z.eqb].
    unfold dgr_receive. rewrite Hen, truthy_0, Hlast. cbn [Z.eqb negb andb].
    unfold poll. rewrite Hq.
    destruct (sock_error (world st)); [reflexivity|].
    cbn [Z.eqb]. unfold nothing_arrives_within in Hnone.
    destruct (sock_arrivals (world st)) as [|[d p] rest]; [reflexivity|].
    destruct (Z.ltb_spec 10000 d); [|discriminate].
    destruct (Z.leb_spec d 10000); [lia|]. reflexivity.
Qed.

(** ** What the procedures write *)

(** [dgr_set] writes [dgr_list] only. *)
Lemma dgr_set_writes_list (name buffer : list byte) (size : Z)
  (st st' : dgr_state) :
  dgr_set name buffer size st = Done (tt, st') ->
  st' = set_list (dgr_list st') st.
Proof.
  unfold dgr_set.
  repeat (match goal with
          | |- context [if ?b then _ else _] => destruct b
          | |- context [match ?o with Some _ => _ | None => _ end] => destruct o
          | |- context [malloc ?n] => destruct (malloc n)
          | |- context [memcpy ?a ?b ?c ?d ?e] => destruct (memcpy a b c d e)
          end; cbn [obind negb]);
    try discriminate; intros [= <-]; try reflexivity; now destruct st.
Qed.

Lemma unserialize_loop_writes_list (fuel : nat) (size : Z)
  (serialized : list byte) (ptr : Z) (st st' : dgr_state) :
  unserialize_loop byte_order fuel size serialized ptr st = Done (tt, st') ->
  st' = set_list (dgr_list st') st.
Proof.
  revert ptr st. induction fuel as [|fuel IH]; intros ptr st; cbn.
  - destruct (ptr <? size); [discriminate|]. intros [= <-]. now destruct st.
  - destruct (ptr <? size); [|intros [= <-]; now destruct st].
    destruct (read_record byte_order serialized ptr)
      as [[[[name size'] data] ptr']| | |]; cbn [obind]; try discriminate.
    destruct (dgr_set name data size' st) as [[[] st1]| | |] eqn:Es;
      cbn [obind]; try discriminate.
    intros H. apply IH in H. apply dgr_set_writes_list in Es.
    rewrite H, Es. reflexivity.
Qed.

Lemma poll_writes_world (timeout : Z) (st st' : dgr_state) (retval : Z) :
  poll timeout st = Done (retval, st') -> st' = set_world (world st') st.
Proof.
  unfold poll.
  repeat (match goal with
          | |- context [if ?b then _ else _] => destruct b
          | |- context [match ?o with [] => _ | _ :: _ => _ end] => destruct o
          | |- context [let '(_, _) := ?p in _] => destruct p
          end); try discriminate; intros [= <- <-]; now destruct st.
Qed.

Lemma receive_loop_writes_world (fuel : nat) (serialized : list byte)
  (st st' : dgr_state) (res : Z * list byte) :
  receive_loop fuel serialized st = Done (res, st') ->
  st' = set_world (world st') st.
Proof.
  revert serialized st. induction fuel as [|fuel IH]; intros serialized st;
    cbn [receive_loop]; [discriminate|].
  destruct (recvfrom serialized RECV_BUFFER_SIZE st)
    as [[[numbytes buf] st1]| | |] eqn:Er; cbn [obind]; try discriminate.
  assert (H1 : st1 = set_world (world st1) st).
  { revert Er. unfold recvfrom.
    repeat (match goal with
            | |- context [if ?b then _ else _] => destruct b
            | |- context [match ?o with [] => _ | _ :: _ => _ end] => destruct o
            | |- context [let '(_, _) := ?p in _] => destruct p
            end); try discriminate; intros [= <- <- <-]; now destruct st. }
  destruct (numbytes =? -1); [discriminate|].
  destruct (poll 0 st1) as [[retval st2]| | |] eqn:Ep; cbn [obind];
    try discriminate.
  apply poll_writes_world in Ep.
  destruct (retval =? 0).
  - intros [= <- <-]. rewrite Ep, H1. reflexivity.
  - intros H. apply IH in H. rewrite H, Ep, H1. reflexivity.
Qed.

(** [dgr_update] and [dgr_setget] write neither [dgr_mode] nor
    [dgr_disabled]. *)
Lemma dgr_update_keeps_flags (st st' : dgr_state) :
  dgr_update byte_order st = Done (tt, st') ->
  dgr_mode st' = dgr_mode st /\ dgr_disabled st' = dgr_disabled st.
Proof.
  assert (Hrecv : forall timeout,
             dgr_receive byte_order timeout st = Done (tt, st') ->
             dgr_mode st' = dgr_mode st /\ dgr_disabled st' = dgr_disabled st).
  { intros timeout. unfold dgr_receive.
    destruct (truthy (dgr_disabled st)); [now intros [= <-]|].
    cbv zeta.
    destruct (negb _ && _); [discriminate|].
    destruct (poll timeout st) as [[retval st1]| | |] eqn:Ep; cbn [obind];
      try discriminate.
    apply poll_writes_world in Ep.
    destruct (retval =? -1); [discriminate|].
    destruct (retval =? 0).
    { destruct (timeout >? 0); [discriminate|]. intros [= <-].
      rewrite Ep. now split. }
    destruct (receive_loop _ [] st1) as [[[numbytes buf] st2]| | |] eqn:El;
      cbn [obind]; try discriminate.
    apply receive_loop_writes_world in El.
    intros H. apply unserialize_loop_writes_list in H.
    rewrite H, El, Ep. now split. }
  unfold dgr_update. destruct (truthy (dgr_mode st)).
  - unfold dgr_send. destruct (truthy (dgr_disabled st)); [now intros [= <-]|].
    unfold dgr_serialize, sendto.
    repeat (match goal with
            | |- context [if ?b then _ else _] => destruct b
            | |- context [malloc ?n] => destruct (malloc n)
            | |- context [serialize_from ?a ?b ?c ?d] =>
                destruct (serialize_from a b c d)
            | |- context [mem_read ?a ?b ?c] => destruct (mem_read a b c)
            end; cbn [obind]); try discriminate; intros [= <-]; now split.
  - destruct (dgr_time_lastreceive st =? 0); apply Hrecv.
Qed.

Lemma dgr_setget_keeps_flags (name buffer buffer' : list byte)
  (bufferSize : Z) (st st' : dgr_state) :
  dgr_setget name buffer bufferSize st = Done (buffer', st') ->
  dgr_mode st' = dgr_mode st /\ dgr_disabled st' = dgr_disabled st.
Proof.
  unfold dgr_setget. destruct (truthy (dgr_disabled st)) eqn:Ed;
    [now intros [= <- <-]|].
  destruct (truthy (dgr_mode st)).
  - destruct (dgr_set name buffer bufferSize st) as [[[] st1]| | |] eqn:Es;
      cbn [obind]; try discriminate.
    intros [= <- <-]. apply dgr_set_writes_list in Es. rewrite Es. now split.
  - unfold dgr_get. rewrite Ed.
    repeat (match goal with
            | |- context [if ?b then _ else _] => destruct b
            | |- context [match ?o with Some _ => _ | None => _ end] => destruct o
            | |- context [memcpy ?a ?b ?c ?d ?e] => destruct (memcpy a b c d e)
            end; cbn [obind]); try discriminate; intros [= <- <-]; now split.
Qed.

Lemma uninitialised_flags (st : dgr_state) :
  uninitialised byte_order st -> dgr_mode st = 0 /\ dgr_disabled st = 0.
Proof.
  induction 1 as [w|st w _ IH|st st' name buffer buffer' bufferSize _ IH Hs
                 |st st' _ IH Hu].
  - now split.
  - exact IH.
  - apply dgr_setget_keeps_flags in Hs. destruct Hs, IH. split; congruence.
  - apply dgr_update_keeps_flags in Hu. destruct Hu, IH. split; congruence.
Qed.

(** ** The sessions a process can be in *)

Lemma truthy_false (z : Z) : truthy z = false <-> z = 0.
Proof.
  unfold truthy. destruct (Z.eqb_spec z 0); cbn; split; congruence.
Qed.

Lemma dgr_init_empties (st st' : dgr_state) :
  dgr_init st = Done (tt, st') -> dgr_list st' = [].
Proof.
  unfold dgr_init.
  destruct (match getenv "DGR_MODE" (set_disabled 1 st) with
            | Some _ => _ | None => _ end) as [[[] st1]| | |];
    cbn [obind]; try discriminate.
  unfold dgr_list_size, dgr_free.
  destruct (dgr_list st1) as [|r l] eqn:El.
  - change (len [] >? 0) with false. cbv iota. intros [= <-]. exact El.
  - rewrite len_cons. pose proof (len_nonneg l).
    destruct (Z.gtb_spec (1 + len l) 0); [|lia]. now intros [= <-].
Qed.

Lemma dgr_update_keeps_wf (st st' : dgr_state) :
  dgr_update byte_order st = Done (tt, st') ->
  wf_registry (dgr_list st) = true ->
  wf_registry (dgr_list st') = true.
Proof.
  assert (Hrecv : forall timeout,
             dgr_receive byte_order timeout st = Done (tt, st') ->
             wf_registry (dgr_list st) = true ->
             wf_registry (dgr_list st') = true).
  { intros timeout. unfold dgr_receive.
    destruct (truthy (dgr_disabled st)); [now intros [= <-]|].
    cbv zeta.
    destruct (negb _ && _); [discriminate|].
    destruct (poll timeout st) as [[retval st1]| | |] eqn:Ep; cbn [obind];
      try discriminate.
    apply poll_writes_world in Ep.
    destruct (retval =? -1); [discriminate|].
    destruct (retval =? 0).
    { destruct (timeout >? 0); [discriminate|]. intros [= <-].
      now rewrite Ep. }
    destruct (receive_loop _ [] st1) as [[[numbytes buf] st2]| | |] eqn:El;
      cbn [obind]; try discriminate.
    apply receive_loop_writes_world in El.
    intros H Hwf. apply (dgr_unserialize_keeps_wf _ _ _ _ _ H).
    rewrite El, Ep. exact Hwf. }
  unfold dgr_update. destruct (truthy (dgr_mode st)).
  - unfold dgr_send. destruct (truthy (dgr_disabled st)); [now intros [= <-]|].
    unfold dgr_serialize, sendto.
    repeat (match goal with
            | |- context [if ?b then _ else _] => destruct b
            | |- context [malloc ?n] => destruct (malloc n)
            | |- context [serialize_from ?a ?b ?c ?d] =>
                destruct (serialize_from a b c d)
            | |- context [mem_read ?a ?b ?c] => destruct (mem_read a b c)
            end; cbn [obind]); try discriminate; now intros [= <-].
  - destruct (dgr_time_lastreceive st =? 0); apply Hrecv.
Qed.

Lemma dgr_update_disabled (st : dgr_state) :
  dgr_disabled st <> 0 -> dgr_update byte_order st = Done (tt, st).
Proof.
  intros Hd. assert (Ht : truthy (dgr_disabled st) = true).
  { destruct (truthy (dgr_disabled st)) eqn:E; [reflexivity|].
    now apply truthy_false in E. }
  unfold dgr_update, dgr_send, dgr_receive. rewrite Ht.
  now destruct (truthy (dgr_mode st)), (dgr_time_lastreceive st =? 0).
Qed.

(** On every session a process can be in, the registry is as the data
    model has it, and a disabled session has no record. *)
Lemma reachable_invariant (st : dgr_state) :
  reachable byte_order st ->
  wf_registry (dgr_list st) = true
  /\ (dgr_disabled st <> 0 -> dgr_list st = []).
Proof.
  induction 1 as [w|st w _ IH|st st' _ _ Hi
                 |st st' name buffer buffer' bufferSize _ IH Hc Hs
                 |st st' _ IH Hu].
  - split; reflexivity.
  - exact IH.
  - apply dgr_init_empties in Hi. rewrite Hi. split; reflexivity.
  - destruct IH as [Hwf Hdis]. revert Hs. unfold dgr_setget.
    destruct (truthy (dgr_disabled st)) eqn:Ed; [intros [= <- <-]; now split|].
    apply truthy_false in Ed.
    destruct (truthy (dgr_mode st)).
    + destruct (dgr_set name buffer bufferSize st) as [[[] st1]| | |] eqn:Es;
        cbn [obind]; try discriminate.
      intros [= <- <-].
      destruct (dgr_set_keeps_wf _ _ _ _ _ Es Hc Hwf) as [Hwf1 Hst1].
      split; [exact Hwf1|]. rewrite Hst1. cbn. congruence.
    + unfold dgr_get. rewrite Ed, truthy_0.
      repeat (match goal with
              | |- context [if ?b then _ else _] => destruct b
              | |- context [match ?o with Some _ => _ | None => _ end] =>
                  destruct o
              | |- context [memcpy ?a ?b ?c ?d ?e] =>
                  destruct (memcpy a b c d e)
              end; cbn [obind]); try discriminate; intros [= <- <-];
        split; congruence.
  - destruct IH as [Hwf Hdis].
    destruct (Z.eq_dec (dgr_disabled st) 0) as [Hen|Hne].
    + split; [now apply (dgr_update_keeps_wf st st')|].
      apply dgr_update_keeps_flags in Hu as [_ Hd]. congruence.
    + rewrite (dgr_update_disabled st Hne) in Hu. injection Hu as <-.
      now split.
Qed.

(** ** The cycle does not hang *)

Lemma poll_Done (timeout : Z) (st st' : dgr_state) (retval : Z) :
  poll timeout st = Done (retval, st') ->
  retval = -1 \/ retval = 0
  \/ (sock_error (world st') = false /\ sock_pending (world st') <> []).
Proof.
  unfold poll. destruct (sock_error (world st)) eqn:Ee;
    [intros [= <- <-]; now left|].
  destruct (sock_pending (world st)) as [|p q] eqn:Eq.
  - destruct (timeout =? 0); [intros [= <- <-]; right; now left|].
    destruct (sock_arrivals (world st)) as [|[d p] rest].
    + destruct (timeout <? 0); [discriminate|].
      intros [= <- <-]. right; now left.
    + destruct ((timeout <? 0) || (d <=? timeout)); intros [= <- <-].
      * right; right. cbn. split; [exact Ee|discriminate].
      * right; now left.
  - intros [= <- <-]. right; right. rewrite Ee, Eq. split; [reflexivity|discriminate].
Qed.

Lemma poll_returns (timeout : Z) (st : dgr_state) :
  0 <= timeout -> poll timeout st <> NoReturn.
Proof.
  intros Ht. unfold poll.
  repeat (match goal with
          | |- context [if ?b then _ else _] => destruct b eqn:?
          | |- context [match ?o with [] => _ | _ :: _ => _ end] => destruct o
          | |- context [let '(_, _) := ?p in _] => destruct p
          end); try discriminate.
  all: repeat match goal with
         | H : (_ <? _) = true |- _ => apply Z.ltb_lt in H
         end; lia.
Qed.

(** [dgr_update] returns, ends the process or has no defined behaviour; it
    does not wait for ever and its loops do not run out of turns. *)
Lemma dgr_update_returns (st : dgr_state) :
  dgr_update byte_order st <> NoReturn.
Proof.
  assert (Hrecv : forall timeout,
             0 <= timeout -> dgr_receive byte_order timeout st <> NoReturn).
  { intros timeout Ht. unfold dgr_receive.
    destruct (truthy (dgr_disabled st)); [discriminate|]. cbv zeta.
    destruct (negb _ && _); [discriminate|].
    pose proof (poll_returns timeout st Ht) as Hp.
    destruct (poll timeout st) as [[retval st1]| | |] eqn:Ep; cbn [obind];
      try congruence.
    destruct (Z.eqb_spec retval (-1)); [discriminate|].
    destruct (Z.eqb_spec retval 0).
    { destruct (timeout >? 0); discriminate. }
    apply poll_Done in Ep as [|[|[Herr Hq]]]; try contradiction.
    destruct (exists_last Hq) as (older & newest & Hq').
    rewrite (receive_loop_drain older newest); try assumption.
    - cbn [obind]. apply dgr_unserialize_returns.
    - rewrite Hq', length_app. cbn. lia. }
  unfold dgr_update. destruct (truthy (dgr_mode st)).
  - unfold dgr_send, dgr_serialize, sendto, malloc, mem_read.
    repeat (match goal with
            | |- context [if ?b then _ else _] => destruct b
            | |- context [serialize_from ?a ?b ?c ?d] =>
                let H := fresh in
                assert (H : serialize_from a b c d <> NoReturn);
                [|destruct (serialize_from a b c d); try congruence]
            end; cbn [obind]); try discriminate.
    all: clear; generalize 0 at 2; generalize (replicate
           (Z.to_nat (space_needed_from (dgr_list st) 0)) x00).
    all: induction (dgr_list st) as [|r l IH]; intros blk ptr;
      cbn [serialize_from]; [discriminate|].
    all: unfold memcpy, mem_write, mem_read;
      repeat (match goal with
              | |- context [if ?b then _ else _] => destruct b
              end; cbn [obind]); try discriminate; apply IH.
  - destruct (dgr_time_lastreceive st =? 0); apply Hrecv; lia.
Qed.

(** ** Overwrite with another size *)

(** C8.  On every session a process can be in, [dgr_set] of a name the
    registry has, with a size other than the stored one and with [size]
    bytes to copy: the call returns, the record of the name then has the
    new size and a buffer of exactly the first [size] bytes given, and
    [dgr_get] into a buffer large enough returns the new size and writes
    these bytes, nothing of the old value.  "x" set to four bytes and then to
    the two bytes 9, 8 is got as 2 and 9, 8. *)
Theorem dgr_set_resize (name buffer : list byte) (size : Z) (st : dgr_state)
  (r : dgr_record) :
  reachable byte_order st ->
  find_record name (dgr_list st) = Some r ->
  rec_size r <> size ->
  0 <= size <= len buffer ->
  let r' := mk_record name size (take (Z.to_nat size) buffer) in
  let st' := set_list (registry_set name r' (dgr_list st)) st in
  dgr_set name buffer size st = Done (tt, st')
  /\ find_record name (dgr_list st') = Some r'
  /\ len (rec_buffer r') = size
  /\ (forall out outSize,
        size <= outSize <= len out ->
        dgr_get name out outSize st'
        = Done ((size, take (Z.to_nat size) buffer
                       ++ drop (Z.to_nat size) out), st'))
  /\ example_resize = Done (2, [x09; x08; x00; x00]).
Proof.
  intros Hreach Hf Hne Hsize r' st'.
  assert (Hen : dgr_disabled st = 0).
  { destruct (reachable_invariant st Hreach) as [_ Hdis].
    destruct (Z.eq_dec (dgr_disabled st) 0) as [|Hd]; [assumption|].
    rewrite (Hdis Hd) in Hf. discriminate. }
  assert (Hlen : len (rec_buffer r') = size).
  { subst r'. cbn [rec_buffer]. unfold len in *. rewrite length_take. lia. }
  assert (Hfind : find_record name (dgr_list st') = Some r')
    by (subst st'; cbn [dgr_list set_list]; now apply find_record_set_same).
  split; [|split; [|split; [|split]]].
  - apply (dgr_set_known _ _ _ _ r); try assumption. intros E. congruence.
  - exact Hfind.
  - exact Hlen.
  - intros out outSize Hout.
    apply (dgr_get_copies name out outSize st' r'); try assumption.
    symmetry. exact Hlen.
  - vm_compute. reflexivity.
Qed.

(** ** Before [dgr_init] *)

(** C10.  On every session of a process on which [dgr_init] was not
    called, [dgr_is_enabled] returns 1 and [dgr_is_master] returns 0: the
    static variables start at zero and nothing else writes them.  On such a
    process [dgr_update] receives the queued packet and [dgr_setget] fills
    the buffer from it.  After [dgr_init] found DGR_MODE unset or neither
    "master" nor "slave", [dgr_is_enabled] returns 0, and [dgr_update] and
    [dgr_setget] return with the session, the socket and the buffer as they
    were. *)
Theorem uninitialised_session_is_enabled_slave (st : dgr_state) :
  uninitialised byte_order st ->
  dgr_is_enabled st = Done (1, st)
  /\ dgr_is_master st = Done (0, st)
  /\ example_session byte_order false = Done (store_int byte_order 10, [])
  /\ example_session byte_order true
     = Done ([x00; x00; x00; x00], sock_pending (score_world byte_order))
  /\ (forall st0,
        mode_is_valid st0 = false ->
        exists st',
          dgr_init st0 = Done (tt, st')
          /\ dgr_is_enabled st' = Done (0, st')
          /\ dgr_update byte_order st' = Done (tt, st')
          /\ forall name buffer bufferSize,
               dgr_setget name buffer bufferSize st' = Done (buffer, st')).
Proof.
  intros Hun. destruct (uninitialised_flags st Hun) as [Hmode Hdis].
  split; [unfold dgr_is_enabled; now rewrite Hdis|].
  split; [unfold dgr_is_master; now rewrite Hmode|]. clear st Hun Hmode Hdis.
  split; [destruct byte_order; vm_compute; reflexivity|].
  split; [destruct byte_order; vm_compute; reflexivity|].
  intros st Hinv.
  exists (set_list [] (set_disabled 1 st)).
  assert (Hinit : dgr_init st = Done (tt, set_list [] (set_disabled 1 st))).
  { unfold dgr_init. unfold mode_is_valid in Hinv.
    change (getenv "DGR_MODE" (set_disabled 1 st)) with (getenv "DGR_MODE" st).
    assert (Hfree : (if dgr_list_size (set_disabled 1 st) >? 0
                     then dgr_free (set_disabled 1 st)
                     else Done (tt, set_disabled 1 st))
                    = Done (tt, set_list [] (set_disabled 1 st))).
    { unfold dgr_list_size, dgr_free.
      destruct (dgr_list (set_disabled 1 st)) as [|r l] eqn:El.
      - change (len [] >? 0) with false. cbv iota. do 2 f_equal.
        cbn in El. unfold set_list, set_disabled. cbn. now rewrite El.
      - rewrite len_cons. pose proof (len_nonneg l).
        destruct (Z.gtb_spec (1 + len l) 0); [reflexivity|lia]. }
    destruct (getenv "DGR_MODE" st) as [m|]; [|exact Hfree].
    apply orb_false_iff in Hinv as [-> ->]. exact Hfree. }
  split; [exact Hinit|]. split; [reflexivity|]. split.
  - unfold dgr_update, dgr_send, dgr_receive. cbn.
    now destruct (truthy (dgr_mode st)), (dgr_time_lastreceive st =? 0).
  - intros name buffer bufferSize. reflexivity.
Qed.

End Cycle.

(** * Further properties of the code *)

Section More.

Variable byte_order : endianness.

(** ** Looking a name up *)

Lemma findIndex_from_first (name : list byte) (l : list dgr_record) (i : Z)
  (r : dgr_record) :
  find_record name l = Some r ->
  exists k : nat,
    findIndex_from l i name = i + Z.of_nat k
    /\ l !! k = Some r
    /\ forall (j : nat) (r' : dgr_record),
         (j < k)%nat -> l !! j = Some r' -> rec_name r' <> name.
Proof.
  revert i. induction l as [|r0 l IH]; intros i; cbn; [discriminate|].
  destruct (Z.eqb_spec (strcmp name (rec_name r0)) 0) as [E|E].
  - intros [= <-]. exists 0%nat. repeat split; [lia|]. intros j r' Hj. lia.
  - intros H. destruct (IH (i + 1) H) as (k & H1 & H2 & H3).
    exists (S k). repeat split; [lia|exact H2|].
    intros [|j] r' Hj; cbn.
    + intros [= <-] En. apply E. apply strcmp_eq. now symmetry.
    + apply H3. lia.
Qed.

(** X1.  [dgr_findIndex] returns -1 exactly when no record has the name.
    Otherwise it returns the index of a slot in use whose record has the
    name, and no slot before it has that name. *)
Theorem dgr_findIndex_first_match (name : list byte) (st : dgr_state) :
  (dgr_findIndex name st = -1 <-> ~ In name (map rec_name (dgr_list st)))
  /\ (dgr_findIndex name st <> -1 ->
      exists (k : nat) (r : dgr_record),
        dgr_findIndex name st = Z.of_nat k
        /\ 0 <= dgr_findIndex name st < dgr_list_size st
        /\ dgr_list st !! k = Some r
        /\ rec_name r = name
        /\ forall (j : nat) (r' : dgr_record),
             (j < k)%nat -> dgr_list st !! j = Some r' -> rec_name r' <> name).
Proof.
  unfold dgr_findIndex.
  destruct (find_record name (dgr_list st)) as [r|] eqn:Ef.
  - destruct (findIndex_from_first _ _ 0 _ Ef) as (k & Hk & Hl & Hfirst).
    rewrite Hk, Z.add_0_l. split.
    + split; [lia|]. intros Hn. apply find_record_None in Hn. congruence.
    + intros _. exists k, r. split; [reflexivity|].
      split; [|split; [exact Hl|split; [|exact Hfirst]]].
      * apply lookup_lt_Some in Hl. unfold dgr_list_size, len. lia.
      * eapply find_record_name, Ef.
  - destruct (findIndex_from_None _ _ 0 Ef) as [-> _]. split.
    + split; [|reflexivity]. intros _. now apply find_record_None.
    + intros H. now contradiction H.
Qed.

(** ** Set and get *)

(** What [dgr_set] leaves when it returns on an enabled session. *)
Lemma dgr_set_Done_registry (name buffer : list byte) (size : Z)
  (st st' : dgr_state) :
  dgr_disabled st = 0 ->
  dgr_set name buffer size st = Done (tt, st') ->
  exists block,
    st' = set_list (registry_set name (mk_record name size block)
                      (dgr_list st)) st.
Proof.
  intros Hen. unfold dgr_set. rewrite Hen, truthy_0.
  destruct (find_record name (dgr_list st)) as [r0|] eqn:Ef.
  - destruct (dgr_findIndex_Some _ _ _ Ef) as (k & -> & Hk & Hins).
    destruct (Z.eqb_spec (Z.of_nat k) (-1)); [lia|].
    rewrite Nat2Z.id, Hk. pose proof (find_record_name _ _ _ Ef) as Hn.
    destruct (Z.eqb_spec (rec_size r0) size) as [Es|Es]; cbn [negb obind].
    + destruct (memcpy _ _ _ _ _) as [block| | |]; cbn [obind];
        try discriminate.
      intros [= <-]. exists block. now rewrite Hins, Hn, Es.
    + destruct (malloc size) as [b0| | |]; cbn [obind]; try discriminate.
      cbn [rec_buffer rec_name rec_size].
      destruct (memcpy _ _ _ _ _) as [block| | |]; cbn [obind];
        try discriminate.
      intros [= <-]. exists block. now rewrite Hins, Hn.
  - rewrite (dgr_findIndex_None _ _ Ef). cbn [Z.eqb Pos.eqb].
    destruct (dgr_list_size st >? DGR_MAX_LIST_SIZE); [discriminate|].
    destruct (dgr_list_size st >=? DGR_MAX_LIST_SIZE); [discriminate|].
    destruct (strlen name + 1 >? NAME_SIZE); [discriminate|].
    destruct (malloc size) as [b0| | |]; cbn [obind]; try discriminate.
    destruct (memcpy _ _ _ _ _) as [block| | |]; cbn [obind];
      try discriminate.
    intros [= <-]. exists block.
    now destruct (findIndex_from_None _ _ 0 Ef) as [_ ->].
Qed.

(** The same with a well-formed registry: the block holds the first [size]
    bytes given. *)
Lemma dgr_set_Done_wf (name buffer : list byte) (size : Z)
  (st st' : dgr_state) :
  dgr_disabled st = 0 ->
  wf_registry (dgr_list st) = true ->
  dgr_set name buffer size st = Done (tt, st') ->
  st' = set_list (registry_set name
                    (mk_record name size (take (Z.to_nat size) buffer))
                    (dgr_list st)) st
  /\ 0 <= size <= len buffer
  /\ strlen name + 1 <= NAME_SIZE
  /\ (find_record name (dgr_list st) = None ->
      dgr_list_size st < DGR_MAX_LIST_SIZE).
Proof.
  intros Hen Hwf Hd.
  pose proof (dgr_set_Done_size _ _ _ _ _ Hen Hd) as Hsize.
  destruct (find_record name (dgr_list st)) as [r|] eqn:Ef.
  - pose proof Hwf as Hwf'. apply wf_registry_spec in Hwf' as (Hall & _).
    specialize (Hall r (find_record_In _ _ _ Ef)).
    apply wf_record_spec in Hall as (_ & Hn & Hsz).
    rewrite (find_record_name _ _ _ Ef) in Hn.
    rewrite (dgr_set_known _ _ _ _ r) in Hd; try assumption; [|lia].
    injection Hd as <-. repeat split; try lia. discriminate.
  - assert (Hg : dgr_list_size st < DGR_MAX_LIST_SIZE
                 /\ strlen name + 1 <= NAME_SIZE).
    { unfold dgr_set in Hd. rewrite Hen, truthy_0 in Hd.
      rewrite (dgr_findIndex_None _ _ Ef) in Hd. cbn [Z.eqb Pos.eqb] in Hd.
      destruct (Z.gtb_spec (dgr_list_size st) DGR_MAX_LIST_SIZE);
        [discriminate|].
      destruct (Z.geb_spec (dgr_list_size st) DGR_MAX_LIST_SIZE);
        [discriminate|].
      destruct (Z.gtb_spec (strlen name + 1) NAME_SIZE); [discriminate|].
      lia. }
    destruct Hg as [Hcap Hn].
    rewrite dgr_set_new in Hd by assumption.
    injection Hd as <-.
    destruct (findIndex_from_None _ _ 0 Ef) as [_ ->].
    repeat split; try lia.
Qed.

(** X2.  Insert and look up.  On an enabled session with a well-formed
    registry, [dgr_set] returns when it is given [size] bytes to copy, a
    name that fits and a registry that has the name or a free slot; and
    whenever it returns, [dgr_get] of the name into a buffer of [size]
    bytes or more returns [size] and writes exactly the first [size] bytes
    that were set, leaving the rest of the buffer. *)
Theorem dgr_set_then_get (name buffer : list byte) (size : Z)
  (st : dgr_state) :
  dgr_disabled st = 0 ->
  wf_registry (dgr_list st) = true ->
  (0 <= size <= len buffer ->
   strlen name + 1 <= NAME_SIZE ->
   find_record name (dgr_list st) <> None
   \/ dgr_list_size st < DGR_MAX_LIST_SIZE ->
   exists st', dgr_set name buffer size st = Done (tt, st'))
  /\ (forall st' out outSize,
        dgr_set name buffer size st = Done (tt, st') ->
        size <= outSize <= len out ->
        dgr_get name out outSize st'
        = Done ((size, take (Z.to_nat size) buffer
                       ++ drop (Z.to_nat size) out), st')).
Proof.
  intros Hen Hwf. split.
  - intros Hsize Hn Hroom.
    destruct (find_record name (dgr_list st)) as [r|] eqn:Ef.
    + eexists. apply (dgr_set_known _ _ _ _ r); try assumption.
      intros E. apply wf_registry_spec in Hwf as (Hall & _).
      specialize (Hall r (find_record_In _ _ _ Ef)).
      apply wf_record_spec in Hall. lia.
    + eexists. apply dgr_set_new; try assumption.
      destruct Hroom as [H|H]; [now contradiction H|exact H].
  - intros st' out outSize Hd Hout.
    destruct (dgr_set_Done_wf _ _ _ _ _ Hen Hwf Hd) as (-> & Hsize & _).
    set (r' := mk_record name size (take (Z.to_nat size) buffer)).
    apply (dgr_get_copies name out outSize _ r'); try assumption.
    + cbn [dgr_list set_list]. now apply find_record_set_same.
    + subst r'. cbn [rec_size rec_buffer]. unfold len in *.
      rewrite length_take. lia.
Qed.

(** X3.  [dgr_set] of one name does not change what [dgr_get] gives for
    another name: the return value and the bytes written are the same
    before and after, for every buffer. *)
Theorem dgr_set_keeps_other_names (name name' buffer : list byte) (size : Z)
  (st st' : dgr_state) :
  dgr_set name buffer size st = Done (tt, st') ->
  name' <> name ->
  forall out outSize,
    dgr_get name' out outSize st'
    = (let* '(res, _) := dgr_get name' out outSize st in Done (res, st')).
Proof.
  intros Hd Hne out outSize.
  destruct (Z.eq_dec (dgr_disabled st) 0) as [Hen|Hdis].
  - destruct (dgr_set_Done_registry _ _ _ _ _ Hen Hd) as [block ->].
    rewrite !dgr_get_spec by assumption. cbn [dgr_list set_list].
    rewrite find_record_set_other by (reflexivity || assumption).
    destruct (find_record name' (dgr_list st)) as [r|]; [|reflexivity].
    destruct (outSize >=? rec_size r); [|reflexivity].
    now destruct (memcpy out 0 (rec_buffer r) 0 (rec_size r)).
  - unfold dgr_set in Hd.
    assert (Ht : truthy (dgr_disabled st) = true).
    { destruct (truthy (dgr_disabled st)) eqn:E; [reflexivity|].
      now apply truthy_false in E. }
    rewrite Ht in Hd. injection Hd as <-.
    unfold dgr_get. now rewrite Ht.
Qed.

Lemma registry_set_twice (name : list byte) (r1 r2 : dgr_record)
  (l : list dgr_record) :
  rec_name r1 = name ->
  registry_set name r2 (registry_set name r1 l) = registry_set name r2 l.
Proof.
  intros Hn. induction l as [|r l IH]; cbn.
  - now rewrite Hn, strcmp_refl.
  - destruct (strcmp name (rec_name r) =? 0) eqn:E; cbn.
    + now rewrite Hn, strcmp_refl.
    + now rewrite E, IH.
Qed.

(** X4.  The last set wins.  On an enabled session with a well-formed
    registry, when [dgr_set] of a name has returned, a second [dgr_set] of
    that name with [size2] bytes to copy returns, and leaves the session
    that this second call alone would have left: nothing of the first
    value, its size or its place remains. *)
Theorem dgr_set_last_wins (name buffer1 buffer2 : list byte)
  (size1 size2 : Z) (st st1 : dgr_state) :
  dgr_disabled st = 0 ->
  wf_registry (dgr_list st) = true ->
  dgr_set name buffer1 size1 st = Done (tt, st1) ->
  0 <= size2 <= len buffer2 ->
  dgr_set name buffer2 size2 st1 = dgr_set name buffer2 size2 st
  /\ dgr_set name buffer2 size2 st
     = Done (tt, set_list
                   (registry_set name
                      (mk_record name size2 (take (Z.to_nat size2) buffer2))
                      (dgr_list st)) st).
Proof.
  intros Hen Hwf Hd1 Hsize2.
  destruct (dgr_set_Done_wf _ _ _ _ _ Hen Hwf Hd1)
    as (-> & Hsize1 & Hn & Hroom).
  set (r1 := mk_record name size1 (take (Z.to_nat size1) buffer1)).
  set (r2 := mk_record name size2 (take (Z.to_nat size2) buffer2)).
  assert (H2 : dgr_set name buffer2 size2 st
               = Done (tt, set_list (registry_set name r2 (dgr_list st)) st)).
  { destruct (find_record name (dgr_list st)) as [r|] eqn:Ef.
    - apply (dgr_set_known _ _ _ _ r); try assumption.
      intros E. apply wf_registry_spec in Hwf as (Hall & _).
      specialize (Hall r (find_record_In _ _ _ Ef)).
      apply wf_record_spec in Hall. lia.
    - rewrite dgr_set_new; try assumption; [|now apply Hroom].
      now destruct (findIndex_from_None _ _ 0 Ef) as [_ ->]. }
  split; [|exact H2]. rewrite H2.
  rewrite (dgr_set_known _ _ _ _ r1); try assumption.
  - cbn [dgr_list set_list]. now rewrite registry_set_twice.
  - cbn [dgr_list set_list]. now apply find_record_set_same.
  - intros E. subst r1. cbn [rec_buffer rec_size] in E |- *.
    unfold len in *. rewrite length_take. lia.
Qed.

(** ** Names stay *)

Lemma keeps_slots_refl (l : list dgr_record) : keeps_slots l l.
Proof. intros i r H. eauto. Qed.

Lemma keeps_slots_trans (l1 l2 l3 : list dgr_record) :
  keeps_slots l1 l2 -> keeps_slots l2 l3 -> keeps_slots l1 l3.
Proof.
  intros H12 H23 i r H. destruct (H12 i r H) as (r2 & H2 & E2).
  destruct (H23 i r2 H2) as (r3 & H3 & E3). exists r3. split; congruence.
Qed.

Lemma keeps_slots_length (l l' : list dgr_record) :
  keeps_slots l l' -> len l <= len l'.
Proof.
  intros H. unfold len. destruct l as [|r0 l0] eqn:El; [cbn; lia|].
  rewrite <- El in *.
  destruct (lookup_lt_is_Some_2 l (length l - 1)) as [r Hr];
    [rewrite El; cbn; lia|].
  destruct (H _ _ Hr) as (r' & Hr' & _). apply lookup_lt_Some in Hr'. lia.
Qed.

Lemma registry_set_keeps_slots (name : list byte) (r' : dgr_record)
  (l : list dgr_record) :
  rec_name r' = name -> keeps_slots l (registry_set name r' l).
Proof.
  intros Hn. induction l as [|r0 l IH]; intros i r; [discriminate|].
  cbn [registry_set].
  destruct (Z.eqb_spec (strcmp name (rec_name r0)) 0) as [E|E].
  - apply strcmp_eq in E. destruct i as [|i]; cbn.
    + intros [= <-]. exists r'. split; congruence.
    + eauto.
  - destruct i as [|i]; cbn; [eauto|]. apply IH.
Qed.

Lemma dgr_set_keeps_slots (name buffer : list byte) (size : Z)
  (st st' : dgr_state) :
  dgr_set name buffer size st = Done (tt, st') ->
  keeps_slots (dgr_list st) (dgr_list st').
Proof.
  intros Hd. destruct (Z.eq_dec (dgr_disabled st) 0) as [Hen|Hdis].
  - destruct (dgr_set_Done_registry _ _ _ _ _ Hen Hd) as [block ->].
    cbn [dgr_list set_list]. now apply registry_set_keeps_slots.
  - unfold dgr_set in Hd.
    assert (Ht : truthy (dgr_disabled st) = true).
    { destruct (truthy (dgr_disabled st)) eqn:E; [reflexivity|].
      now apply truthy_false in E. }
    rewrite Ht in Hd. injection Hd as <-. apply keeps_slots_refl.
Qed.

Lemma apply_records_keeps_slots (kvs : list dgr_record) (st st' : dgr_state) :
  apply_records kvs st = Done (tt, st') ->
  keeps_slots (dgr_list st) (dgr_list st').
Proof.
  revert st. induction kvs as [|r kvs IH]; intros st; cbn [apply_records].
  - intros [= <-]. apply keeps_slots_refl.
  - destruct (dgr_set _ _ _ st) as [[[] st1]| | |] eqn:Es; cbn [obind];
      try discriminate.
    intros Ha. eapply keeps_slots_trans;
      [eapply dgr_set_keeps_slots, Es|now apply IH].
Qed.

Lemma dgr_unserialize_keeps_slots (size : Z) (serialized : list byte)
  (st st' : dgr_state) :
  dgr_unserialize byte_order size serialized st = Done (tt, st') ->
  keeps_slots (dgr_list st) (dgr_list st').
Proof.
  intros Hd. destruct (unserialize_loop_Done _ _ _ _ _ _ _ Hd) as [kvs Hp].
  unfold dgr_unserialize in Hd.
  rewrite (unserialize_loop_parse _ _ _ _ _ _ _ Hp) in Hd.
  now apply (apply_records_keeps_slots kvs).
Qed.

Lemma dgr_update_keeps_slots (st st' : dgr_state) :
  dgr_update byte_order st = Done (tt, st') ->
  keeps_slots (dgr_list st) (dgr_list st').
Proof.
  assert (Hrecv : forall timeout,
             dgr_receive byte_order timeout st = Done (tt, st') ->
             keeps_slots (dgr_list st) (dgr_list st')).
  { intros timeout. unfold dgr_receive.
    destruct (truthy (dgr_disabled st));
      [intros [= <-]; apply keeps_slots_refl|].
    cbv zeta.
    destruct (negb _ && _); [discriminate|].
    destruct (poll timeout st) as [[retval st1]| | |] eqn:Ep; cbn [obind];
      try discriminate.
    apply poll_writes_world in Ep.
    destruct (retval =? -1); [discriminate|].
    destruct (retval =? 0).
    { destruct (timeout >? 0); [discriminate|]. intros [= <-].
      rewrite Ep. apply keeps_slots_refl. }
    destruct (receive_loop _ [] st1) as [[[numbytes buf] st2]| | |] eqn:El;
      cbn [obind]; try discriminate.
    apply receive_loop_writes_world in El.
    intros H. apply dgr_unserialize_keeps_slots in H.
    rewrite El, Ep in H. exact H. }
  unfold dgr_update. destruct (truthy (dgr_mode st)).
  - unfold dgr_send.
    destruct (truthy (dgr_disabled st));
      [intros [= <-]; apply keeps_slots_refl|].
    unfold dgr_serialize, sendto.
    repeat (match goal with
            | |- context [if ?b then _ else _] => destruct b
            | |- context [malloc ?n] => destruct (malloc n)
            | |- context [serialize_from ?a ?b ?c ?d] =>
                destruct (serialize_from a b c d)
            | |- context [mem_read ?a ?b ?c] => destruct (mem_read a b c)
            end; cbn [obind]); try discriminate; intros [= <-];
      apply keeps_slots_refl.
  - destruct (dgr_time_lastreceive st =? 0); apply Hrecv.
Qed.

Lemma dgr_setget_keeps_slots (name buffer buffer' : list byte)
  (bufferSize : Z) (st st' : dgr_state) :
  dgr_setget name buffer bufferSize st = Done (buffer', st') ->
  keeps_slots (dgr_list st) (dgr_list st').
Proof.
  unfold dgr_setget. destruct (truthy (dgr_disabled st)) eqn:Ed;
    [intros [= <- <-]; apply keeps_slots_refl|].
  destruct (truthy (dgr_mode st)).
  - destruct (dgr_set name buffer bufferSize st) as [[[] st1]| | |] eqn:Es;
      cbn [obind]; try discriminate.
    intros [= <- <-]. eapply dgr_set_keeps_slots, Es.
  - unfold dgr_get. rewrite Ed.
    repeat (match goal with
            | |- context [if ?b then _ else _] => destruct b
            | |- context [match ?o with Some _ => _ | None => _ end] => destruct o
            | |- context [memcpy ?a ?b ?c ?d ?e] => destruct (memcpy a b c d e)
            end; cbn [obind]); try discriminate; intros [= <- <-];
      apply keeps_slots_refl.
Qed.

(** X5.  [dgr_setget] and [dgr_update] remove no name and rename no
    slot.  Whenever one of them returns, every slot that was in use is
    still in use and holds a record with the same name (its size and data
    may have changed), and the number of records has not gone down.  (Only
    [dgr_init] empties the registry.) *)
Theorem names_never_removed (st : dgr_state) :
  (forall name buffer bufferSize buffer' st',
     dgr_setget name buffer bufferSize st = Done (buffer', st') ->
     keeps_slots (dgr_list st) (dgr_list st')
     /\ dgr_list_size st <= dgr_list_size st')
  /\ (forall st',
        dgr_update byte_order st = Done (tt, st') ->
        keeps_slots (dgr_list st) (dgr_list st')
        /\ dgr_list_size st <= dgr_list_size st').
Proof.
  split.
  - intros name buffer bufferSize buffer' st' H.
    apply dgr_setget_keeps_slots in H.
    split; [exact H|now apply keeps_slots_length].
  - intros st' H. apply dgr_update_keeps_slots in H.
    split; [exact H|now apply keeps_slots_length].
Qed.

(** ** Sessions a process can be in *)

(** X6.  On every session a process can reach through [dgr_init],
    [dgr_setget] and [dgr_update], the registry has at most 1024 records,
    no two records have the same name, every name is a C string that fits
    [char[1024]] with its terminator, every buffer has exactly [size]
    bytes, and a disabled session has no record at all. *)
Theorem reachable_registry_well_formed (st : dgr_state) :
  reachable byte_order st ->
  dgr_list_size st <= DGR_MAX_LIST_SIZE
  /\ List.NoDup (map rec_name (dgr_list st))
  /\ (forall r,
        In r (dgr_list st) ->
        ~ In x00 (rec_name r)
        /\ strlen (rec_name r) + 1 <= NAME_SIZE
        /\ rec_size r = len (rec_buffer r))
  /\ (dgr_disabled st <> 0 -> dgr_list st = []).
Proof.
  intros Hr. destruct (reachable_invariant byte_order st Hr) as [Hwf Hdis].
  apply wf_registry_spec in Hwf as (Hall & Hnd & Hlen).
  split; [exact Hlen|]. split; [exact Hnd|]. split; [|exact Hdis].
  intros r Hin. apply wf_record_spec. now apply Hall.
Qed.

(** X7.  On every session a process can reach, [dgr_get] into a buffer
    that has the [bufferSize] bytes the caller says it has always returns:
    it gives -3, -1 or -2 with the buffer as it was, or the size of the
    record, which is between 0 and [bufferSize]; the buffer keeps its
    length and the session is not changed. *)
Theorem dgr_get_safe (name buffer : list byte) (bufferSize : Z)
  (st : dgr_state) :
  reachable byte_order st ->
  bufferSize <= len buffer ->
  exists ret buffer',
    dgr_get name buffer bufferSize st = Done ((ret, buffer'), st)
    /\ len buffer' = len buffer
    /\ ((ret = -3 \/ ret = -1 \/ ret = -2) /\ buffer' = buffer
        \/ 0 <= ret <= bufferSize).
Proof.
  intros Hr Hcap. destruct (reachable_invariant byte_order st Hr) as [Hwf _].
  destruct (truthy (dgr_disabled st)) eqn:Ed.
  - exists (-3), buffer. unfold dgr_get. rewrite Ed. intuition.
  - apply truthy_false in Ed. rewrite dgr_get_spec by assumption.
    destruct (find_record name (dgr_list st)) as [r|] eqn:Ef.
    + apply wf_registry_spec in Hwf as (Hall & _).
      specialize (Hall r (find_record_In _ _ _ Ef)).
      apply wf_record_spec in Hall as (_ & _ & Hsz).
      pose proof (len_nonneg (rec_buffer r)).
      destruct (Z.geb_spec bufferSize (rec_size r)).
      * pose proof (dgr_get_copies name buffer bufferSize st r Ed Ef Hsz
                      ltac:(lia)) as Hg.
        rewrite dgr_get_spec, Ef in Hg by assumption.
        destruct (bufferSize >=? rec_size r) eqn:Eg;
          [|destruct (Z.geb_spec bufferSize (rec_size r)); [discriminate|lia]].
        rewrite Hg. eexists _, _. split; [reflexivity|].
        split; [|right; lia].
        rewrite len_app. unfold len in *. rewrite length_drop. lia.
      * exists (-2), buffer. intuition.
    + exists (-1), buffer. intuition.
Qed.

(** X8.  On every session that a process reaches through calls that
    return, [dgr_setget] never calls [exit]: such a registry never has
    more than 1024 records, so the test
    [dgr_list_size > DGR_MAX_LIST_SIZE] of [dgr_set], the only [exit] on
    this path, cannot come out true.  What an enabled master meets with a
    new name and 1024 records is the write to [dgr_list[1024]], after the
    array (C5); the test can come out true only in a run that went on
    after that write. *)
Theorem dgr_setget_never_exits (name buffer : list byte) (bufferSize : Z)
  (st : dgr_state) (code : Z) :
  reachable byte_order st ->
  dgr_setget name buffer bufferSize st <> Exit code
  /\ (dgr_disabled st = 0 ->
      dgr_mode st <> 0 ->
      find_record name (dgr_list st) = None ->
      dgr_list_size st = DGR_MAX_LIST_SIZE ->
      dgr_setget name buffer bufferSize st = Undef OutOfBounds).
Proof.
  intros Hr. destruct (reachable_invariant byte_order st Hr) as [Hwf _].
  split.
  - unfold dgr_setget. destruct (truthy (dgr_disabled st)) eqn:Ed;
      [discriminate|].
    destruct (truthy (dgr_mode st)).
    + pose proof (dgr_set_never_exits name buffer bufferSize st code Hwf)
        as Hs.
      destruct (dgr_set name buffer bufferSize st) as [[[] st1]| | |];
        cbn [obind]; congruence.
    + unfold dgr_get, memcpy, mem_read, mem_write. rewrite Ed.
      repeat (match goal with
              | |- context [if ?b then _ else _] => destruct b
              | |- context [match ?o with Some _ => _ | None => _ end] =>
                  destruct o
              end; cbn [obind]); discriminate.
  - intros Hen Hm Hf Hfull. unfold dgr_setget. rewrite Hen, truthy_0.
    assert (Ht : truthy (dgr_mode st) = true).
    { unfold truthy. now destruct (Z.eqb_spec (dgr_mode st) 0). }
    rewrite Ht, (dgr_set_full name buffer bufferSize st Hen Hf Hfull).
    reflexivity.
Qed.

(** ** Bytes that are not a packet *)

Lemma dgr_unserialize_first_fails (size : Z) (serialized : list byte)
  (st : dgr_state) (f : fault) :
  0 < size ->
  read_record byte_order serialized 0 = Undef f ->
  dgr_unserialize byte_order size serialized st = Undef f.
Proof.
  intros Hsize Hr. unfold dgr_unserialize.
  destruct (Z.to_nat size) as [|fuel] eqn:En; [lia|].
  cbn [unserialize_loop].
  destruct (Z.ltb_spec 0 size); [|lia]. now rewrite Hr.
Qed.

Lemma read_name_overrun (chars rest acc : list byte) (c : Z) :
  c_string chars = true ->
  NAME_SIZE <= c + len chars ->
  read_name (chars ++ rest) c acc = Undef OutOfBounds.
Proof.
  revert c acc. induction chars as [|ch chars IH]; intros c acc Hc Hlen.
  - change (len []) with 0 in Hlen. cbn [app].
    destruct rest as [|ch rest]; cbn; [reflexivity|].
    destruct (Z.ltb_spec c NAME_SIZE); [lia|].
    now destruct (Byte.eqb ch x00).
  - unfold c_string in Hc. cbn in Hc. apply andb_true_iff in Hc as [Hch Hc].
    apply negb_true_iff in Hch. cbn. rewrite Hch.
    destruct (Z.ltb_spec c NAME_SIZE); [|reflexivity].
    apply IH; [exact Hc|]. rewrite len_cons in Hlen. lia.
Qed.

Lemma read_name_unterminated (chars acc : list byte) (c : Z) :
  c_string chars = true ->
  read_name chars c acc = Undef OutOfBounds.
Proof.
  revert c acc. induction chars as [|ch chars IH]; intros c acc Hc;
    [reflexivity|].
  unfold c_string in Hc. cbn in Hc. apply andb_true_iff in Hc as [Hch Hc].
  apply negb_true_iff in Hch. cbn. rewrite Hch.
  destruct (c <? NAME_SIZE); [|reflexivity]. now apply IH.
Qed.

(** X9.  A name of 1024 bytes or more.  When the input begins with 1024
    or more bytes that are not 0, [dgr_unserialize] writes past its
    [char name[1024]], whatever follows: no record is set, no error is
    reported, the behaviour is undefined. *)
Theorem dgr_unserialize_name_too_long (size : Z) (chars rest : list byte)
  (st : dgr_state) :
  0 < size ->
  c_string chars = true ->
  NAME_SIZE <= len chars ->
  dgr_unserialize byte_order size (chars ++ rest) st = Undef OutOfBounds.
Proof.
  intros Hsize Hc Hlen. apply dgr_unserialize_first_fails; [exact Hsize|].
  unfold read_record. change (Z.to_nat 0) with 0%nat. rewrite drop_0.
  rewrite read_name_overrun by (try assumption; lia). reflexivity.
Qed.

(** X10.  No terminator.  When no byte of the object is 0,
    [dgr_unserialize] of a positive length runs over the end of the object
    (or of [name]) while it looks for the end of the first name: the loop
    that reads a name has no test against the length of the input. *)
Theorem dgr_unserialize_no_terminator (size : Z) (serialized : list byte)
  (st : dgr_state) :
  0 < size ->
  c_string serialized = true ->
  dgr_unserialize byte_order size serialized st = Undef OutOfBounds.
Proof.
  intros Hsize Hc. apply dgr_unserialize_first_fails; [exact Hsize|].
  unfold read_record. change (Z.to_nat 0) with 0%nat. rewrite drop_0.
  rewrite read_name_unterminated by assumption. reflexivity.
Qed.

(** X11.  A negative size field.  When the first record of the input has
    a name that fits and a size field below 0, [dgr_unserialize] declares
    [char data[size]] and copies with that size: nothing is set and the
    behaviour is undefined, whatever follows the field. *)
Theorem dgr_unserialize_negative_size (size z : Z) (name rest : list byte)
  (st : dgr_state) :
  0 < size ->
  c_string name = true ->
  strlen name + 1 <= NAME_SIZE ->
  INT_MIN <= z < 0 ->
  dgr_unserialize byte_order size
    (name ++ [x00] ++ store_int byte_order z ++ rest) st
  = Undef NegativeLength.
Proof.
  intros Hsize Hc Hn Hz. apply dgr_unserialize_first_fails; [exact Hsize|].
  unfold read_record. change (Z.to_nat 0) with 0%nat. rewrite drop_0.
  cbn [app].
  rewrite read_name_wire by (try assumption; unfold strlen in *; lia).
  cbn [app obind].
  replace (0 + strlen name + 1) with (len (name ++ [x00]))
    by (rewrite len_app; change (len [x00]) with 1; unfold strlen; lia).
  replace (name ++ x00 :: store_int byte_order z ++ rest)
    with ((name ++ [x00]) ++ store_int byte_order z ++ rest)
    by now rewrite <- app_assoc.
  rewrite <- (len_store_int byte_order z) at 1.
  rewrite mem_read_app. cbn [obind].
  rewrite load_store_int by (unfold INT_MAX, INT_MIN in *; lia).
  destruct (Z.ltb_spec z 0); [reflexivity|lia].
Qed.

(** ** Packets *)

(** X12.  Two registries of well-formed records for which [dgr_serialize]
    returns the same bytes hold the same records in the same order: the
    packet determines the registry. *)
Theorem dgr_serialize_injective (st1 st2 st1' st2' : dgr_state)
  (size1 size2 : Z) (serialized : list byte) :
  forallb wf_record (dgr_list st1) = true ->
  forallb wf_record (dgr_list st2) = true ->
  dgr_serialize byte_order st1 = Done ((size1, serialized), st1') ->
  dgr_serialize byte_order st2 = Done ((size2, serialized), st2') ->
  dgr_list st1 = dgr_list st2.
Proof.
  intros Hwf1 Hwf2 Hs1 Hs2.
  pose proof (dgr_serialize_Done _ _ _ _ _ Hwf1 Hs1) as Hmax1.
  pose proof (dgr_serialize_Done _ _ _ _ _ Hwf2 Hs2) as Hmax2.
  rewrite dgr_serialize_wire in Hs1, Hs2 by assumption.
  injection Hs1 as _ E1 _. injection Hs2 as _ E2 _.
  pose proof (parse_packet_wire byte_order _ Hwf1 Hmax1) as P1.
  pose proof (parse_packet_wire byte_order _ Hwf2 Hmax2) as P2.
  rewrite E1 in P1. rewrite E2 in P2. congruence.
Qed.

Lemma apply_records_app (l1 l2 : list dgr_record) (st : dgr_state) :
  apply_records (l1 ++ l2) st
  = (let* '(_, st1) := apply_records l1 st in apply_records l2 st1).
Proof.
  revert st. induction l1 as [|r l1 IH]; intros st; cbn [app apply_records].
  - reflexivity.
  - destruct (dgr_set _ _ _ st) as [[[] st1]| | |]; cbn [obind];
      try reflexivity.
    apply IH.
Qed.

(** X13.  Two packets in one input.  For registries of well-formed
    records, the packet of the one followed by the packet of the other,
    unserialized as one input, does what unserializing the first and then
    the second does: the format has no header or count, the loop reads
    record after record to the end. *)
Theorem dgr_unserialize_concatenation (l1 l2 : list dgr_record)
  (st : dgr_state) :
  forallb wf_record l1 = true ->
  forallb wf_record l2 = true ->
  len (wire_packet byte_order l1 ++ wire_packet byte_order l2) <= INT_MAX ->
  dgr_unserialize byte_order
    (len (wire_packet byte_order l1 ++ wire_packet byte_order l2))
    (wire_packet byte_order l1 ++ wire_packet byte_order l2) st
  = (let* '(_, st1) :=
       dgr_unserialize byte_order (len (wire_packet byte_order l1))
         (wire_packet byte_order l1) st in
     dgr_unserialize byte_order (len (wire_packet byte_order l2))
       (wire_packet byte_order l2) st1).
Proof.
  intros Hwf1 Hwf2 Hmax.
  assert (Happ : wire_packet byte_order l1 ++ wire_packet byte_order l2
                 = wire_packet byte_order (l1 ++ l2))
    by (unfold wire_packet; now rewrite map_app, concat_app).
  rewrite len_app in Hmax.
  pose proof (len_nonneg (wire_packet byte_order l1)).
  pose proof (len_nonneg (wire_packet byte_order l2)).
  rewrite Happ.
  rewrite (dgr_unserialize_parse byte_order _ _ (l1 ++ l2)).
  - rewrite apply_records_app.
    rewrite (dgr_unserialize_parse byte_order _ _ l1)
      by (apply parse_packet_wire; [assumption|lia]).
    destruct (apply_records l1 st) as [[[] st1]| | |]; cbn [obind];
      try reflexivity.
    rewrite (dgr_unserialize_parse byte_order _ _ l2)
      by (apply parse_packet_wire; [assumption|lia]).
    reflexivity.
  - apply parse_packet_wire.
    + rewrite forallb_app. now rewrite Hwf1, Hwf2.
    + rewrite <- Happ, len_app. lia.
Qed.

(** ** The master's update *)

Lemma dgr_update_master (st : dgr_state) :
  dgr_mode st <> 0 ->
  dgr_disabled st = 0 ->
  forallb wf_record (dgr_list st) = true ->
  sock_error (world st) = false ->
  len (wire_packet byte_order (dgr_list st)) <= MAX_DATAGRAM ->
  (dgr_list st = [] -> dgr_update byte_order st = Done (tt, st))
  /\ (dgr_list st <> [] ->
      dgr_update byte_order st
      = Done (tt, set_world
                    (set_sent (sock_sent (world st)
                               ++ [wire_packet byte_order (dgr_list st)])
                       (world st)) st)).
Proof.
  intros Hmode Hen Hwf Herr Hfit.
  assert (Ht : truthy (dgr_mode st) = true).
  { destruct (truthy (dgr_mode st)) eqn:E; [reflexivity|].
    now apply truthy_false in E. }
  unfold dgr_update, dgr_send. rewrite Ht, Hen, truthy_0.
  rewrite dgr_serialize_wire
    by (try assumption; unfold MAX_DATAGRAM, INT_MAX in *; lia).
  cbn [obind]. split.
  - intros ->. reflexivity.
  - intros Hne. destruct (dgr_list st) as [|r l] eqn:El; [contradiction|].
    rewrite <- El in *.
    assert (Hpos : 0 < len (wire_packet byte_order (dgr_list st))).
    { rewrite El, wire_packet_cons, len_app, len_wire_record.
      pose proof (len_nonneg (rec_name r)). pose proof (len_nonneg (rec_buffer r)).
      pose proof (len_nonneg (wire_packet byte_order l)).
      unfold strlen, sizeof_int. lia. }
    destruct (Z.eqb_spec (len (wire_packet byte_order (dgr_list st))) 0);
      [lia|].
    unfold dgr_list_size.
    destruct (Z.eqb_spec (len (dgr_list st)) 0) as [E0|_];
      [rewrite El, len_cons in E0; pose proof (len_nonneg l); lia|].
    cbn [orb]. unfold sendto. rewrite Herr.
    destruct (Z.gtb_spec (len (wire_packet byte_order (dgr_list st)))
                MAX_DATAGRAM); [lia|].
    cbn [orb]. rewrite mem_read_whole by lia. cbn [obind].
    rewrite to_nat_len, firstn_all.
    destruct (Z.eqb_spec (len (wire_packet byte_order (dgr_list st))) (-1));
      [lia|].
    rewrite Z.eqb_refl. reflexivity.
Qed.

(** X14.  An enabled master whose registry has well-formed records and a
    packet that fits a datagram, on a socket without error: [dgr_update]
    with an empty registry sends nothing and changes nothing; with records
    it sends the whole packet of the registry as one datagram and changes
    nothing else. *)
Theorem master_update_sends_snapshot (st : dgr_state) :
  dgr_mode st <> 0 ->
  dgr_disabled st = 0 ->
  forallb wf_record (dgr_list st) = true ->
  sock_error (world st) = false ->
  len (wire_packet byte_order (dgr_list st)) <= MAX_DATAGRAM ->
  (dgr_list st = [] -> dgr_update byte_order st = Done (tt, st))
  /\ (dgr_list st <> [] ->
      dgr_update byte_order st
      = Done (tt, set_world
                    (set_sent (sock_sent (world st)
                               ++ [wire_packet byte_order (dgr_list st)])
                       (world st)) st)).
Proof. exact (dgr_update_master st). Qed.

(** X15.  An error of the socket ends the process.  With [poll],
    [recvfrom] and [sendto] failing, [dgr_update] of an enabled slave
    calls [exit(1)], and so does [dgr_update] of an enabled master that
    has records to send. *)
Theorem transport_error_is_fatal (st : dgr_state) :
  sock_error (world st) = true ->
  dgr_disabled st = 0 ->
  (dgr_mode st = 0 -> dgr_update byte_order st = Exit 1)
  /\ (dgr_mode st <> 0 ->
      forallb wf_record (dgr_list st) = true ->
      dgr_list st <> [] ->
      len (wire_packet byte_order (dgr_list st)) <= INT_MAX ->
      dgr_update byte_order st = Exit 1).
Proof.
  intros Herr Hen. unfold dgr_update. split.
  - intros Hmode. rewrite Hmode, truthy_0.
    assert (Hr : forall timeout, dgr_receive byte_order timeout st = Exit 1).
    { intros timeout. unfold dgr_receive. rewrite Hen, truthy_0. cbv zeta.
      destruct (negb _ && _); [reflexivity|].
      unfold poll. now rewrite Herr. }
    destruct (dgr_time_lastreceive st =? 0); apply Hr.
  - intros Hmode Hwf Hne Hfit.
    assert (Ht : truthy (dgr_mode st) = true).
    { destruct (truthy (dgr_mode st)) eqn:E; [reflexivity|].
      now apply truthy_false in E. }
    unfold dgr_send. rewrite Ht, Hen, truthy_0.
    rewrite dgr_serialize_wire by assumption. cbn [obind].
    destruct (dgr_list st) as [|r l] eqn:El; [contradiction|].
    rewrite <- El in *.
    assert (Hpos : 0 < len (wire_packet byte_order (dgr_list st))).
    { rewrite El, wire_packet_cons, len_app, len_wire_record.
      pose proof (len_nonneg (rec_name r)). pose proof (len_nonneg (rec_buffer r)).
      pose proof (len_nonneg (wire_packet byte_order l)).
      unfold strlen, sizeof_int. lia. }
    destruct (Z.eqb_spec (len (wire_packet byte_order (dgr_list st))) 0);
      [lia|].
    unfold dgr_list_size.
    destruct (Z.eqb_spec (len (dgr_list st)) 0) as [E0|_];
      [rewrite El, len_cons in E0; pose proof (len_nonneg l); lia|].
    cbn [orb]. unfold sendto. rewrite Herr. reflexivity.
Qed.

(** ** The slave's update *)

(** X16.  An empty datagram.  For an enabled slave inside its liveness
    window whose newest queued datagram has no bytes, [dgr_update] takes
    all datagrams from the socket, sets the time of the last receive to
    now and leaves the registry as it was: the datagram counts as a sign
    of life and the older datagrams are dropped with it. *)
Theorem slave_update_empty_datagram (st : dgr_state)
  (older : list (list byte)) :
  dgr_mode st = 0 ->
  dgr_disabled st = 0 ->
  sock_error (world st) = false ->
  dgr_time_lastreceive st = 0 \/ time_now st - dgr_time_lastreceive st < 15 ->
  sock_pending (world st) = older ++ [[]] ->
  dgr_update byte_order st
  = Done (tt, set_time_lastreceive (time_now st)
                (set_world (set_pending [] (world st)) st)).
Proof.
  intros Hmode Hen Herr Hlive Hq. unfold dgr_update.
  rewrite Hmode, truthy_0.
  assert (Hr : forall timeout,
             dgr_receive byte_order timeout st
             = Done (tt, set_time_lastreceive (time_now st)
                           (set_world (set_pending [] (world st)) st))).
  { intros timeout.
    rewrite (dgr_receive_drain byte_order timeout st older []) by assumption.
    reflexivity. }
  destruct (dgr_time_lastreceive st =? 0); apply Hr.
Qed.

(** X17.  The first update waits.  An enabled slave that never received,
    with nothing queued, a socket without error and a packet that arrives
    after [0 <= d <= 10000] milliseconds: [dgr_update] waits these [d]
    milliseconds, takes the packet, sets the time of the last receive to
    the time of the arrival and calls [dgr_set] on each triple of the
    packet. *)
Theorem slave_first_update_waits (st : dgr_state) (d : Z) (p : list byte)
  (rest : list (Z * list byte)) (kvs : list dgr_record) :
  dgr_mode st = 0 ->
  dgr_disabled st = 0 ->
  dgr_time_lastreceive st = 0 ->
  sock_error (world st) = false ->
  sock_pending (world st) = [] ->
  sock_arrivals (world st) = (d, p) :: rest ->
  0 <= d <= 10000 ->
  len p <= RECV_BUFFER_SIZE ->
  parse_packet byte_order (len p) p = Done kvs ->
  dgr_update byte_order st
  = apply_records kvs
      (set_time_lastreceive ((clock (world st) + d) / 1000)
         (set_world
            (set_pending []
               (set_arrivals rest (set_clock (clock (world st) + d) (world st))))
            st)).
Proof.
  intros Hmode Hen Hlast Herr Hq Ha Hd Hlen Hp.
  unfold dgr_update. rewrite Hmode, truthy_0, Hlast. cbn [Z.eqb].
  unfold dgr_receive. rewrite Hen, truthy_0, Hlast. cbn [Z.eqb negb andb].
  unfold poll. rewrite Herr, Hq, Ha. cbn [Z.eqb Z.ltb Z.compare orb].
  destruct (Z.leb_spec d 10000); [|lia]. cbn [obind Z.eqb].
  set (st1 := set_world _ st).
  rewrite (receive_loop_drain [] p _ [] st1);
    [|subst st1; cbn; exact Herr|reflexivity|subst st1; cbn; lia].
  cbn [obind fold_left].
  rewrite Z.min_l, received_into_whole by assumption.
  rewrite (dgr_unserialize_parse byte_order _ _ kvs)
    by now apply parse_packet_mono.
  reflexivity.
Qed.

(** ** From the master to the slave *)

Lemma last_binding_None (name : list byte) (l : list dgr_record) :
  find_record name l = None -> last_binding name l = None.
Proof.
  induction l as [|r l IH]; cbn; [reflexivity|].
  destruct (strcmp name (rec_name r) =? 0); [discriminate|].
  intros H. now rewrite IH.
Qed.

Lemma last_binding_distinct (l : list dgr_record) (r : dgr_record) :
  names_distinct l = true -> In r l ->
  last_binding (rec_name r) l = Some r.
Proof.
  induction l as [|r0 l IH]; cbn; [contradiction|].
  destruct (find_record (rec_name r0) l) eqn:Ef; [discriminate|].
  intros Hd [->|Hin].
  - now rewrite (last_binding_None _ _ Ef), strcmp_refl.
  - now rewrite (IH Hd Hin).
Qed.

(** X18.  One cycle from the master to the slave.  An enabled master with
    a well-formed registry that is not empty and fits a datagram updates:
    one datagram is sent and the registry of the master stays.  When that
    datagram is the newest one queued at an enabled slave inside its
    liveness window, with a well-formed registry that has room, the update
    of the slave returns, and then every record of the master is the record
    of its name at the slave: [dgr_setget] of the name into a buffer large
    enough writes exactly the bytes the master holds. *)
Theorem master_slave_cycle (master slave : dgr_state)
  (older : list (list byte)) :
  dgr_mode master <> 0 ->
  dgr_disabled master = 0 ->
  wf_registry (dgr_list master) = true ->
  dgr_list master <> [] ->
  sock_error (world master) = false ->
  len (wire_packet byte_order (dgr_list master)) <= MAX_DATAGRAM ->
  dgr_mode slave = 0 ->
  dgr_disabled slave = 0 ->
  sock_error (world slave) = false ->
  dgr_time_lastreceive slave = 0
  \/ time_now slave - dgr_time_lastreceive slave < 15 ->
  wf_registry (dgr_list slave) = true ->
  len (dgr_list slave) + len (dgr_list master) <= DGR_MAX_LIST_SIZE ->
  exists master' packet,
    dgr_update byte_order master = Done (tt, master')
    /\ dgr_list master' = dgr_list master
    /\ sock_sent (world master') = sock_sent (world master) ++ [packet]
    /\ (sock_pending (world slave) = older ++ [packet] ->
        exists slave',
          dgr_update byte_order slave = Done (tt, slave')
          /\ forall r,
               In r (dgr_list master) ->
               find_record (rec_name r) (dgr_list slave') = Some r
               /\ forall out outSize,
                    rec_size r <= outSize <= len out ->
                    dgr_setget (rec_name r) out outSize slave'
                    = Done (rec_buffer r
                            ++ drop (Z.to_nat (rec_size r)) out, slave')).
Proof.
  intros Hmm Hme Hmwf Hmne Hmerr Hfit Hsm Hse Hserr Hlive Hswf Hroom.
  pose proof Hmwf as Hmwf'.
  apply wf_registry_spec in Hmwf' as (Hall & Hnd & _).
  assert (Hrecs : forallb wf_record (dgr_list master) = true)
    by now apply List.forallb_forall.
  destruct (dgr_update_master master Hmm Hme Hrecs Hmerr Hfit)
    as [_ Hsend].
  eexists _, (wire_packet byte_order (dgr_list master)).
  split; [now apply Hsend|]. split; [reflexivity|]. split; [reflexivity|].
  intros Hq.
  destruct (slave_update_newest_wins byte_order slave Hsm Hse Hserr Hlive)
    as (Hnew & _ & _ & _).
  destruct (Hnew older (wire_packet byte_order (dgr_list master)) Hq)
    as (_ & Hpacket);
    [unfold MAX_DATAGRAM, RECV_BUFFER_SIZE in *; lia|].
  destruct (Hpacket (dgr_list master)) as (_ & Hmerge).
  { apply parse_packet_wire; [exact Hrecs|].
    unfold MAX_DATAGRAM, INT_MAX in *. lia. }
  destruct (Hmerge Hswf Hroom) as [Hd Hfind].
  eexists. split; [exact Hd|].
  intros r Hin.
  assert (Hf : find_record (rec_name r)
                 (registry_merge (dgr_list master) (dgr_list slave)) = Some r).
  { apply Hfind. apply last_binding_distinct; [|exact Hin].
    now apply names_distinct_spec. }
  split; [exact Hf|]. intros out outSize Hout.
  unfold dgr_setget. cbn [dgr_disabled dgr_mode set_list set_time_lastreceive
                            set_world].
  rewrite Hse, Hsm, truthy_0.
  rewrite (dgr_get_copies (rec_name r) out outSize _ r); try assumption.
  - reflexivity.
  - specialize (Hall r Hin). apply wf_record_spec in Hall. tauto.
Qed.

(** ** Start-up *)

Lemma free_if_any (st : dgr_state) :
  (if dgr_list_size st >? 0 then dgr_free st else Done (tt, st))
  = Done (tt, set_list [] st).
Proof.
  unfold dgr_list_size, dgr_free.
  destruct (dgr_list st) as [|r l] eqn:El.
  - change (len [] >? 0) with false. cbv iota. do 2 f_equal.
    unfold set_list. destruct st; cbn in *. now rewrite El.
  - rewrite len_cons. pose proof (len_nonneg l).
    destruct (Z.gtb_spec (1 + len l) 0); [reflexivity|lia].
Qed.

(** X19.  [dgr_init] with DGR_MODE set to "master".  Without
    DGR_MASTER_DEST_PORT, or when the socket cannot be set up, the process
    ends.  Otherwise the call returns a master with an empty registry, and
    the master is disabled exactly when DGR_MASTER_DEST_IP is not set or is
    "0.0.0.0"; the time of the last receive and the world are not
    written. *)
Theorem dgr_init_master_mode (st : dgr_state) :
  getenv "DGR_MODE" st = Some (list_byte_of_string "master") ->
  dgr_init st
  = match getenv "DGR_MASTER_DEST_PORT" st with
    | None => Exit 1
    | Some _ =>
        if net_setup_ok (world st) then
          Done (tt, mk_state [] (dgr_time_lastreceive st) 1
                      (match getenv "DGR_MASTER_DEST_IP" st with
                       | None => 1
                       | Some ip =>
                           if strcmp ip (list_byte_of_string "0.0.0.0") =? 0
                           then 1 else 0
                       end)
                      (world st))
        else Exit 1
    end.
Proof.
  intros Hm. unfold dgr_init. rewrite Hm.
  change (strcmp (list_byte_of_string "master") (list_byte_of_string "master")
          =? 0) with true. cbv iota.
  unfold dgr_init_master.
  change (getenv "DGR_MASTER_DEST_IP" (set_disabled 0 (set_mode 1 (set_disabled 1 st))))
    with (getenv "DGR_MASTER_DEST_IP" st).
  change (getenv "DGR_MASTER_DEST_PORT" (set_disabled 0 (set_mode 1 (set_disabled 1 st))))
    with (getenv "DGR_MASTER_DEST_PORT" st).
  destruct (getenv "DGR_MASTER_DEST_PORT" st) as [port|]; [|reflexivity].
  destruct (getenv "DGR_MASTER_DEST_IP" st) as [ip|].
  - destruct (strcmp ip (list_byte_of_string "0.0.0.0") =? 0);
      cbn [world set_disabled set_mode];
      (destruct (net_setup_ok (world st)); [|reflexivity]);
      cbn [obind]; now rewrite free_if_any.
  - cbn [world set_disabled set_mode].
    destruct (net_setup_ok (world st)); [|reflexivity].
    cbn [obind]. now rewrite free_if_any.
Qed.

(** X20.  [dgr_init] with DGR_MODE set to "slave".  Without
    DGR_SLAVE_LISTEN_PORT, or when the socket cannot be set up, the process
    ends.  Otherwise the call returns an enabled slave with an empty
    registry that counts as never having received: its first [dgr_update]
    waits up to 10 seconds again. *)
Theorem dgr_init_slave_mode (st : dgr_state) :
  getenv "DGR_MODE" st = Some (list_byte_of_string "slave") ->
  dgr_init st
  = match getenv "DGR_SLAVE_LISTEN_PORT" st with
    | None => Exit 1
    | Some _ =>
        if net_setup_ok (world st) then Done (tt, mk_state [] 0 0 0 (world st))
        else Exit 1
    end.
Proof.
  intros Hm. unfold dgr_init. rewrite Hm.
  change (strcmp (list_byte_of_string "slave") (list_byte_of_string "master")
          =? 0) with false.
  change (strcmp (list_byte_of_string "slave") (list_byte_of_string "slave")
          =? 0) with true. cbv iota.
  unfold dgr_init_slave.
  change (getenv "DGR_SLAVE_LISTEN_PORT" (set_disabled 0 (set_mode 0 (set_disabled 1 st))))
    with (getenv "DGR_SLAVE_LISTEN_PORT" st).
  destruct (getenv "DGR_SLAVE_LISTEN_PORT" st) as [port|]; [|reflexivity].
  cbn [world set_disabled set_mode set_time_lastreceive].
  destruct (net_setup_ok (world st)); [|reflexivity].
  cbn [obind]. now rewrite free_if_any.
Qed.

End More.

(** * The theorems at concrete sessions *)

Lemma serialize_unserialize_round_trip_witness :
  exists (size : Z) (serialized : list byte),
    dgr_serialize LittleEndian example_master
    = Done ((size, serialized), example_master)
    /\ dgr_unserialize LittleEndian size serialized (initial_state idle_world)
       = Done (tt, set_list (dgr_list example_master) (initial_state idle_world)).
Proof.
  destruct (serialize_unserialize_round_trip LittleEndian example_master
              (initial_state idle_world))
    as (Hround & Hreturns).
  - reflexivity.
  - reflexivity.
  - reflexivity.
  - destruct Hreturns as (size & serialized & Hs).
    + vm_compute. discriminate.
    + exists size, serialized. split; [exact Hs|].
      apply (Hround size serialized example_master Hs).
Defined.

Lemma serialize_wire_format_witness :
  dgr_serialize LittleEndian example_master
  = Done ((len (wire_packet LittleEndian (dgr_list example_master)),
           wire_packet LittleEndian (dgr_list example_master)), example_master).
Proof.
  destruct (serialize_wire_format LittleEndian example_master)
    as (_ & Hreturns & _).
  - reflexivity.
  - apply Hreturns. vm_compute. discriminate.
Defined.

Lemma unserialize_merges_witness :
  dgr_unserialize LittleEndian (len (packet_AB LittleEndian x03))
    (packet_AB LittleEndian x03 ++ bytes_of "stale") example_x
  = Done (tt, set_list
                [mk_record (bytes_of "x") 4 [x01; x02; x03; x04];
                 mk_record (bytes_of "A") 1 [x03];
                 mk_record (bytes_of "B") 1 [x03]] example_x).
Proof.
  destruct (unserialize_merges LittleEndian
              (len (packet_AB LittleEndian x03))
              (packet_AB LittleEndian x03 ++ bytes_of "stale")
              example_x)
    as (Hmerge & _ & _).
  destruct (Hmerge [mk_record (bytes_of "A") 1 [x03];
                    mk_record (bytes_of "B") 1 [x03]])
    as (_ & _ & Hd).
  - vm_compute. reflexivity.
  - destruct Hd as [Hd _].
    + reflexivity.
    + reflexivity.
    + vm_compute. discriminate.
    + exact Hd.
Defined.

(** The case that C9 leaves to C2 and C3.  The datagram 'a' is no packet:
    its one byte does not read as a triple.  Received after the packet
    {xb: "zz"} it lies in the buffer before the bytes that packet left
    there, [dgr_unserialize] reads the name "ab", the size 2 and "zz"
    beyond the one byte it was given, and the record ab, which neither
    datagram names, is rewritten. *)
Lemma unserialize_over_read :
  parse_packet LittleEndian 1 (bytes_of "a") = Undef OutOfBounds
  /\ dgr_update LittleEndian example_over_read
     = Done (tt, set_list [mk_record (bytes_of "ab") 2 (bytes_of "zz")]
                   (set_time_lastreceive 20
                      (set_world (set_pending [] (world example_over_read))
                         example_over_read))).
Proof. split; vm_compute; reflexivity. Qed.

Lemma dgr_get_cases_witness :
  dgr_get (bytes_of "nope") [x00; x00; x00; x00] 4 example_x
  = Done ((-1, [x00; x00; x00; x00]), example_x)
  /\ dgr_get (bytes_of "x") [x00; x00] 2 example_x
     = Done ((-2, [x00; x00]), example_x)
  /\ dgr_get (bytes_of "x") [x00; x00; x00; x00; x00] 5 example_x
     = Done ((4, [x01; x02; x03; x04; x00]), example_x).
Proof.
  split; [|split].
  - destruct (dgr_get_cases (bytes_of "nope") [x00; x00; x00; x00] 4 example_x)
      as (H & _ & _); [reflexivity|vm_compute; discriminate|].
    apply H. vm_compute. intros [H1|[]]. discriminate H1.
  - destruct (dgr_get_cases (bytes_of "x") [x00; x00] 2 example_x)
      as (_ & H & _); [reflexivity|vm_compute; discriminate|].
    apply (H (mk_record (bytes_of "x") 4 [x01; x02; x03; x04]));
      [reflexivity|reflexivity].
  - destruct (dgr_get_cases (bytes_of "x") [x00; x00; x00; x00; x00] 5 example_x)
      as (_ & _ & H); [reflexivity|vm_compute; discriminate|].
    apply (H (mk_record (bytes_of "x") 4 [x01; x02; x03; x04]));
      [reflexivity|reflexivity|vm_compute; discriminate].
Defined.

Lemma dgr_set_resize_witness :
  dgr_set (bytes_of "score") [x09; x08] 2 example_received
  = Done (tt, set_list [mk_record (bytes_of "score") 2 [x09; x08]]
                example_received).
Proof.
  apply (dgr_set_resize LittleEndian (bytes_of "score") [x09; x08] 2
           example_received
           (mk_record (bytes_of "score") 4 (store_int LittleEndian 10))).
  - apply (reach_update LittleEndian
             (initial_state (score_world LittleEndian))).
    + apply reach_start.
    + vm_compute. reflexivity.
  - vm_compute. reflexivity.
  - vm_compute. discriminate.
  - vm_compute. split; discriminate.
Defined.

Lemma slave_update_newest_wins_example :
  dgr_update LittleEndian example_slave
  = Done (tt, set_list
                [mk_record (bytes_of "A") 1 [x03];
                 mk_record (bytes_of "B") 1 [x03]]
                (set_time_lastreceive 20
                   (set_world (set_pending [] (world example_slave))
                      example_slave))).
Proof.
  destruct (slave_update_newest_wins LittleEndian example_slave)
    as (Hnew & _ & _ & _).
  - reflexivity.
  - reflexivity.
  - reflexivity.
  - right. vm_compute. reflexivity.
  - destruct (Hnew [packet_AB LittleEndian x01; packet_AB LittleEndian x02]
                (packet_AB LittleEndian x03))
      as (_ & Hpacket).
    + reflexivity.
    + vm_compute. discriminate.
    + destruct (Hpacket [mk_record (bytes_of "A") 1 [x03];
                         mk_record (bytes_of "B") 1 [x03]])
        as (_ & Hmerge).
      * vm_compute. reflexivity.
      * destruct Hmerge as [Hd _].
        -- reflexivity.
        -- vm_compute. discriminate.
        -- exact Hd.
Defined.

Lemma slave_update_liveness_witness :
  dgr_update LittleEndian example_late_slave = Exit 1
  /\ dgr_update LittleEndian (initial_state idle_world) = Exit 1.
Proof.
  split.
  - destruct (slave_update_liveness LittleEndian example_late_slave)
      as (Hlate & _).
    + reflexivity.
    + reflexivity.
    + apply Hlate.
      * vm_compute. discriminate.
      * vm_compute. discriminate.
  - destruct (slave_update_liveness LittleEndian (initial_state idle_world))
      as (_ & Hnever).
    + reflexivity.
    + reflexivity.
    + apply Hnever; reflexivity.
Defined.

Lemma uninitialised_session_is_enabled_slave_witness :
  dgr_is_enabled (initial_state idle_world) = Done (1, initial_state idle_world)
  /\ dgr_is_master (initial_state idle_world)
     = Done (0, initial_state idle_world).
Proof.
  destruct (uninitialised_session_is_enabled_slave LittleEndian
              (initial_state idle_world) (uninit_start LittleEndian idle_world))
    as (H1 & H2 & _).
  split; [exact H1|exact H2].
Defined.

(** * The further properties at concrete sessions *)

Lemma dgr_findIndex_first_match_witness :
  dgr_findIndex (bytes_of "name") example_master = 1
  /\ dgr_findIndex (bytes_of "nope") example_master = -1.
Proof.
  split.
  - destruct (dgr_findIndex_first_match (bytes_of "name") example_master)
      as [_ H].
    destruct H as (k & r & Hk & _); [vm_compute; discriminate|].
    vm_compute. reflexivity.
  - apply (dgr_findIndex_first_match (bytes_of "nope") example_master).
    vm_compute. intros [H|[H|[]]]; discriminate H.
Defined.

Lemma dgr_set_then_get_witness :
  dgr_get (bytes_of "y") [x00; x00; x00] 3
    (set_list [mk_record (bytes_of "x") 4 [x01; x02; x03; x04];
               mk_record (bytes_of "y") 2 [x09; x08]] example_x)
  = Done ((2, [x09; x08; x00]),
          set_list [mk_record (bytes_of "x") 4 [x01; x02; x03; x04];
                    mk_record (bytes_of "y") 2 [x09; x08]] example_x).
Proof.
  destruct (dgr_set_then_get (bytes_of "y") [x09; x08] 2 example_x)
    as [_ Hget].
  - reflexivity.
  - reflexivity.
  - apply (Hget _ [x00; x00; x00] 3).
    + vm_compute. reflexivity.
    + vm_compute. split; discriminate.
Defined.

Lemma dgr_set_keeps_other_names_witness :
  dgr_get (bytes_of "x") [x00; x00; x00; x00] 4
    (set_list [mk_record (bytes_of "x") 4 [x01; x02; x03; x04];
               mk_record (bytes_of "y") 2 [x09; x08]] example_x)
  = (let* '(res, _) := dgr_get (bytes_of "x") [x00; x00; x00; x00] 4 example_x in
     Done (res,
           set_list [mk_record (bytes_of "x") 4 [x01; x02; x03; x04];
                     mk_record (bytes_of "y") 2 [x09; x08]] example_x)).
Proof.
  apply (dgr_set_keeps_other_names (bytes_of "y") (bytes_of "x") [x09; x08] 2
           example_x).
  - vm_compute. reflexivity.
  - vm_compute. discriminate.
Defined.

Lemma dgr_set_last_wins_witness :
  dgr_set (bytes_of "x") [x07] 1
    (set_list [mk_record (bytes_of "x") 2 [x09; x08]] example_x)
  = dgr_set (bytes_of "x") [x07] 1 example_x.
Proof.
  apply (dgr_set_last_wins (bytes_of "x") [x09; x08] [x07] 2 1 example_x).
  - reflexivity.
  - reflexivity.
  - vm_compute. reflexivity.
  - vm_compute. split; discriminate.
Defined.

Lemma names_never_removed_witness :
  (keeps_slots (dgr_list example_master)
     [mk_record (bytes_of "score") 4 (store_int LittleEndian 10);
      mk_record (bytes_of "name") 2 (bytes_of "xy")]
   /\ dgr_list_size example_master <= 2)
  /\ (keeps_slots (dgr_list example_slave_with_A)
        [mk_record (bytes_of "A") 1 [x03]; mk_record (bytes_of "B") 1 [x03]]
      /\ dgr_list_size example_slave_with_A <= 2).
Proof.
  split.
  - destruct (names_never_removed LittleEndian example_master)
      as [Hsetget _].
    apply (Hsetget (bytes_of "name") (bytes_of "xy") 2 (bytes_of "xy")
             (set_list
                [mk_record (bytes_of "score") 4 (store_int LittleEndian 10);
                 mk_record (bytes_of "name") 2 (bytes_of "xy")]
                example_master)).
    vm_compute. reflexivity.
  - destruct (names_never_removed LittleEndian example_slave_with_A)
      as [_ Hupdate].
    apply (Hupdate
             (set_list
                [mk_record (bytes_of "A") 1 [x03];
                 mk_record (bytes_of "B") 1 [x03]]
                (set_time_lastreceive 20
                   (set_world (set_pending [] (world example_slave_with_A))
                      example_slave_with_A)))).
    vm_compute. reflexivity.
Defined.

Lemma reachable_registry_well_formed_witness :
  dgr_list_size example_received <= DGR_MAX_LIST_SIZE
  /\ List.NoDup (map rec_name (dgr_list example_received)).
Proof.
  destruct (reachable_registry_well_formed LittleEndian example_received)
    as (H1 & H2 & _).
  - apply (reach_update LittleEndian
             (initial_state (score_world LittleEndian))).
    + apply reach_start.
    + vm_compute. reflexivity.
  - split; [exact H1|exact H2].
Defined.

Lemma dgr_get_safe_witness :
  exists ret buffer',
    dgr_get (bytes_of "score") [x00; x00] 2 example_received
    = Done ((ret, buffer'), example_received)
    /\ len buffer' = len [x00; x00]
    /\ ((ret = -3 \/ ret = -1 \/ ret = -2) /\ buffer' = [x00; x00]
        \/ 0 <= ret <= 2).
Proof.
  apply (dgr_get_safe LittleEndian (bytes_of "score") [x00; x00] 2
           example_received).
  - apply (reach_update LittleEndian
             (initial_state (score_world LittleEndian))).
    + apply reach_start.
    + vm_compute. reflexivity.
  - vm_compute. discriminate.
Defined.

Lemma dgr_setget_never_exits_witness :
  dgr_setget (bytes_of "score") (store_int LittleEndian 10) 4
    example_started_master <> Exit 1.
Proof.
  apply (dgr_setget_never_exits LittleEndian (bytes_of "score")
           (store_int LittleEndian 10) 4 example_started_master 1).
  apply (reach_init LittleEndian example_master_start).
  - apply (reach_start LittleEndian (world example_master_start)).
  - vm_compute. reflexivity.
Defined.

Lemma dgr_unserialize_name_too_long_witness :
  dgr_unserialize LittleEndian 1030
    (example_long_name ++ [x00; x01; x00; x00; x00; x07])
    (initial_state idle_world)
  = Undef OutOfBounds.
Proof.
  apply (dgr_unserialize_name_too_long LittleEndian 1030 example_long_name).
  - reflexivity.
  - vm_compute. reflexivity.
  - vm_compute. discriminate.
Defined.

Lemma dgr_unserialize_no_terminator_witness :
  dgr_unserialize LittleEndian 5 (bytes_of "score") (initial_state idle_world)
  = Undef OutOfBounds.
Proof.
  apply (dgr_unserialize_no_terminator LittleEndian 5 (bytes_of "score")).
  - reflexivity.
  - vm_compute. reflexivity.
Defined.

Lemma dgr_unserialize_negative_size_witness :
  dgr_unserialize LittleEndian 7
    (bytes_of "a" ++ [x00] ++ store_int LittleEndian (-1) ++ [x07])
    (initial_state idle_world)
  = Undef NegativeLength.
Proof.
  apply (dgr_unserialize_negative_size LittleEndian 7 (-1) (bytes_of "a") [x07]).
  - reflexivity.
  - vm_compute. reflexivity.
  - vm_compute. discriminate.
  - vm_compute. split; [discriminate|reflexivity].
Defined.

Lemma dgr_serialize_injective_witness :
  dgr_list example_master = dgr_list (set_world (score_world LittleEndian)
                                        example_master).
Proof.
  apply (dgr_serialize_injective LittleEndian example_master
           (set_world (score_world LittleEndian) example_master)
           example_master
           (set_world (score_world LittleEndian) example_master)
           26 26
           (wire_packet LittleEndian (dgr_list example_master))).
  - reflexivity.
  - reflexivity.
  - vm_compute. reflexivity.
  - vm_compute. reflexivity.
Defined.

Lemma dgr_unserialize_concatenation_witness :
  dgr_unserialize LittleEndian
    (len (wire_packet LittleEndian [mk_record (bytes_of "A") 1 [x01]]
          ++ wire_packet LittleEndian [mk_record (bytes_of "B") 1 [x02]]))
    (wire_packet LittleEndian [mk_record (bytes_of "A") 1 [x01]]
     ++ wire_packet LittleEndian [mk_record (bytes_of "B") 1 [x02]])
    example_x
  = (let* '(_, st1) :=
       dgr_unserialize LittleEndian
         (len (wire_packet LittleEndian [mk_record (bytes_of "A") 1 [x01]]))
         (wire_packet LittleEndian [mk_record (bytes_of "A") 1 [x01]])
         example_x in
     dgr_unserialize LittleEndian
       (len (wire_packet LittleEndian [mk_record (bytes_of "B") 1 [x02]]))
       (wire_packet LittleEndian [mk_record (bytes_of "B") 1 [x02]]) st1).
Proof.
  apply (dgr_unserialize_concatenation LittleEndian
           [mk_record (bytes_of "A") 1 [x01]]
           [mk_record (bytes_of "B") 1 [x02]] example_x).
  - reflexivity.
  - reflexivity.
  - vm_compute. discriminate.
Defined.

Lemma master_update_sends_snapshot_witness :
  dgr_update LittleEndian example_master
  = Done (tt, set_world
                (set_sent
                   (sock_sent (world example_master)
                    ++ [wire_packet LittleEndian (dgr_list example_master)])
                   (world example_master)) example_master).
Proof.
  destruct (master_update_sends_snapshot LittleEndian example_master)
    as [_ Hsend].
  - vm_compute. discriminate.
  - reflexivity.
  - reflexivity.
  - reflexivity.
  - vm_compute. discriminate.
  - apply Hsend. discriminate.
Defined.

Lemma transport_error_is_fatal_witness :
  dgr_update LittleEndian example_broken_master = Exit 1.
Proof.
  destruct (transport_error_is_fatal LittleEndian example_broken_master)
    as [_ Hmaster].
  - reflexivity.
  - reflexivity.
  - apply Hmaster.
    + vm_compute. discriminate.
    + reflexivity.
    + discriminate.
    + vm_compute. discriminate.
Defined.

Lemma slave_update_empty_datagram_witness :
  dgr_update LittleEndian example_pinged_slave
  = Done (tt, set_time_lastreceive (time_now example_pinged_slave)
                (set_world (set_pending [] (world example_pinged_slave))
                   example_pinged_slave)).
Proof.
  apply (slave_update_empty_datagram LittleEndian example_pinged_slave
           [packet_AB LittleEndian x01]).
  - reflexivity.
  - reflexivity.
  - reflexivity.
  - right. vm_compute. reflexivity.
  - reflexivity.
Defined.

Lemma slave_first_update_waits_witness :
  dgr_update LittleEndian example_waiting_slave
  = apply_records
      [mk_record (bytes_of "A") 1 [x03]; mk_record (bytes_of "B") 1 [x03]]
      (set_time_lastreceive ((clock (world example_waiting_slave) + 500) / 1000)
         (set_world
            (set_pending []
               (set_arrivals []
                  (set_clock (clock (world example_waiting_slave) + 500)
                     (world example_waiting_slave))))
            example_waiting_slave)).
Proof.
  apply (slave_first_update_waits LittleEndian example_waiting_slave 500
           (packet_AB LittleEndian x03) []).
  - reflexivity.
  - reflexivity.
  - reflexivity.
  - reflexivity.
  - reflexivity.
  - reflexivity.
  - vm_compute. split; discriminate.
  - vm_compute. discriminate.
  - vm_compute. reflexivity.
Defined.

Lemma master_slave_cycle_witness :
  exists master' packet,
    dgr_update LittleEndian example_master = Done (tt, master')
    /\ dgr_list master' = dgr_list example_master
    /\ sock_sent (world master') = sock_sent (world example_master) ++ [packet]
    /\ (sock_pending (world example_synced_slave) = [] ++ [packet] ->
        exists slave',
          dgr_update LittleEndian example_synced_slave = Done (tt, slave')
          /\ forall r,
               In r (dgr_list example_master) ->
               find_record (rec_name r) (dgr_list slave') = Some r
               /\ forall out outSize,
                    rec_size r <= outSize <= len out ->
                    dgr_setget (rec_name r) out outSize slave'
                    = Done (rec_buffer r
                            ++ drop (Z.to_nat (rec_size r)) out, slave')).
Proof.
  apply (master_slave_cycle LittleEndian example_master example_synced_slave []).
  - vm_compute. discriminate.
  - reflexivity.
  - reflexivity.
  - discriminate.
  - reflexivity.
  - vm_compute. discriminate.
  - reflexivity.
  - reflexivity.
  - reflexivity.
  - left. reflexivity.
  - reflexivity.
  - vm_compute. discriminate.
Defined.

Lemma dgr_init_master_mode_witness :
  dgr_init example_master_start
  = Done (tt, mk_state [] 0 1 0 (world example_master_start)).
Proof.
  rewrite (dgr_init_master_mode example_master_start).
  - vm_compute. reflexivity.
  - vm_compute. reflexivity.
Defined.

Lemma dgr_init_slave_mode_witness :
  dgr_init example_slave_start
  = Done (tt, mk_state [] 0 0 0 (world example_slave_start)).
Proof.
  rewrite (dgr_init_slave_mode example_slave_start).
  - vm_compute. reflexivity.
  - vm_compute. reflexivity.
Defined.
